(** * Audio visualizer plugin (plugins/audio-visualizer-luna/src/index.ts)

    A shallow embedding of the plugin's module state, of its audio
    acquisition routine, of the render loop, of the play-state poller with
    its two timers and of the start and the unloading of the plugin,
    followed by the properties checked against it.

    Modelling conventions.
    - A JavaScript [number] is a rational ([Q]).  Where the program takes
      the floor of a computed number - the bin index of a bar, line 361 -
      the computation is carried out as the doubles do it: every operation
      is rounded to the nearest binary64 number, ties to even
      ([roundDouble]).  The geometry of the bars (heights, widths,
      positions) is stated in exact rationals, which the doubles follow to
      within their rounding.  The non-finite values are outside the model.
      They can arise in this program only from a division by a zero
      [barCount] (whose quotient is never used: the loops then run zero
      times), from the mean of an empty [dataArray] (there [NaN > 5] is
      false, and so is the model's [0 > 5]), and from reading [dataArray]
      past its end (excluded for every drawn bar by [dataIndex_in_range]).
    - [Math.sin] and [Math.PI] are an interface ([JSMath]) whose only law is
      the range of the sine.
    - Module-level [let] variables form the record [State]; every call of a
      browser API is appended to [events], so that what the program did to the
      page is observable.
    - What the page answers during one synchronous run (DOM queries, play
      state, settings, analyser bytes, which API calls throw) is a [World].
    - Statements complete as in ECMAScript: normally, by [return], or by a
      thrown exception. *)

From Stdlib Require Import ZArith QArith Qround Qpower Lqa Lia Bool Ascii String List.
From Stdlib Require Import Strings.Byte.
Import ListNotations.

Local Open Scope Z_scope.
Local Open Scope Q_scope.

(** ** The page: elements, settings, canvas *)

Definition Stream := nat.

Record Element := {
  elemId : nat;                            (* node identity, for [===] *)
  tagName : string;
  src : string;
  currentSrc : string;
  ancestors : nat;                         (* length of the parentElement chain *)
  captureStream : option (option Stream);  (* None: the method is absent *)
  mozCaptureStream : option (option Stream)
}.

(** ./Settings is not part of the sources at hand: its three live-read
    fields are taken as they are used. *)
Record Settings := {
  barCount : Z;
  barColor : string;
  barRounding : bool
}.

Inductive Position := PosLeft | PosRight.
Inductive VisualizerType := Bars | Waveform | Circular.

Module config.
Definition enabled : bool := true.
Definition position : Position := PosLeft.
Definition width : N := 200.
Definition height : N := 40.
Definition sensitivity : Q := 15 # 10.
Definition smoothing : Q := 8 # 10.
Definition visualizerType : VisualizerType := Bars.
End config.

Record AnalyserNode := {
  fftSize : N;
  smoothingTimeConstant : Q
}.

Definition frequencyBinCount (a : AnalyserNode) : N := (fftSize a / 2)%N.

Record Canvas := {
  cwidth : N;
  cheight : N
}.

Record Context2D := {
  fillStyle : string;
  strokeStyle : string
}.

Definition num (n : N) : Q := inject_Z (Z.of_N n).
Definition byteQ (b : byte) : Q := num (Byte.to_N b).

(** ** Calls into the browser *)

Inductive AudioNode := ElementSource | StreamSource | AnalyserOut | Destination.

Inductive Event :=
| ConsoleLog (msg : string)
| ConsoleWarn (msg : string)
| ConsoleError (msg : string)
| NewAudioContext
| CreateAnalyser
| CreateMediaElementSource (el : nat)
| CaptureStream (el : nat)
| MozCaptureStream (el : nat)
| CreateMediaStreamSource (st : Stream)
| Connect (from to : AudioNode)
| ContextResume
| SourceDisconnect
| ContextClose
| GetByteFrequencyData
| ClearRect (x y w h : Q)
| FillRect (x y w h : Q)
| BeginPath
| RoundRect (x y w h r : Q)
| Fill
| RequestAnimationFrame
| CancelAnimationFrame (id : positive)
| CreateElement (tag : string)
| AppendChild
| GetContext2D
| InsertBefore (p : Position)
| RemoveContainer.

Inductive ContextState := Suspended | Running | Closed.

Record World := {
  settings : Settings;
  playing : bool;                          (* PlayState.playing *)
  querySelector : string -> option Element;
  querySelectorAll : string -> list Element;
  contextState : ContextState;             (* audioContext.state *)
  frequencyData : list byte;               (* what the analyser writes *)
  context2D : bool;                        (* getContext("2d") is not null *)
  nextFrame : positive;                    (* id requestAnimationFrame returns *)
  faults : Event -> bool                   (* the calls that throw *)
}.

(** ** Module state *)

Record State := {
  audioContext : bool;                     (* non-null *)
  analyser : option AnalyserNode;
  audioSource : option nat;                (* source node of that element *)
  dataArray : option (list byte);
  animationId : option positive;
  currentAudioElement : option Element;
  isSourceConnected : bool;
  visualizerContainer : bool;              (* non-null *)
  canvas : option Canvas;
  canvasContext : option Context2D;
  waveTime : Q;
  hasTriedInitialization : bool;           (* closure of observePlayState *)
  checkCount : Z;
  thenPending : bool;                      (* a [.then] reaction is queued *)
  events : list Event
}.

Definition initialState : State := {|
  audioContext := false; analyser := None; audioSource := None;
  dataArray := None; animationId := None; currentAudioElement := None;
  isSourceConnected := false; visualizerContainer := false; canvas := None;
  canvasContext := None; waveTime := 0; hasTriedInitialization := false;
  checkCount := 0%Z; thenPending := false; events := []
|}.

(** Assignment to one module variable. *)

Definition set_audioContext (v : bool) (s : State) : State :=
  {| audioContext := v; analyser := analyser s; audioSource := audioSource s;
     dataArray := dataArray s; animationId := animationId s;
     currentAudioElement := currentAudioElement s;
     isSourceConnected := isSourceConnected s;
     visualizerContainer := visualizerContainer s; canvas := canvas s;
     canvasContext := canvasContext s; waveTime := waveTime s;
     hasTriedInitialization := hasTriedInitialization s;
     checkCount := checkCount s; thenPending := thenPending s;
     events := events s |}.

Definition set_analyser (v : option AnalyserNode) (s : State) : State :=
  {| audioContext := audioContext s; analyser := v;
     audioSource := audioSource s; dataArray := dataArray s;
     animationId := animationId s;
     currentAudioElement := currentAudioElement s;
     isSourceConnected := isSourceConnected s;
     visualizerContainer := visualizerContainer s; canvas := canvas s;
     canvasContext := canvasContext s; waveTime := waveTime s;
     hasTriedInitialization := hasTriedInitialization s;
     checkCount := checkCount s; thenPending := thenPending s;
     events := events s |}.

Definition set_audioSource (v : option nat) (s : State) : State :=
  {| audioContext := audioContext s; analyser := analyser s;
     audioSource := v; dataArray := dataArray s;
     animationId := animationId s;
     currentAudioElement := currentAudioElement s;
     isSourceConnected := isSourceConnected s;
     visualizerContainer := visualizerContainer s; canvas := canvas s;
     canvasContext := canvasContext s; waveTime := waveTime s;
     hasTriedInitialization := hasTriedInitialization s;
     checkCount := checkCount s; thenPending := thenPending s;
     events := events s |}.

Definition set_dataArray (v : option (list byte)) (s : State) : State :=
  {| audioContext := audioContext s; analyser := analyser s;
     audioSource := audioSource s; dataArray := v;
     animationId := animationId s;
     currentAudioElement := currentAudioElement s;
     isSourceConnected := isSourceConnected s;
     visualizerContainer := visualizerContainer s; canvas := canvas s;
     canvasContext := canvasContext s; waveTime := waveTime s;
     hasTriedInitialization := hasTriedInitialization s;
     checkCount := checkCount s; thenPending := thenPending s;
     events := events s |}.

Definition set_animationId (v : option positive) (s : State) : State :=
  {| audioContext := audioContext s; analyser := analyser s;
     audioSource := audioSource s; dataArray := dataArray s;
     animationId := v; currentAudioElement := currentAudioElement s;
     isSourceConnected := isSourceConnected s;
     visualizerContainer := visualizerContainer s; canvas := canvas s;
     canvasContext := canvasContext s; waveTime := waveTime s;
     hasTriedInitialization := hasTriedInitialization s;
     checkCount := checkCount s; thenPending := thenPending s;
     events := events s |}.

Definition set_currentAudioElement (v : option Element) (s : State) : State :=
  {| audioContext := audioContext s; analyser := analyser s;
     audioSource := audioSource s; dataArray := dataArray s;
     animationId := animationId s; currentAudioElement := v;
     isSourceConnected := isSourceConnected s;
     visualizerContainer := visualizerContainer s; canvas := canvas s;
     canvasContext := canvasContext s; waveTime := waveTime s;
     hasTriedInitialization := hasTriedInitialization s;
     checkCount := checkCount s; thenPending := thenPending s;
     events := events s |}.

Definition set_isSourceConnected (v : bool) (s : State) : State :=
  {| audioContext := audioContext s; analyser := analyser s;
     audioSource := audioSource s; dataArray := dataArray s;
     animationId := animationId s;
     currentAudioElement := currentAudioElement s; isSourceConnected := v;
     visualizerContainer := visualizerContainer s; canvas := canvas s;
     canvasContext := canvasContext s; waveTime := waveTime s;
     hasTriedInitialization := hasTriedInitialization s;
     checkCount := checkCount s; thenPending := thenPending s;
     events := events s |}.

Definition set_visualizerContainer (v : bool) (s : State) : State :=
  {| audioContext := audioContext s; analyser := analyser s;
     audioSource := audioSource s; dataArray := dataArray s;
     animationId := animationId s;
     currentAudioElement := currentAudioElement s;
     isSourceConnected := isSourceConnected s; visualizerContainer := v;
     canvas := canvas s; canvasContext := canvasContext s;
     waveTime := waveTime s;
     hasTriedInitialization := hasTriedInitialization s;
     checkCount := checkCount s; thenPending := thenPending s;
     events := events s |}.

Definition set_canvas (v : option Canvas) (s : State) : State :=
  {| audioContext := audioContext s; analyser := analyser s;
     audioSource := audioSource s; dataArray := dataArray s;
     animationId := animationId s;
     currentAudioElement := currentAudioElement s;
     isSourceConnected := isSourceConnected s;
     visualizerContainer := visualizerContainer s; canvas := v;
     canvasContext := canvasContext s; waveTime := waveTime s;
     hasTriedInitialization := hasTriedInitialization s;
     checkCount := checkCount s; thenPending := thenPending s;
     events := events s |}.

Definition set_canvasContext (v : option Context2D) (s : State) : State :=
  {| audioContext := audioContext s; analyser := analyser s;
     audioSource := audioSource s; dataArray := dataArray s;
     animationId := animationId s;
     currentAudioElement := currentAudioElement s;
     isSourceConnected := isSourceConnected s;
     visualizerContainer := visualizerContainer s; canvas := canvas s;
     canvasContext := v; waveTime := waveTime s;
     hasTriedInitialization := hasTriedInitialization s;
     checkCount := checkCount s; thenPending := thenPending s;
     events := events s |}.

Definition set_waveTime (v : Q) (s : State) : State :=
  {| audioContext := audioContext s; analyser := analyser s;
     audioSource := audioSource s; dataArray := dataArray s;
     animationId := animationId s;
     currentAudioElement := currentAudioElement s;
     isSourceConnected := isSourceConnected s;
     visualizerContainer := visualizerContainer s; canvas := canvas s;
     canvasContext := canvasContext s; waveTime := v;
     hasTriedInitialization := hasTriedInitialization s;
     checkCount := checkCount s; thenPending := thenPending s;
     events := events s |}.

Definition set_hasTriedInitialization (v : bool) (s : State) : State :=
  {| audioContext := audioContext s; analyser := analyser s;
     audioSource := audioSource s; dataArray := dataArray s;
     animationId := animationId s;
     currentAudioElement := currentAudioElement s;
     isSourceConnected := isSourceConnected s;
     visualizerContainer := visualizerContainer s; canvas := canvas s;
     canvasContext := canvasContext s; waveTime := waveTime s;
     hasTriedInitialization := v; checkCount := checkCount s;
     thenPending := thenPending s; events := events s |}.

Definition set_checkCount (v : Z) (s : State) : State :=
  {| audioContext := audioContext s; analyser := analyser s;
     audioSource := audioSource s; dataArray := dataArray s;
     animationId := animationId s;
     currentAudioElement := currentAudioElement s;
     isSourceConnected := isSourceConnected s;
     visualizerContainer := visualizerContainer s; canvas := canvas s;
     canvasContext := canvasContext s; waveTime := waveTime s;
     hasTriedInitialization := hasTriedInitialization s; checkCount := v;
     thenPending := thenPending s; events := events s |}.

Definition set_thenPending (v : bool) (s : State) : State :=
  {| audioContext := audioContext s; analyser := analyser s;
     audioSource := audioSource s; dataArray := dataArray s;
     animationId := animationId s;
     currentAudioElement := currentAudioElement s;
     isSourceConnected := isSourceConnected s;
     visualizerContainer := visualizerContainer s; canvas := canvas s;
     canvasContext := canvasContext s; waveTime := waveTime s;
     hasTriedInitialization := hasTriedInitialization s;
     checkCount := checkCount s; thenPending := v; events := events s |}.

Definition set_events (v : list Event) (s : State) : State :=
  {| audioContext := audioContext s; analyser := analyser s;
     audioSource := audioSource s; dataArray := dataArray s;
     animationId := animationId s;
     currentAudioElement := currentAudioElement s;
     isSourceConnected := isSourceConnected s;
     visualizerContainer := visualizerContainer s; canvas := canvas s;
     canvasContext := canvasContext s; waveTime := waveTime s;
     hasTriedInitialization := hasTriedInitialization s;
     checkCount := checkCount s; thenPending := thenPending s; events := v |}.

(** ** Completions and the statement monad *)

Inductive Completion (A : Type) : Type :=
| Normal (a : A) (s : State)
| Return (s : State)               (* a [return] statement was reached *)
| Throw (err : string) (s : State).

Arguments Normal {A} a s.
Arguments Return {A} s.
Arguments Throw {A} err s.

Definition M (A : Type) : Type := State -> Completion A.

Definition final {A} (c : Completion A) : State :=
  match c with
  | Normal _ s => s
  | Return s => s
  | Throw _ s => s
  end.

Definition ret {A} (a : A) : M A := fun s => Normal a s.

Definition bind {A B} (m : M A) (k : A -> M B) : M B :=
  fun s =>
    match m s with
    | Normal a s' => k a s'
    | Return s' => Return s'
    | Throw e s' => Throw e s'
    end.

Declare Scope js_scope.
Delimit Scope js_scope with js.
Notation "x <- m ;; k" := (bind m (fun x => k))
  (at level 61, m at next level, right associativity) : js_scope.
Notation "m ;; k" := (bind m (fun _ => k))
  (at level 61, right associativity) : js_scope.
Local Open Scope js_scope.

Definition get : M State := fun s => Normal s s.
Definition modify (f : State -> State) : M unit := fun s => Normal tt (f s).
Definition throw {A} (err : string) : M A := fun s => Throw err s.
Definition return_ {A} : M A := fun s => Return s.
Definition skip : M unit := ret tt.

(** [try { m } catch (err) { h err }] *)
Definition try_catch (m : M unit) (h : string -> M unit) : M unit :=
  fun s =>
    match m s with
    | Throw e s' => h e s'
    | c => c
    end.

(** A function call: a [return] inside the body ends the call normally. *)
Definition call (body : M unit) : M unit :=
  fun s =>
    match body s with
    | Return s' => Normal tt s'
    | c => c
    end.

Definition when (b : bool) (m : M unit) : M unit := if b then m else skip.

(** [for (let i = 0; i < n; i++) body(i)] is [for_from 0 n body]. *)
Fixpoint for_from (i : nat) (n : nat) (body : nat -> M unit) : M unit :=
  match n with
  | O => skip
  | S n' => body i ;; for_from (S i) n' body
  end.

Definition emit (e : Event) : M unit :=
  modify (fun s => set_events (events s ++ [e]) s).

(** Lines 11-14: the three logging helpers put the plugin's tag in front. *)
Definition tagged (message : string) : string :=
  ("[Audio Visualizer] " ++ message)%string.

Definition logged (message : string) : Event := ConsoleLog (tagged message).

Definition log (message : string) : M unit := emit (logged message).
Definition warn (message : string) : M unit := emit (ConsoleWarn (tagged message)).
Definition error (message : string) : M unit := emit (ConsoleError (tagged message)).

(** [console.error(err)], called directly *)
Definition console_error (err : string) : M unit := emit (ConsoleError err).

(** ** Math.sin and Math.PI *)

Class JSMath := {
  Math_sin : Q -> Q;
  Math_PI : Q;
  Math_sin_range : forall x, -1 <= Math_sin x <= 1
}.

(** ** Small helpers for JavaScript values *)

Definition isSome {A} (o : option A) : bool :=
  match o with Some _ => true | None => false end.

Definition truthy (str : string) : bool :=
  match str with EmptyString => false | _ => true end.

Definition dq : string := String "034"%char EmptyString.

(** [a === b] on element references *)
Definition sameElement (a : Element) (b : option Element) : bool :=
  match b with
  | Some e => Nat.eqb (elemId a) (elemId e)
  | None => false
  end.

(** [analyser.getByteFrequencyData(arr)]: the bins are written in place, the
    length of the array is kept. *)
Definition overwrite (data arr : list byte) : list byte :=
  firstn (length arr) data ++ skipn (length data) arr.

(** [dataArray.reduce((sum, val) => sum + val, 0) / dataArray.length] *)
Definition avgVolume (arr : list byte) : Q :=
  fold_left (fun sum val => sum + byteQ val) arr 0 / inject_Z (Z.of_nat (length arr)).

(** [avgVolume > 5] *)
Definition hasRealAudio (arr : list byte) : bool :=
  negb (Qle_bool (avgVolume arr) 5).

(** The silence classifier is the negation of line 267's test. *)
Definition isSilent (arr : list byte) : bool := negb (hasRealAudio arr).

Definition Qnat (i : nat) : Q := inject_Z (Z.of_nat i).

(** *** Binary64 arithmetic

    A double is [m * 2 ^ (e - 52)] with a whole [m], [2 ^ 52 <= m < 2 ^ 53];
    the result of [*] and [/] is the exact result rounded to the nearest
    such number, ties to the even [m] (IEEE 754, which ECMAScript's Number
    type follows).  Overflow and subnormal numbers are not modelled: the
    operands here are whole numbers and their quotients. *)

(** The [e] with [2 ^ e <= q < 2 ^ (e + 1)], for a positive [q]. *)
Definition binade (q : Q) : Z :=
  let e0 := (Z.log2 (Qnum q) - Z.log2 (Zpos (Qden q)))%Z in
  if Qle_bool (2 ^ e0) q then e0 else (e0 - 1)%Z.

(** Rounding to the nearest whole number, ties to even. *)
Definition nearestEven (x : Q) : Z :=
  let k := Qfloor x in
  match Qcompare (x - inject_Z k) (1 # 2) with
  | Lt => k
  | Gt => (k + 1)%Z
  | Eq => if Z.even k then k else (k + 1)%Z
  end.

Definition roundPositive (q : Q) : Q :=
  let ulp := 2 ^ (binade q - 52) in
  inject_Z (nearestEven (q / ulp)) * ulp.

Definition roundDouble (q : Q) : Q :=
  match Qnum q with
  | Z0 => 0
  | Zpos _ => roundPositive q
  | Zneg _ => - roundPositive (- q)
  end.

(** [a * b] and [a / b] on doubles. *)
Definition fmul (a b : Q) : Q := roundDouble (a * b).
Definition fdiv (a b : Q) : Q := roundDouble (a / b).

(** Half a unit in the last place, relative to the number: [2 ^ -53]. *)
Definition halfUlp : Q := 1 # 9007199254740992.

(** Line 361 of drawBars:
    [Math.floor(i * (dataArray.length / config.barCount))], the quotient and
    the product rounded as doubles.  The product can fall just below a whole
    number that the exact product equals (98 bars, [i = 49]:
    127.99999999999999 for 128). *)
Definition dataIndex (arr : list byte) (barCount : Z) (i : nat) : Z :=
  Qfloor (fmul (Qnat i) (fdiv (Qnat (length arr)) (inject_Z barCount))).

Definition barHeight (arr : list byte) (barCount : Z) (cv : Canvas) (i : nat) : Q :=
  byteQ (nth (Z.to_nat (dataIndex arr barCount i)) arr x00)
  * config.sensitivity * (num (cheight cv) / 255).

(** Lines 325-337 of drawScrollingWave *)
Definition waveBarHeight {math : JSMath} (cv : Canvas) (barCount : Z)
    (waveTime : Q) (i : nat) : Q :=
  let maxHeight := num (cheight cv) * 0.6 in
  let x := Qnat i / inject_Z barCount in
  let wave1 := Math_sin (x * Math_PI * 2 + waveTime) * 0.3 in
  let wave2 := Math_sin (x * Math_PI * 4 + waveTime * 1.3) * 0.2 in
  let wave3 := Math_sin (x * Math_PI * 6 + waveTime * 0.7) * 0.1 in
  let combinedWave := (wave1 + wave2 + wave3 + 1) / 2 in
  let travelWave := Math_sin (x * Math_PI * 3 - waveTime * 2) * 0.5 + 0.5 in
  maxHeight * combinedWave * travelWave * 0.8 + 2.

(** ** The program *)

Section Program.

Context {math : JSMath}.
Variable w : World.

(** A call into the browser: it is recorded, then it returns or throws. *)
Definition perform (e : Event) : M unit :=
  emit e ;;
  if faults w e then throw "exception thrown by the browser" else skip.

Definition selectors : list string :=
  [ "audio"; "video"; "audio[data-test]";
    "[data-test=" ++ dq ++ "audio-player" ++ dq ++ "] audio" ]%string.

Definition isMedia (el : Element) : bool :=
  String.eqb (tagName el) "AUDIO" || String.eqb (tagName el) "VIDEO".

Fixpoint firstMatch (sels : list string) : option Element :=
  match sels with
  | [] => None
  | selector :: rest =>
      match querySelector w selector with
      | Some element => if isMedia element then Some element else firstMatch rest
      | None => firstMatch rest
      end
  end.

Definition findAudioElement : option Element :=
  match firstMatch selectors with
  | Some element => Some element
  | None =>
      find (fun audioEl => truthy (src audioEl) || truthy (currentSrc audioEl))
           (querySelectorAll w "audio, video")
  end.

Definition removeVisualizerUI : M unit :=
  s <- get ;;
  when (visualizerContainer s)
    (perform RemoveContainer ;;
     modify (set_visualizerContainer false) ;;
     modify (set_canvas None) ;;
     modify (set_canvasContext None)).

Definition searchFieldSelector : string :=
  ("input[class*=" ++ dq ++ "_searchField" ++ dq ++ "]")%string.

Definition createVisualizerUI : M unit :=
  call
    (removeVisualizerUI ;;
     (if negb config.enabled then return_ else skip) ;;
     match querySelector w searchFieldSelector with
     | None => warn "Search field not found" ;; return_
     | Some searchField =>
         match ancestors searchField with
         | O => warn "Search container not found" ;; return_
         | S above =>
             perform (CreateElement "div") ;;
             modify (set_visualizerContainer true) ;;
             perform (CreateElement "canvas") ;;
             modify (set_canvas
                       (Some {| cwidth := config.width; cheight := config.height |})) ;;
             perform AppendChild ;;
             perform GetContext2D ;;
             modify (set_canvasContext
                       (if context2D w
                        then Some {| fillStyle := "#000000"; strokeStyle := "#000000" |}
                        else None)) ;;
             (* searchContainer.parentElement?.insertBefore(...) *)
             match above with
             | O => skip
             | S _ => perform (InsertBefore config.position)
             end
         end
     end).

Definition drawRoundedRect (x y width height radius : Q) : M unit :=
  perform BeginPath ;;
  perform (RoundRect x y width height radius) ;;
  perform Fill.

Definition setFillStyle (color : string) : M unit :=
  modify (fun s =>
    match canvasContext s with
    | Some ctx =>
        set_canvasContext
          (Some {| fillStyle := color; strokeStyle := strokeStyle ctx |}) s
    | None => s
    end).

Definition drawScrollingWave : M unit :=
  call
    (s <- get ;;
     match canvasContext s, canvas s with
     | Some _, Some cv =>
         modify (set_waveTime (waveTime s + 0.05)) ;;
         let barCount := barCount (settings w) in
         let barWidth := num (cwidth cv) / inject_Z barCount in
         setFillStyle (barColor (settings w)) ;;
         s <- get ;;
         for_from 0 (Z.to_nat barCount) (fun i =>
           let barHeight := waveBarHeight cv barCount (waveTime s) i in
           let xPos := Qnat i * barWidth in
           let yPos := (num (cheight cv) - barHeight) / 2 in
           if barRounding (settings w)
           then drawRoundedRect xPos yPos (barWidth - 1) barHeight 2
           else perform (FillRect xPos yPos (barWidth - 1) barHeight))
     | _, _ => return_
     end).

Definition drawBars : M unit :=
  call
    (s <- get ;;
     match canvasContext s, dataArray s, canvas s with
     | Some _, Some arr, Some cv =>
         let barWidth := num (cwidth cv) / inject_Z (barCount (settings w)) in
         setFillStyle (barColor (settings w)) ;;
         for_from 0 (Z.to_nat (barCount (settings w))) (fun i =>
           let barHeight := barHeight arr (barCount (settings w)) cv i in
           let x := Qnat i * barWidth in
           let y := num (cheight cv) - barHeight in
           if barRounding (settings w)
           then drawRoundedRect x y (barWidth - 1) barHeight 2
           else perform (FillRect x y (barWidth - 1) barHeight))
     | _, _, _ => return_
     end).

(** Both are commented out in the source: calling them is a ReferenceError. *)
Definition drawWaveform : M unit := throw "ReferenceError: drawWaveform is not defined".
Definition drawCircular : M unit := throw "ReferenceError: drawCircular is not defined".

(** Lines 256-289: one frame is painted. *)
Definition renderFrame (cv : Canvas) : M unit :=
  modify (set_canvasContext
            (Some {| fillStyle := barColor (settings w);
                     strokeStyle := barColor (settings w) |})) ;;
  s <- get ;;
  audible <-
    match analyser s, dataArray s with
    | Some _, Some arr =>
        perform GetByteFrequencyData ;;
        modify (set_dataArray (Some (overwrite (frequencyData w) arr))) ;;
        ret (hasRealAudio (overwrite (frequencyData w) arr))
    | _, _ => ret false
    end ;;
  perform (ClearRect 0 0 (num (cwidth cv)) (num (cheight cv))) ;;
  s <- get ;;
  if audible && isSome (analyser s) && isSome (dataArray s)
  then match config.visualizerType with
       | Bars => drawBars
       | Waveform => drawWaveform
       | Circular => drawCircular
       end
  else drawScrollingWave.

Definition animate : M unit :=
  call
    (s <- get ;;
     match canvasContext s, canvas s with
     | Some _, Some cv =>
         renderFrame cv ;;
         perform RequestAnimationFrame ;;
         modify (set_animationId (Some (nextFrame w)))
     | _, _ => modify (set_animationId None) ;; return_
     end).

(** Lines 98-111: the analysis context and node are created once. *)
Definition ensureAudioGraph : M unit :=
  s <- get ;;
  when (negb (audioContext s))
    (perform NewAudioContext ;;
     modify (set_audioContext true) ;;
     log "Created AudioContext") ;;
  s <- get ;;
  when (negb (isSome (analyser s)))
    (perform CreateAnalyser ;;
     let created := {| fftSize := 512; smoothingTimeConstant := config.smoothing |} in
     modify (set_analyser (Some created)) ;;
     modify (set_dataArray
               (Some (repeat x00 (N.to_nat (frequencyBinCount created))))) ;;
     log "Created AnalyserNode").

(** Lines 116-121: the body of the first [try]. *)
Definition directTap (audioElement : Element) : M unit :=
  perform (CreateMediaElementSource (elemId audioElement)) ;;
  modify (set_audioSource (Some (elemId audioElement))) ;;
  perform (Connect ElementSource AnalyserOut) ;;
  perform (Connect AnalyserOut Destination) ;;
  log "Connected via MediaElementSource".

(** [el.captureStream?.() || el.mozCaptureStream?.()] *)
Definition captureAny (audioElement : Element) : M (option Stream) :=
  first <-
    match captureStream audioElement with
    | None => ret None
    | Some answer => perform (CaptureStream (elemId audioElement)) ;; ret answer
    end ;;
  match first with
  | Some stream => ret (Some stream)
  | None =>
      match mozCaptureStream audioElement with
      | None => ret None
      | Some answer => perform (MozCaptureStream (elemId audioElement)) ;; ret answer
      end
  end.

(** Lines 126-141: the body of the second [try]. *)
Definition streamTap (audioElement : Element) : M unit :=
  stream <- captureAny audioElement ;;
  match stream with
  | None => throw "captureStream not supported"
  | Some st =>
      perform (CreateMediaStreamSource st) ;;
      perform (Connect StreamSource AnalyserOut) ;;
      perform (Connect AnalyserOut Destination) ;;
      log "Connected via captureStream"
  end.

(** Lines 113-152 *)
Definition attemptConnection (audioElement : Element) : M unit :=
  s <- get ;;
  when (negb (isSourceConnected s)
        && negb (sameElement audioElement (currentAudioElement s)))
    (try_catch (directTap audioElement)
       (fun err =>
          log "MediaElementSource failed, attempting captureStream fallback..." ;;
          try_catch (streamTap audioElement)
            (fun streamErr =>
               error "Failed to hook audio for visualization on this platform" ;;
               console_error streamErr ;;
               return_)) ;;
     modify (set_currentAudioElement (Some audioElement)) ;;
     modify (set_isSourceConnected true)).

(** Lines 154-168 *)
Definition resumeAndShow : M unit :=
  when (match contextState w with Suspended => true | _ => false end)
    (perform ContextResume) ;;
  s <- get ;;
  when (negb (visualizerContainer s)) createVisualizerUI ;;
  s <- get ;;
  when (negb (isSome (animationId s))) animate.

(** The routine is [async] but contains no [await]: its body runs to the
    end when it is called, and the promise it returns is fulfilled. *)
Definition initializeAudioVisualizer : M unit :=
  call
    (try_catch
       (match findAudioElement with
        | None => return_
        | Some audioElement =>
            ensureAudioGraph ;;
            attemptConnection audioElement ;;
            resumeAndShow
        end)
       (fun err => console_error err)).

Definition updateAudioVisualizer : M unit :=
  s <- get ;;
  match analyser s with
  | Some _ =>
      let updated := {| fftSize := 512; smoothingTimeConstant := config.smoothing |} in
      modify (set_analyser (Some updated)) ;;
      modify (set_dataArray
                (Some (repeat x00 (N.to_nat (frequencyBinCount updated)))))
  | None => skip
  end ;;
  s <- get ;;
  match canvas s with
  | Some _ =>
      modify (set_canvas
                (Some {| cwidth := config.width; cheight := config.height |}))
  | None => skip
  end ;;
  createVisualizerUI.

Definition stopAnimation : M unit :=
  s <- get ;;
  match animationId s with
  | Some id => perform (CancelAnimationFrame id) ;; modify (set_animationId None)
  | None => skip
  end.

Definition cleanupAudioVisualizer : M unit :=
  stopAnimation ;;
  removeVisualizerUI.

Definition completeCleanup : M unit :=
  log "Complete cleanup - plugin unloading" ;;
  stopAnimation ;;
  removeVisualizerUI ;;
  s <- get ;;
  when (isSome (audioSource s))
    (try_catch
       (perform SourceDisconnect ;; log "Disconnected audio source completely")
       (fun e => log "Audio source already disconnected")) ;;
  s <- get ;;
  when (audioContext s
        && negb (match contextState w with Closed => true | _ => false end))
    (perform ContextClose ;; log "Closed AudioContext") ;;
  modify (set_audioContext false) ;;
  modify (set_analyser None) ;;
  modify (set_audioSource None) ;;
  modify (set_dataArray None) ;;
  modify (set_currentAudioElement None) ;;
  modify (set_isSourceConnected false).

(** Lines 474-499.  The [.then] reaction is queued and runs after the
    synchronous part of the tick ([runThen]). *)
Definition checkAndInitialize : M unit :=
  modify (fun s => set_checkCount (checkCount s + 1)%Z s) ;;
  s <- get ;;
  (if playing w && negb (hasTriedInitialization s)
   then
     modify (set_hasTriedInitialization true) ;;
     log "Initializing audio visualizer..." ;;
     initializeAudioVisualizer ;;
     modify (set_thenPending true)
   else
     when (negb (playing w) && hasTriedInitialization s)
       (modify (set_hasTriedInitialization false))) ;;
  s <- get ;;
  when (negb (isSome (animationId s))) animate.

(** Lines 484-488 *)
Definition thenReaction : M unit :=
  s <- get ;;
  if audioContext s && isSome (analyser s)
  then log "Audio visualizer ready!"
  else modify (set_hasTriedInitialization false).

Definition runThen (s : State) : State :=
  if thenPending s
  then final (thenReaction (set_thenPending false s))
  else s.

(** One timer tick: the check, then the queued reaction, whether or not the
    check ended with an exception. *)
Definition pollTick (s : State) : State :=
  runThen (final (checkAndInitialize s)).

End Program.

(** ** A concrete page, for running the model *)

(** A rational stand-in for the sine: the cubic Taylor polynomial, clipped
    to the range of the sine. *)
Definition sinModel (x : Q) : Q :=
  let t := x - x * x * x / 6 in
  if Qle_bool t (-1) then -1 else if Qle_bool 1 t then 1 else t.

#[export] Instance modelMath : JSMath.
Proof.
  refine {| Math_sin := sinModel; Math_PI := 355 # 113 |}.
  intro x. unfold sinModel.
  destruct (Qle_bool (x - x * x * x / 6) (-1)) eqn:Hlo.
  - split; [apply Qle_refl | discriminate].
  - destruct (Qle_bool 1 (x - x * x * x / 6)) eqn:Hhi.
    + split; [discriminate | apply Qle_refl].
    + split; apply Qnot_lt_le; intro Hlt; apply Qlt_le_weak in Hlt;
        apply Qle_bool_iff in Hlt; congruence.
Defined.

Definition player : Element := {|
  elemId := 1; tagName := "VIDEO"; src := "blob:track"; currentSrc := "";
  ancestors := 3; captureStream := Some (Some 7%nat); mozCaptureStream := None
|}.

Definition searchInput : Element := {|
  elemId := 2; tagName := "INPUT"; src := ""; currentSrc := "";
  ancestors := 4; captureStream := None; mozCaptureStream := None
|}.

Definition pageQuery (sel : string) : option Element :=
  if String.eqb sel "video" then Some player
  else if String.eqb sel searchFieldSelector then Some searchInput
  else None.

Definition worldWith (st : Settings) (isPlaying : bool)
    (bins : list byte) (bad : Event -> bool) : World := {|
  settings := st; playing := isPlaying;
  querySelector := pageQuery; querySelectorAll := fun _ => [player];
  contextState := Running; frequencyData := bins; context2D := true;
  nextFrame := 1%positive; faults := bad
|}.

Definition fiftyBars : Settings :=
  {| barCount := 50; barColor := "#ffffff"; barRounding := false |}.

Definition noFault : Event -> bool := fun _ => false.

(** ** What the recorded calls say *)

Definition initLog : string := "Initializing audio visualizer...".

(** The calls of lines 117-119 and 127-139: a source node is created from
    the element or from a captured stream, or a node is wired. *)
Definition isConnectionAttempt (e : Event) : bool :=
  match e with
  | CreateMediaElementSource _ | CaptureStream _ | MozCaptureStream _
  | CreateMediaStreamSource _ | Connect _ _ => true
  | _ => false
  end.

Definition isTeardown (e : Event) : bool :=
  match e with
  | SourceDisconnect | ContextClose => true
  | _ => false
  end.

Definition isAcquisition (e : Event) : bool :=
  match e with
  | ConsoleLog msg => String.eqb msg (tagged initLog)
  | _ => false
  end.

Definition isSchedule (e : Event) : bool :=
  match e with
  | RequestAnimationFrame => true
  | _ => false
  end.

Definition count (p : Event -> bool) (tr : list Event) : nat :=
  List.length (filter p tr).

Definition connectionAttempts (s : State) : nat := count isConnectionAttempt (events s).
Definition teardowns (s : State) : nat := count isTeardown (events s).
Definition acquisitions (s : State) : nat := count isAcquisition (events s).
Definition framesRequested (s : State) : nat := count isSchedule (events s).

(** The geometry [(x, y, width, height)] of the bars painted, in order. *)
Definition Rect : Type := Q * Q * Q * Q.

Fixpoint bars (tr : list Event) : list Rect :=
  match tr with
  | [] => []
  | FillRect x y w h :: rest => (x, y, w, h) :: bars rest
  | RoundRect x y w h _ :: rest => (x, y, w, h) :: bars rest
  | _ :: rest => bars rest
  end.

Definition rectHeight (r : Rect) : Q := snd r.
Definition rectWidth (r : Rect) : Q := snd (fst r).
Definition rectX (r : Rect) : Q := fst (fst (fst r)).
Definition rectY (r : Rect) : Q := snd (fst (fst r)).

(** Events that leave the audio path, the teardown and the acquisition
    count alone. *)
Definition connQuiet (e : Event) : bool :=
  negb (isConnectionAttempt e) && negb (isTeardown e).
Definition initQuiet (e : Event) : bool :=
  negb (isAcquisition e) && negb (isTeardown e).
Definition quietEvent (e : Event) : bool := connQuiet e && initQuiet e.

(** ** Relations between the state before and after a piece of code *)

Definition grows (ok : Event -> bool) (s s' : State) : Prop :=
  exists evs, events s' = events s ++ evs /\ forallb ok evs = true.

Definition samePath (s s' : State) : Prop :=
  isSourceConnected s' = isSourceConnected s /\
  currentAudioElement s' = currentAudioElement s /\
  audioSource s' = audioSource s.

Definition sameGraph (s s' : State) : Prop :=
  audioContext s' = audioContext s /\
  isSome (analyser s') = isSome (analyser s).

Definition sameControl (s s' : State) : Prop :=
  hasTriedInitialization s' = hasTriedInitialization s /\
  thenPending s' = thenPending s /\
  checkCount s' = checkCount s.

(** Code that only prepares the graph or paints. *)
Definition Quiet (s s' : State) : Prop :=
  samePath s s' /\ sameControl s s' /\ grows quietEvent s s'.

(** Code that only paints or rebuilds the surface. *)
Definition Background (s s' : State) : Prop :=
  sameGraph s s' /\ Quiet s s'.

(** The acquisition routine as the poller sees it. *)
Definition Acquiring (s s' : State) : Prop :=
  sameControl s s' /\ grows initQuiet s s'.

(** Code that leaves the audio connection as it is. *)
Definition Connected (s s' : State) : Prop :=
  samePath s s' /\ grows connQuiet s s'.

(** Code that does not write the connection record (flag and handle). *)
Definition KeepsRecord (s s' : State) : Prop :=
  isSourceConnected s' = isSourceConnected s /\
  currentAudioElement s' = currentAudioElement s.

(** Code that leaves the connection as it is once a source is connected. *)
Definition WhileConnected (s s' : State) : Prop :=
  isSourceConnected s = true -> Connected s s'.

(** Code that schedules no frame. *)
Definition paintEvent (e : Event) : bool := negb (isSchedule e).

Definition Painting (s s' : State) : Prop :=
  animationId s' = animationId s /\ grows paintEvent s s'.

Definition respects (R : State -> State -> Prop) {A} (m : M A) : Prop :=
  forall s, R s (final (m s)).

(** A block that never completes by [return], and one that never throws. *)
Definition straight {A} (m : M A) : Prop := forall s s', m s <> Return s'.
Definition calm {A} (m : M A) : Prop := forall s e s', m s <> Throw e s'.

(** ** The spec's silence policy, in its own words *)

(** Section 4.2: the arithmetic mean of all bin magnitudes. *)
Definition binTotal (bins : list byte) : Z :=
  fold_right (fun b acc => (Z.of_N (Byte.to_N b) + acc)%Z) 0%Z bins.

Definition arithmeticMean (bins : list byte) : Q :=
  inject_Z (binTotal bins) / inject_Z (Z.of_nat (List.length bins)).

(** ** The rectangle of bar [i], as the two drawing loops compute it *)

(** drawBars, lines 355-365 *)
Definition barRect (w : World) (arr : list byte) (cv : Canvas) (i : nat) : Rect :=
  let barWidth := num (cwidth cv) / inject_Z (barCount (settings w)) in
  let h := barHeight arr (barCount (settings w)) cv i in
  (Qnat i * barWidth, num (cheight cv) - h, barWidth - 1, h).

(** drawScrollingWave, lines 318-340, at wave time [t] *)
Definition waveRect {math : JSMath} (w : World) (cv : Canvas) (t : Q) (i : nat) : Rect :=
  let barWidth := num (cwidth cv) / inject_Z (barCount (settings w)) in
  let h := waveBarHeight cv (barCount (settings w)) t i in
  (Qnat i * barWidth, (num (cheight cv) - h) / 2, barWidth - 1, h).

(** A page that plays loud audio, and the plugin once it has initialised on
    that page. *)
Definition loudWorld : World := worldWith fiftyBars true (repeat xff 256) noFault.
Definition liveState : State := final (initializeAudioVisualizer loudWorld initialState).

(** Whether the frame that starts in [s] takes the real-audio branch
    (lines 261-268 and 273). *)
Definition audibleNow (w : World) (s : State) : bool :=
  match analyser s, dataArray s with
  | Some _, Some arr => hasRealAudio (overwrite (frequencyData w) arr)
  | _, _ => false
  end.

(** The bins the frame that starts in [s] reads. *)
Definition snapshotNow (w : World) (s : State) : list byte :=
  match dataArray s with
  | Some arr => overwrite (frequencyData w) arr
  | None => []
  end.

(** ** Replaying idle frames *)

(** The heights painted by consecutive idle frames, one list per frame;
    [None] when a frame ends with an exception. *)
Fixpoint idleFrames {math : JSMath} (ws : list World) (s : State)
    : option (list (list Q)) :=
  match ws with
  | [] => Some []
  | w :: rest =>
      match drawScrollingWave w s with
      | Normal _ s' =>
          match idleFrames rest s' with
          | Some hs =>
              Some (map rectHeight (bars (skipn (List.length (events s)) (events s'))) :: hs)
          | None => None
          end
      | _ => None
      end
  end.

(** The same heights from the surface, the wave time at the start and the
    bar count of each tick alone. *)
Fixpoint idleHeights {math : JSMath} (cv : Canvas) (t : Q) (counts : list Z)
    : list (list Q) :=
  match counts with
  | [] => []
  | n :: rest =>
      map (waveBarHeight cv n (t + 0.05)) (seq 0 (Z.to_nat n))
      :: idleHeights cv (t + 0.05) rest
  end.

(** A page without audio, the same page with rounded green bars, and a page
    whose canvas has no [roundRect]. *)
Definition roundedBars : Settings :=
  {| barCount := 50; barColor := "#00ff00"; barRounding := true |}.

Definition noRoundRect (e : Event) : bool :=
  match e with
  | RoundRect _ _ _ _ _ => true
  | _ => false
  end.

Definition quietWorld : World := worldWith fiftyBars false [] noFault.
Definition roundedWorld : World := worldWith roundedBars true [] noFault.
Definition legacyWorld : World := worldWith roundedBars false [] noRoundRect.

(** The plugin after [createVisualizerUI] on the quiet page. *)
Definition surfaceState : State := final (createVisualizerUI quietWorld initialState).

(** Pages on which the element cannot be tapped directly, and on which no
    source node can be created at all. *)
Definition noElementSource (e : Event) : bool :=
  match e with
  | CreateMediaElementSource _ => true
  | _ => false
  end.

Definition noSource (e : Event) : bool :=
  match e with
  | CreateMediaElementSource _ | CreateMediaStreamSource _ => true
  | _ => false
  end.

Definition protectedWorld : World :=
  worldWith fiftyBars true (repeat xff 256) noElementSource.
Definition lockedWorld : World :=
  worldWith fiftyBars true (repeat xff 256) noSource.

(** ** Runs of the plugin *)

(** What can happen to a loaded plugin short of unloading it. *)
Inductive Op :=
| CallInitialize (w : World)   (* initializeAudioVisualizer() *)
| Frame (w : World)            (* an animation frame fires: animate() *)
| CallUpdate (w : World)       (* window.updateAudioVisualizer() *)
| CallCreateUI (w : World)     (* createVisualizerUI() *)
| CallCleanup (w : World)      (* cleanupAudioVisualizer() *)
| Tick (w : World).            (* a timer tick of observePlayState *)

Definition runOp {math : JSMath} (op : Op) (s : State) : State :=
  match op with
  | CallInitialize w => final (initializeAudioVisualizer w s)
  | Frame w => final (animate w s)
  | CallUpdate w => final (updateAudioVisualizer w s)
  | CallCreateUI w => final (createVisualizerUI w s)
  | CallCleanup w => final (cleanupAudioVisualizer w s)
  | Tick w => pollTick w s
  end.

Definition runOps {math : JSMath} (ops : list Op) (s : State) : State :=
  fold_left (fun st op => runOp op st) ops s.

(** Consecutive timer ticks, one page answer per tick. *)
Definition pollAll {math : JSMath} (ws : list World) (s : State) : State :=
  fold_left (fun st w => pollTick w st) ws s.

(** Section 4.4 in the spec's words: the observed changes of the play-state
    signal from not playing to playing. *)
Fixpoint risingEdges (before : bool) (signal : list bool) : nat :=
  match signal with
  | [] => 0
  | now :: rest => (if negb before && now then 1 else 0) + risingEdges now rest
  end.

(** A page that plays but shows no media element yet. *)
Definition emptyPage : World := {|
  settings := fiftyBars; playing := true;
  querySelector := fun _ => None; querySelectorAll := fun _ => [];
  contextState := Running; frequencyData := []; context2D := true;
  nextFrame := 1%positive; faults := noFault
|}.

(** ** Further observers of the recorded calls *)

(** The calls of the second [try] block (lines 127-138). *)
Definition isFallbackCall (e : Event) : bool :=
  match e with
  | CaptureStream _ | MozCaptureStream _ | CreateMediaStreamSource _
  | Connect StreamSource _ => true
  | _ => false
  end.

Definition isDisconnect (e : Event) : bool :=
  match e with
  | SourceDisconnect => true
  | _ => false
  end.

Definition fallbackCalls (s : State) : nat := count isFallbackCall (events s).
Definition disconnects (s : State) : nat := count isDisconnect (events s).

(** A relation that is only promised from the states where [g] holds, and
    that keeps [g]. *)
Definition Guarded (g : State -> Prop) (R : State -> State -> Prop)
    (s s' : State) : Prop :=
  g s -> g s' /\ R s s'.

Definition notDisconnect (e : Event) : bool := negb (isDisconnect e).

(** Code that, with no element source recorded, records none and calls no
    [disconnect]. *)
Definition SourceNull : State -> State -> Prop :=
  Guarded (fun s => audioSource s = None) (grows notDisconnect).

(** Calls that paint, schedule or rebuild the surface. *)
Definition uiEvent (e : Event) : bool :=
  match e with
  | ConsoleWarn _ | GetByteFrequencyData | ClearRect _ _ _ _ | FillRect _ _ _ _
  | BeginPath | RoundRect _ _ _ _ _ | Fill | RequestAnimationFrame
  | CancelAnimationFrame _ | CreateElement _ | AppendChild | GetContext2D
  | InsertBefore _ | RemoveContainer => true
  | _ => false
  end.

Definition isGraphCreation (e : Event) : bool :=
  match e with
  | NewAudioContext | CreateAnalyser => true
  | _ => false
  end.

Definition graphCreations (s : State) : nat := count isGraphCreation (events s).

Definition notGraphCreation (e : Event) : bool := negb (isGraphCreation e).

(** Code that, once the context and the analyser exist, keeps them and
    creates neither again. *)
Definition WithGraph : State -> State -> Prop :=
  Guarded (fun s => audioContext s = true /\ isSome (analyser s) = true)
          (grows notGraphCreation).

(** Code that, while a frame is pending ([animationId] set), requests no
    further frame and leaves the pending id alone. *)
Definition WhilePending : State -> State -> Prop :=
  Guarded (fun s => isSome (animationId s) = true) Painting.

(** The operations other than the frame callback itself and the removal of
    the visualizer, which cancels the pending frame. *)
Definition keepsLoop (op : Op) : bool :=
  match op with
  | Frame _ | CallCleanup _ => false
  | _ => true
  end.

(** What holds of the module variables between any two entry points. *)
Definition wellFormed (s : State) : Prop :=
  match analyser s, dataArray s with
  | Some a, Some arr => fftSize a = 512%N /\ List.length arr = 256%nat
  | None, None => True
  | _, _ => False
  end /\
  match canvas s with
  | Some cv =>
      visualizerContainer s = true /\
      cwidth cv = config.width /\ cheight cv = config.height
  | None => canvasContext s = None
  end /\
  isSourceConnected s = isSome (currentAudioElement s) /\
  (isSourceConnected s = true ->
   audioContext s = true /\ isSome (analyser s) = true).

(** Code that keeps a property of the state. *)
Definition Invariant (I : State -> Prop) : State -> State -> Prop :=
  Guarded I (fun _ _ => True).

Definition Sound : State -> State -> Prop := Invariant wellFormed.

(** The context and the analyser exist: what the connection step of the
    acquisition routine starts from. *)
Definition ready (s : State) : Prop :=
  wellFormed s /\ audioContext s = true /\ isSome (analyser s) = true.

Definition Ready : State -> State -> Prop := Invariant ready.

(** Every entry point of the plugin, unloading included. *)
Inductive Action :=
| Run (op : Op)
| Unload (w : World).          (* completeCleanup() *)

Definition runAction {math : JSMath} (a : Action) (s : State) : State :=
  match a with
  | Run op => runOp op s
  | Unload w => final (completeCleanup w s)
  end.

Definition runActions {math : JSMath} (acts : list Action) (s : State) : State :=
  fold_left (fun st a => runAction a st) acts s.

(** [m], run from [s], ends in a state that satisfies [Q] when it completes,
    [Rt] when it returns and [X] when it throws. *)
Definition sat {A} (m : M A) (s : State) (Q : A -> State -> Prop)
    (Rt X : State -> Prop) : Prop :=
  match m s with
  | Normal a s' => Q a s'
  | Return s' => Rt s'
  | Throw _ s' => X s'
  end.

(** ** The timers of observePlayState and the start of the plugin *)

(** Lines 502-515: the plugin state together with the two timers.  The fast
    interval is live or cleared; [slowIntervals] counts the slow intervals
    that have been set. *)
Record Poller := {
  plugin : State;
  fastInterval : bool;
  slowIntervals : nat
}.

(** Lines 470-516: fresh closure variables, both timers' set-up, and the
    immediate first check, whose exception leaves the timers installed. *)
Definition observePlayState {math : JSMath} (w : World) (s : State) : Poller :=
  {| plugin := pollTick w (set_checkCount 0 (set_hasTriedInitialization false s));
     fastInterval := true;
     slowIntervals := 0 |}.

(** Lines 502-510: the callback of the fast interval.  An exception of the
    check ends the callback before the test on [checkCount]. *)
Definition fastTick {math : JSMath} (w : World) (p : Poller) : Poller :=
  if fastInterval p
  then match checkAndInitialize w (plugin p) with
       | Normal _ s1 =>
           if (10 <? checkCount s1)%Z
           then {| plugin := runThen s1; fastInterval := false;
                   slowIntervals := S (slowIntervals p) |}
           else {| plugin := runThen s1; fastInterval := true;
                   slowIntervals := slowIntervals p |}
       | Return s1 | Throw _ s1 =>
           {| plugin := runThen s1; fastInterval := fastInterval p;
              slowIntervals := slowIntervals p |}
       end
  else p.

(** Every slow interval that has been set fires once. *)
Definition slowTick {math : JSMath} (w : World) (p : Poller) : Poller :=
  {| plugin := Nat.iter (slowIntervals p) (pollTick w) (plugin p);
     fastInterval := fastInterval p;
     slowIntervals := slowIntervals p |}.

Inductive TimerEvent :=
| FastFires (w : World)        (* 200 ms have passed *)
| SlowFires (w : World).       (* 2000 ms have passed *)

Definition runTimer {math : JSMath} (ev : TimerEvent) (p : Poller) : Poller :=
  match ev with
  | FastFires w => fastTick w p
  | SlowFires w => slowTick w p
  end.

Definition runTimers {math : JSMath} (evs : list TimerEvent) (p : Poller) : Poller :=
  fold_left (fun q ev => runTimer ev q) evs p.

(** Lines 519-532: [initialize], with the body of its timeout.  When the
    surface or the first frame throws, [observePlayState] is not reached and
    no timer is set. *)
Definition startVisualizer {math : JSMath} (w : World) : M unit :=
  log "Audio Visualizer plugin initializing..." ;;
  log "Starting visualizer..." ;;
  createVisualizerUI w ;;
  animate w.

Definition initialize {math : JSMath} (w : World) (s : State) : Poller :=
  match startVisualizer w s with
  | Normal _ s1 => observePlayState w s1
  | Return s1 | Throw _ s1 =>
      {| plugin := s1; fastInterval := false; slowIntervals := 0 |}
  end.

(** Code that leaves the tick counter alone. *)
Definition SameCount (s s' : State) : Prop := checkCount s' = checkCount s.

(** Code that leaves the phase of the idle wave alone. *)
Definition SameWave (s s' : State) : Prop := waveTime s' = waveTime s.

(** No visualizer is in the page. *)
Definition noSurface (s : State) : Prop :=
  visualizerContainer s = false /\ canvas s = None /\ canvasContext s = None.

(** What [createVisualizerUI] leaves when it completes, by what the page
    offers (lines 183-195). *)
Definition surfaceBuilt (w : World) (s' : State) : Prop :=
  match querySelector w searchFieldSelector with
  | Some searchField =>
      match ancestors searchField with
      | O => noSurface s'
      | S _ =>
          visualizerContainer s' = true /\
          canvas s' = Some {| cwidth := config.width; cheight := config.height |} /\
          isSome (canvasContext s') = context2D w
      end
  | None => noSurface s'
  end.

(** The entry points that never run a frame. *)
Definition paintsNothing (a : Action) : bool :=
  match a with
  | Run (CallUpdate _) | Run (CallCreateUI _) | Run (CallCleanup _) | Unload _ => true
  | _ => false
  end.

(** Whether the frame that starts in [s] paints the idle wave. *)
Definition idleNow (w : World) (s : State) : bool :=
  isSome (canvasContext s) && isSome (canvas s) && negb (audibleNow w s).

(** Calls that build the surface, paint on it or request a frame. *)
Definition isVisible (e : Event) : bool :=
  match e with
  | ClearRect _ _ _ _ | FillRect _ _ _ _ | BeginPath | RoundRect _ _ _ _ _ | Fill
  | RequestAnimationFrame | CreateElement _ | AppendChild | GetContext2D
  | InsertBefore _ => true
  | _ => false
  end.

Definition visibleCalls (s : State) : nat := count isVisible (events s).

(** The visualizer has been removed while the poller holds its
    have-tried flag and no reaction is queued. *)
Definition removedWhileTried (s : State) : Prop :=
  noSurface s /\ hasTriedInitialization s = true /\ thenPending s = false.

(** Frames, removals of the visualizer, and timer ticks that observe
    playback going on. *)
Definition stillPlaying (op : Op) : bool :=
  match op with
  | Frame _ | CallCleanup _ => true
  | Tick w => playing w
  | _ => false
  end.

(** The calls of lines 154-168: resuming the context, building the surface,
    painting, requesting a frame. *)
Definition isShowStep (e : Event) : bool :=
  match e with
  | ContextResume => true
  | _ => isVisible e
  end.

Definition showSteps (s : State) : nat := count isShowStep (events s).

Definition notShowStep (e : Event) : bool := negb (isShowStep e).

(** Code that shows nothing: surface and pending frame as before, none of
    the calls above. *)
Definition Unseen (s s' : State) : Prop :=
  visualizerContainer s' = visualizerContainer s /\
  canvas s' = canvas s /\
  animationId s' = animationId s /\
  grows notShowStep s s'.

(** A page whose lower 128 bins are silent and whose upper 128 are full,
    shown with 98 bars: bar 49 sits on the step. *)
Definition ninetyEightBars : Settings :=
  {| barCount := 98; barColor := "#ffffff"; barRounding := false |}.

Definition steppedBins : list byte := repeat x00 128 ++ repeat xff 128.

Definition steppedWorld : World := worldWith ninetyEightBars true steppedBins noFault.

(** The plugin after it has initialised and painted its first frame there. *)
Definition steppedState : State :=
  final (initializeAudioVisualizer steppedWorld initialState).

(** A call that returned, rather than threw. *)
Definition returned (w : World) (e : Event) : bool := negb (faults w e).

(** Code that swallows no exception: when it completes or returns, every
    call it made into the browser has returned. *)
Definition unswallowed (w : World) {A} (m : M A) : Prop :=
  forall s,
    match m s with
    | Normal _ s' | Return s' => grows (returned w) s s'
    | Throw _ _ => True
    end.

(** * Properties *)

(** ** Recorded calls *)

Lemma count_app p tr tr' : count p (tr ++ tr') = (count p tr + count p tr')%nat.
Proof. unfold count. rewrite filter_app, length_app. reflexivity. Qed.

Lemma count_snoc p tr e :
  count p (tr ++ [e]) = (count p tr + (if p e then 1 else 0))%nat.
Proof. rewrite count_app. unfold count. simpl. destruct (p e); reflexivity. Qed.

Lemma count_none p q evs :
  (forall e, q e = true -> p e = false) ->
  forallb q evs = true -> count p evs = 0%nat.
Proof.
  intros Hpq Hall. unfold count. induction evs as [|e evs IH]; simpl in *.
  - reflexivity.
  - apply andb_prop in Hall as [He Hevs]. rewrite (Hpq e He). auto.
Qed.

Lemma bars_app tr tr' : bars (tr ++ tr') = bars tr ++ bars tr'.
Proof.
  induction tr as [|e tr IH]; simpl; [reflexivity|].
  destruct e; simpl; rewrite ?IH; reflexivity.
Qed.

Lemma grows_refl ok s : grows ok s s.
Proof. exists []. rewrite app_nil_r. auto. Qed.

Lemma grows_trans ok s1 s2 s3 : grows ok s1 s2 -> grows ok s2 s3 -> grows ok s1 s3.
Proof.
  intros [e1 [H1 A1]] [e2 [H2 A2]]. exists (e1 ++ e2). split.
  - rewrite H2, H1, app_assoc. reflexivity.
  - rewrite forallb_app, A1, A2. reflexivity.
Qed.

Lemma grows_weaken (ok ok' : Event -> bool) s s' :
  (forall e, ok e = true -> ok' e = true) -> grows ok s s' -> grows ok' s s'.
Proof.
  intros Himp [evs [Htr Hall]]. exists evs. split; [assumption|].
  rewrite forallb_forall in *. auto.
Qed.

Lemma grows_count ok p s s' :
  (forall e, ok e = true -> p e = false) ->
  grows ok s s' -> count p (events s') = count p (events s).
Proof.
  intros Hpq [evs [Htr Hall]].
  rewrite Htr, count_app, (count_none p ok evs Hpq Hall). apply Nat.add_0_r.
Qed.

(** ** The relations are preorders and are ordered by strength *)

Ltac relax :=
  unfold Background, Quiet, Acquiring, WhileConnected, Connected, Painting,
    KeepsRecord, samePath, sameGraph, sameControl in *.

Lemma Quiet_refl s : Quiet s s.
Proof. relax. repeat split; auto using grows_refl. Qed.

Lemma Quiet_trans s1 s2 s3 : Quiet s1 s2 -> Quiet s2 s3 -> Quiet s1 s3.
Proof.
  relax. intros H1 H2. repeat split; try (eapply grows_trans; [apply H1 | apply H2]);
    (etransitivity; [apply H2 | apply H1]).
Qed.

Lemma Background_refl s : Background s s.
Proof. split; [relax; auto | apply Quiet_refl]. Qed.

Lemma Background_trans s1 s2 s3 :
  Background s1 s2 -> Background s2 s3 -> Background s1 s3.
Proof.
  intros [G1 Q1] [G2 Q2]. split; [|eapply Quiet_trans; eassumption].
  relax. split; (etransitivity; [apply G2 | apply G1]).
Qed.

Lemma Acquiring_refl s : Acquiring s s.
Proof. relax. repeat split; auto using grows_refl. Qed.

Lemma Acquiring_trans s1 s2 s3 : Acquiring s1 s2 -> Acquiring s2 s3 -> Acquiring s1 s3.
Proof.
  relax. intros H1 H2. repeat split; try (eapply grows_trans; [apply H1 | apply H2]);
    (etransitivity; [apply H2 | apply H1]).
Qed.

Lemma Connected_refl s : Connected s s.
Proof. relax. repeat split; auto using grows_refl. Qed.

Lemma Connected_trans s1 s2 s3 : Connected s1 s2 -> Connected s2 s3 -> Connected s1 s3.
Proof.
  relax. intros H1 H2. repeat split; try (eapply grows_trans; [apply H1 | apply H2]);
    (etransitivity; [apply H2 | apply H1]).
Qed.

Lemma Painting_refl s : Painting s s.
Proof. relax. repeat split; auto using grows_refl. Qed.

Lemma Painting_trans s1 s2 s3 : Painting s1 s2 -> Painting s2 s3 -> Painting s1 s3.
Proof.
  relax. intros H1 H2. repeat split; try (eapply grows_trans; [apply H1 | apply H2]);
    (etransitivity; [apply H2 | apply H1]).
Qed.

Lemma KeepsRecord_refl s : KeepsRecord s s.
Proof. relax. auto. Qed.

Lemma KeepsRecord_trans s1 s2 s3 :
  KeepsRecord s1 s2 -> KeepsRecord s2 s3 -> KeepsRecord s1 s3.
Proof. relax. intros [A1 B1] [A2 B2]. split; congruence. Qed.

Lemma WhileConnected_refl s : WhileConnected s s.
Proof. intros _. apply Connected_refl. Qed.

Lemma WhileConnected_trans s1 s2 s3 :
  WhileConnected s1 s2 -> WhileConnected s2 s3 -> WhileConnected s1 s3.
Proof.
  intros H1 H2 Hc. specialize (H1 Hc).
  apply (Connected_trans _ _ _ H1). apply H2.
  destruct H1 as [[Hs _] _]. congruence.
Qed.

Lemma Quiet_KeepsRecord s s' : Quiet s s' -> KeepsRecord s s'.
Proof. relax. tauto. Qed.

Lemma Connected_WhileConnected s s' : Connected s s' -> WhileConnected s s'.
Proof. intros H _. exact H. Qed.

Lemma Background_Quiet s s' : Background s s' -> Quiet s s'.
Proof. intros [_ H]. exact H. Qed.

Lemma Quiet_Acquiring s s' : Quiet s s' -> Acquiring s s'.
Proof.
  intros [_ [Hc Hg]]. split; [assumption|].
  eapply grows_weaken; [|eassumption].
  intros e He. unfold quietEvent in He. apply andb_prop in He. tauto.
Qed.

Lemma Quiet_Connected s s' : Quiet s s' -> Connected s s'.
Proof.
  intros [Hp [_ Hg]]. split; [assumption|].
  eapply grows_weaken; [|eassumption].
  intros e He. unfold quietEvent in He. apply andb_prop in He. tauto.
Qed.

#[export] Instance Quiet_PreOrder : RelationClasses.PreOrder Quiet :=
  {| RelationClasses.PreOrder_Reflexive := Quiet_refl;
     RelationClasses.PreOrder_Transitive := Quiet_trans |}.
#[export] Instance Background_PreOrder : RelationClasses.PreOrder Background :=
  {| RelationClasses.PreOrder_Reflexive := Background_refl;
     RelationClasses.PreOrder_Transitive := Background_trans |}.
#[export] Instance Acquiring_PreOrder : RelationClasses.PreOrder Acquiring :=
  {| RelationClasses.PreOrder_Reflexive := Acquiring_refl;
     RelationClasses.PreOrder_Transitive := Acquiring_trans |}.
#[export] Instance Connected_PreOrder : RelationClasses.PreOrder Connected :=
  {| RelationClasses.PreOrder_Reflexive := Connected_refl;
     RelationClasses.PreOrder_Transitive := Connected_trans |}.

#[export] Instance Painting_PreOrder : RelationClasses.PreOrder Painting :=
  {| RelationClasses.PreOrder_Reflexive := Painting_refl;
     RelationClasses.PreOrder_Transitive := Painting_trans |}.

#[export] Instance KeepsRecord_PreOrder : RelationClasses.PreOrder KeepsRecord :=
  {| RelationClasses.PreOrder_Reflexive := KeepsRecord_refl;
     RelationClasses.PreOrder_Transitive := KeepsRecord_trans |}.
#[export] Instance WhileConnected_PreOrder : RelationClasses.PreOrder WhileConnected :=
  {| RelationClasses.PreOrder_Reflexive := WhileConnected_refl;
     RelationClasses.PreOrder_Transitive := WhileConnected_trans |}.

(** ** Rules: a preorder is respected by a block when its parts respect it *)

Section Rules.

Context {R : State -> State -> Prop} {PR : RelationClasses.PreOrder R}.

Lemma respects_ret {A} (a : A) : respects R (ret a).
Proof. intro s. simpl. reflexivity. Qed.

Lemma respects_get : respects R get.
Proof. intro s. simpl. reflexivity. Qed.

Lemma respects_throw {A} err : respects R (@throw A err).
Proof. intro s. simpl. reflexivity. Qed.

Lemma respects_return {A} : respects R (@return_ A).
Proof. intro s. simpl. reflexivity. Qed.

Lemma respects_modify f : (forall s, R s (f s)) -> respects R (modify f).
Proof. intros Hf s. simpl. apply Hf. Qed.

Lemma respects_bind {A B} (m : M A) (k : A -> M B) :
  respects R m -> (forall a, respects R (k a)) -> respects R (bind m k).
Proof.
  intros Hm Hk s. unfold bind. specialize (Hm s).
  destruct (m s) as [a s1|s1|e s1]; simpl in *; try assumption.
  etransitivity; [exact Hm | apply Hk].
Qed.

Lemma respects_try_catch m h :
  respects R m -> (forall e, respects R (h e)) -> respects R (try_catch m h).
Proof.
  intros Hm Hh s. unfold try_catch. specialize (Hm s).
  destruct (m s) as [a s1|s1|e s1]; simpl in *; try assumption.
  etransitivity; [exact Hm | apply Hh].
Qed.

Lemma respects_call m : respects R m -> respects R (call m).
Proof.
  intros Hm s. unfold call. specialize (Hm s).
  destruct (m s); simpl in *; assumption.
Qed.

Lemma respects_when b m : respects R m -> respects R (when b m).
Proof. intros Hm. destruct b; simpl; [assumption | apply respects_ret]. Qed.

Lemma respects_for_from body :
  (forall i, respects R (body i)) -> forall n i, respects R (for_from i n body).
Proof.
  intros Hb n. induction n as [|n IH]; intro i; simpl.
  - apply respects_ret.
  - apply respects_bind; [apply Hb | intros _; apply IH].
Qed.

Lemma respects_bind_at {A B} (m : M A) (k : A -> M B) s :
  R s (final (m s)) -> (forall a, respects R (k a)) -> R s (final (bind m k s)).
Proof.
  intros Hm Hk. unfold bind.
  destruct (m s) as [a s1|s1|e s1]; simpl in *; try assumption.
  etransitivity; [exact Hm | apply Hk].
Qed.

End Rules.

Lemma respects_weaken (R R' : State -> State -> Prop) {A} (m : M A) :
  (forall s s', R s s' -> R' s s') -> respects R m -> respects R' m.
Proof. intros Himp Hm s. apply Himp, Hm. Qed.

(** Side conditions on single assignments and single events. *)
Ltac frame :=
  intros; relax; unfold grows; simpl;
  repeat match goal with
         | |- context [match ?x with _ => _ end] => destruct x; simpl
         end;
  repeat split; try reflexivity;
  try (exists []; rewrite app_nil_r; split; reflexivity).

Lemma Quiet_emit e : quietEvent e = true -> respects Quiet (emit e).
Proof.
  intros He. apply respects_modify. intro s. relax. simpl. repeat split.
  exists [e]. simpl. rewrite He. auto.
Qed.

Lemma Background_emit e : quietEvent e = true -> respects Background (emit e).
Proof.
  intros He. apply respects_modify. intro s. split; [relax; simpl; auto|].
  relax. simpl. repeat split. exists [e]. simpl. rewrite He. auto.
Qed.

Lemma Acquiring_emit e : initQuiet e = true -> respects Acquiring (emit e).
Proof.
  intros He. apply respects_modify. intro s. relax. simpl. repeat split.
  exists [e]. simpl. rewrite He. auto.
Qed.

Lemma Connected_emit e : connQuiet e = true -> respects Connected (emit e).
Proof.
  intros He. apply respects_modify. intro s. relax. simpl. repeat split.
  exists [e]. simpl. rewrite He. auto.
Qed.

Lemma KeepsRecord_emit e : respects KeepsRecord (emit e).
Proof. apply respects_modify. intro s. relax. simpl. auto. Qed.

Lemma WhileConnected_emit e : connQuiet e = true -> respects WhileConnected (emit e).
Proof.
  intros He. apply respects_modify. intros s _. relax. simpl. repeat split.
  exists [e]. simpl. rewrite He. auto.
Qed.

Lemma Painting_emit e : paintEvent e = true -> respects Painting (emit e).
Proof.
  intros He. apply respects_modify. intro s. relax. simpl. repeat split.
  exists [e]. simpl. rewrite He. auto.
Qed.

Create HintDb respects.

(** Weaker relations are reached from stronger ones. *)
Lemma Background_as_Quiet {A} (m : M A) : respects Background m -> respects Quiet m.
Proof. apply respects_weaken. exact Background_Quiet. Qed.

Lemma Quiet_as_Acquiring {A} (m : M A) : respects Quiet m -> respects Acquiring m.
Proof. apply respects_weaken. exact Quiet_Acquiring. Qed.

Lemma Quiet_as_Connected {A} (m : M A) : respects Quiet m -> respects Connected m.
Proof. apply respects_weaken. exact Quiet_Connected. Qed.

Lemma Quiet_as_KeepsRecord {A} (m : M A) : respects Quiet m -> respects KeepsRecord m.
Proof. apply respects_weaken. exact Quiet_KeepsRecord. Qed.

Lemma Connected_as_WhileConnected {A} (m : M A) :
  respects Connected m -> respects WhileConnected m.
Proof. apply respects_weaken. exact Connected_WhileConnected. Qed.

#[export] Hint Extern 4 (respects Quiet _) => apply Background_as_Quiet : respects.
#[export] Hint Extern 4 (respects Acquiring _) => apply Quiet_as_Acquiring : respects.
#[export] Hint Extern 4 (respects Connected _) => apply Quiet_as_Connected : respects.
#[export] Hint Extern 4 (respects KeepsRecord _) => apply Quiet_as_KeepsRecord : respects.
#[export] Hint Extern 4 (respects WhileConnected _) =>
  apply Connected_as_WhileConnected : respects.

(** One step of a proof that a block respects a relation: known procedures
    by hint, the rest by the rule of the outermost construct. *)
Ltac respect :=
  repeat first
    [ progress intros
    | solve [auto with respects]
    | apply respects_ret | apply respects_get | apply respects_throw
    | apply respects_return
    | match goal with
      | |- respects _ (match ?x with _ => _ end) => destruct x
      | |- respects _ (if ?b then _ else _) => destruct b
      | |- respects _ (log _) => unfold log
      | |- respects _ (warn _) => unfold warn
      | |- respects _ (error _) => unfold error
      | |- respects _ (console_error _) => unfold console_error
      | |- respects _ skip => apply respects_ret
      | |- respects _ (perform _ _) => unfold perform
      | |- respects Quiet (emit _) => apply Quiet_emit; reflexivity
      | |- respects Background (emit _) => apply Background_emit; reflexivity
      | |- respects Acquiring (emit _) => apply Acquiring_emit; reflexivity
      | |- respects Connected (emit _) => apply Connected_emit; reflexivity
      | |- respects Painting (emit _) => apply Painting_emit; reflexivity
      | |- respects KeepsRecord (emit _) => apply KeepsRecord_emit
      | |- respects WhileConnected (emit _) => apply WhileConnected_emit; reflexivity
      | |- respects _ (modify _) => apply respects_modify; solve [frame]
      | |- respects _ (bind _ _) => apply respects_bind
      | |- respects _ (call _) => apply respects_call
      | |- respects _ (try_catch _ _) => apply respects_try_catch
      | |- respects _ (when _ _) => apply respects_when
      | |- respects _ (for_from _ _ _) => apply respects_for_from
      end ].

(** ** The procedures that paint or rebuild the surface *)

Lemma removeVisualizerUI_background w : respects Background (removeVisualizerUI w).
Proof. unfold removeVisualizerUI. respect. Qed.
#[export] Hint Resolve removeVisualizerUI_background : respects.

Lemma createVisualizerUI_background w : respects Background (createVisualizerUI w).
Proof. unfold createVisualizerUI. respect. Qed.
#[export] Hint Resolve createVisualizerUI_background : respects.

Lemma drawRoundedRect_background w x y wd h r :
  respects Background (drawRoundedRect w x y wd h r).
Proof. unfold drawRoundedRect. respect. Qed.
#[export] Hint Resolve drawRoundedRect_background : respects.

Lemma setFillStyle_background c : respects Background (setFillStyle c).
Proof. unfold setFillStyle. respect. Qed.
#[export] Hint Resolve setFillStyle_background : respects.

Lemma drawScrollingWave_background {math : JSMath} w :
  respects Background (drawScrollingWave w).
Proof. unfold drawScrollingWave. respect. Qed.
#[export] Hint Resolve drawScrollingWave_background : respects.

Lemma drawBars_background w : respects Background (drawBars w).
Proof. unfold drawBars. respect. Qed.
#[export] Hint Resolve drawBars_background : respects.

Lemma renderFrame_background {math : JSMath} w cv :
  respects Background (renderFrame w cv).
Proof. unfold renderFrame, drawWaveform, drawCircular. respect. Qed.
#[export] Hint Resolve renderFrame_background : respects.

Lemma animate_background {math : JSMath} w : respects Background (animate w).
Proof. unfold animate. respect. Qed.
#[export] Hint Resolve animate_background : respects.

Lemma drawScrollingWave_painting {math : JSMath} w :
  respects Painting (drawScrollingWave w).
Proof. unfold drawScrollingWave, drawRoundedRect, setFillStyle. respect. Qed.
#[export] Hint Resolve drawScrollingWave_painting : respects.

Lemma drawBars_painting w : respects Painting (drawBars w).
Proof. unfold drawBars, drawRoundedRect, setFillStyle. respect. Qed.
#[export] Hint Resolve drawBars_painting : respects.

Lemma renderFrame_painting {math : JSMath} w cv :
  respects Painting (renderFrame w cv).
Proof. unfold renderFrame, drawWaveform, drawCircular. respect. Qed.

Lemma stopAnimation_background w : respects Background (stopAnimation w).
Proof. unfold stopAnimation. respect. Qed.
#[export] Hint Resolve stopAnimation_background : respects.

Lemma cleanupAudioVisualizer_background w :
  respects Background (cleanupAudioVisualizer w).
Proof. unfold cleanupAudioVisualizer. respect. Qed.
#[export] Hint Resolve cleanupAudioVisualizer_background : respects.

Lemma updateAudioVisualizer_background w :
  respects Background (updateAudioVisualizer w).
Proof.
  intro s. unfold updateAudioVisualizer.
  change (bind get ?k s) with (k s s). cbv beta.
  apply respects_bind_at; [|respect].
  destruct (analyser s) eqn:Han; [|apply Background_refl].
  split; relax; unfold grows; simpl; rewrite ?Han; repeat split;
    exists []; rewrite app_nil_r; auto.
Qed.
#[export] Hint Resolve updateAudioVisualizer_background : respects.

Lemma resumeAndShow_background {math : JSMath} w :
  respects Background (resumeAndShow w).
Proof. unfold resumeAndShow. respect. Qed.
#[export] Hint Resolve resumeAndShow_background : respects.

(** ** The acquisition routine *)

Lemma ensureAudioGraph_quiet w : respects Quiet (ensureAudioGraph w).
Proof. unfold ensureAudioGraph. respect. Qed.
#[export] Hint Resolve ensureAudioGraph_quiet : respects.

Lemma directTap_acquiring w el : respects Acquiring (directTap w el).
Proof. unfold directTap. respect. Qed.
#[export] Hint Resolve directTap_acquiring : respects.

Lemma captureAny_acquiring w el : respects Acquiring (captureAny w el).
Proof. unfold captureAny. respect. Qed.
#[export] Hint Resolve captureAny_acquiring : respects.

Lemma streamTap_acquiring w el : respects Acquiring (streamTap w el).
Proof. unfold streamTap. respect. Qed.
#[export] Hint Resolve streamTap_acquiring : respects.

Lemma attemptConnection_acquiring w el : respects Acquiring (attemptConnection w el).
Proof. unfold attemptConnection. respect. Qed.
#[export] Hint Resolve attemptConnection_acquiring : respects.

Lemma initializeAudioVisualizer_acquiring {math : JSMath} w :
  respects Acquiring (initializeAudioVisualizer w).
Proof. unfold initializeAudioVisualizer. respect. Qed.
#[export] Hint Resolve initializeAudioVisualizer_acquiring : respects.

(** ** The silence classifier *)

Lemma reduce_total (arr : list byte) (acc : Q) :
  fold_left (fun sum val => sum + byteQ val) arr acc == acc + inject_Z (binTotal arr).
Proof.
  revert acc. induction arr as [|b arr IH]; intro acc; simpl.
  - ring.
  - rewrite IH. unfold byteQ, num. rewrite inject_Z_plus. ring.
Qed.

Lemma avgVolume_mean (arr : list byte) : avgVolume arr == arithmeticMean arr.
Proof.
  unfold avgVolume, arithmeticMean. rewrite reduce_total.
  apply Qdiv_comp; [ring | reflexivity].
Qed.

Lemma isSilent_iff (arr : list byte) : isSilent arr = true <-> arithmeticMean arr <= 5.
Proof.
  unfold isSilent, hasRealAudio. rewrite negb_involutive, Qle_bool_iff.
  rewrite avgVolume_mean. reflexivity.
Qed.

Lemma binTotal_zero (arr : list byte) :
  Forall (fun b => b = x00) arr -> binTotal arr = 0%Z.
Proof.
  induction 1 as [|b arr Hb _ IH]; simpl; [reflexivity|].
  rewrite Hb, IH. reflexivity.
Qed.

(** C4. The classifier takes the arithmetic mean of the bins and answers
    "silent" exactly when that mean is at most 5; a snapshot of zeros is
    silent and a snapshot whose mean is 200 is not. *)
Theorem silence_threshold (arr : list byte) :
  (isSilent arr = true <-> arithmeticMean arr <= 5) /\
  (Forall (fun b => b = x00) arr -> isSilent arr = true) /\
  (arithmeticMean arr == 200 -> isSilent arr = false).
Proof.
  split; [apply isSilent_iff|]. split.
  - intro Hz. apply isSilent_iff. unfold arithmeticMean.
    rewrite (binTotal_zero arr Hz). unfold Qdiv. rewrite Qmult_0_l. discriminate.
  - intro Hm. destruct (isSilent arr) eqn:Hs; [|reflexivity].
    apply isSilent_iff in Hs. rewrite Hm in Hs. exfalso. revert Hs. apply Qlt_not_le.
    reflexivity.
Qed.

Lemma silence_threshold_witness :
  isSilent (repeat x00 256) = true /\ isSilent (repeat xc8 256) = false.
Proof.
  split.
  - apply (proj1 (proj2 (silence_threshold (repeat x00 256)))).
    apply Forall_forall. intros b Hb. apply repeat_spec in Hb. exact Hb.
  - apply (proj2 (proj2 (silence_threshold (repeat xc8 256)))).
    vm_compute. reflexivity.
Defined.

(** ** Inversion of normal completions *)

Lemma bind_normal {A B} (m : M A) (k : A -> M B) s b s' :
  bind m k s = Normal b s' ->
  exists a s1, m s = Normal a s1 /\ k a s1 = Normal b s'.
Proof.
  unfold bind. destruct (m s) as [a s1|s1|e s1]; try discriminate.
  intro H. exists a, s1. auto.
Qed.

Lemma call_normal m s s' :
  call m s = Normal tt s' -> m s = Normal tt s' \/ m s = Return s'.
Proof.
  unfold call. destruct (m s) as [[] s1|s1|e s1]; intro H; inversion H; auto.
Qed.

Lemma set_events_nil s : set_events (events s ++ []) s = s.
Proof. destruct s; unfold set_events; simpl. rewrite app_nil_r. reflexivity. Qed.

Lemma perform_normal w e s s' :
  perform w e s = Normal tt s' ->
  faults w e = false /\ s' = set_events (events s ++ [e]) s.
Proof.
  unfold perform, emit, modify, bind, throw, skip, ret.
  destruct (faults w e); intro H; inversion H; auto.
Qed.

(** ** What a loop of bars paints *)

Lemma paint_normal w (rounded : bool) x y wd h s s' :
  (if rounded then drawRoundedRect w x y wd h 2 else perform w (FillRect x y wd h)) s
    = Normal tt s' ->
  exists evs, s' = set_events (events s ++ evs) s /\ bars evs = [(x, y, wd, h)].
Proof.
  destruct rounded.
  - unfold drawRoundedRect. intro H.
    apply bind_normal in H as [[] [s1 [H1 H]]].
    apply bind_normal in H as [[] [s2 [H2 H3]]].
    apply perform_normal in H1 as [_ ->].
    apply perform_normal in H2 as [_ ->].
    apply perform_normal in H3 as [_ ->].
    exists [BeginPath; RoundRect x y wd h 2; Fill]. split; [|reflexivity].
    unfold set_events; simpl. rewrite <- !app_assoc. reflexivity.
  - intro H. apply perform_normal in H as [_ ->].
    exists [FillRect x y wd h]. split; reflexivity.
Qed.

Lemma for_from_paint w (rounded : bool) (fx fy fw fh : nat -> Q) n :
  forall i s s',
    for_from i n
      (fun j => if rounded
                then drawRoundedRect w (fx j) (fy j) (fw j) (fh j) 2
                else perform w (FillRect (fx j) (fy j) (fw j) (fh j))) s
      = Normal tt s' ->
    exists evs, s' = set_events (events s ++ evs) s /\
                bars evs = map (fun j => (fx j, fy j, fw j, fh j)) (seq i n).
Proof.
  induction n as [|n IH]; intros i s s' H; simpl in H.
  - inversion H; subst. exists []. split; [symmetry; apply set_events_nil | reflexivity].
  - apply bind_normal in H as [[] [s1 [H1 H2]]].
    apply paint_normal in H1 as [e1 [-> Hb1]].
    apply IH in H2 as [e2 [-> Hb2]].
    exists (e1 ++ e2). split.
    + unfold set_events; simpl. rewrite app_assoc. reflexivity.
    + rewrite bars_app, Hb1, Hb2. reflexivity.
Qed.

(** ** Blocks that contain no [return] *)

Lemma straight_ret {A} (a : A) : straight (ret a).
Proof. intros s s'. discriminate. Qed.

Lemma straight_get : straight get.
Proof. intros s s'. discriminate. Qed.

Lemma straight_throw {A} e : straight (@throw A e).
Proof. intros s s'. discriminate. Qed.

Lemma straight_modify f : straight (modify f).
Proof. intros s s'. discriminate. Qed.

Lemma straight_bind {A B} (m : M A) (k : A -> M B) :
  straight m -> (forall a, straight (k a)) -> straight (bind m k).
Proof.
  intros Hm Hk s s'. unfold bind. specialize (Hm s).
  destruct (m s) as [a s1|s1|e s1]; [apply Hk | intro; eapply Hm; reflexivity | discriminate].
Qed.

Lemma straight_call m : straight (call m).
Proof. intros s s'. unfold call. destruct (m s); discriminate. Qed.

Lemma straight_when b m : straight m -> straight (when b m).
Proof. intros Hm. destruct b; [exact Hm | apply straight_ret]. Qed.

Lemma straight_for_from body :
  (forall i, straight (body i)) -> forall n i, straight (for_from i n body).
Proof.
  intros Hb n. induction n as [|n IH]; intro i; simpl.
  - apply straight_ret.
  - apply straight_bind; [apply Hb | intros _; apply IH].
Qed.

Ltac straighten :=
  repeat first
    [ progress intros
    | apply straight_ret | apply straight_get | apply straight_throw
    | apply straight_modify | apply straight_call
    | match goal with
      | |- straight (match ?x with _ => _ end) => destruct x
      | |- straight (if ?b then _ else _) => destruct b
      | |- straight skip => apply straight_ret
      | |- straight (log _) => apply straight_modify
      | |- straight (console_error _) => apply straight_modify
      | |- straight (emit _) => apply straight_modify
      | |- straight (perform _ _) => unfold perform
      | |- straight (drawRoundedRect _ _ _ _ _ _) => unfold drawRoundedRect
      | |- straight (setFillStyle _) => apply straight_modify
      | |- straight (bind _ _) => apply straight_bind
      | |- straight (when _ _) => apply straight_when
      | |- straight (for_from _ _ _) => apply straight_for_from
      end ].

Lemma call_straight m s s' :
  straight m -> call m s = Normal tt s' -> m s = Normal tt s'.
Proof.
  intros Hm H. apply call_normal in H as [H|H]; [exact H | elim (Hm _ _ H)].
Qed.

(** ** Blocks that do not throw when no call into the browser does *)

Lemma calm_ret {A} (a : A) : calm (ret a).
Proof. intros s e s'. discriminate. Qed.

Lemma calm_get : calm get.
Proof. intros s e s'. discriminate. Qed.

Lemma calm_return {A} : calm (@return_ A).
Proof. intros s e s'. discriminate. Qed.

Lemma calm_modify f : calm (modify f).
Proof. intros s e s'. discriminate. Qed.

Lemma calm_bind {A B} (m : M A) (k : A -> M B) :
  calm m -> (forall a, calm (k a)) -> calm (bind m k).
Proof.
  intros Hm Hk s e s'. unfold bind. specialize (Hm s).
  destruct (m s) as [a s1|s1|e1 s1]; [apply Hk | discriminate |].
  intro H. inversion H; subst. eapply Hm. reflexivity.
Qed.

Lemma calm_call m : calm m -> calm (call m).
Proof.
  intros Hm s e s'. unfold call. specialize (Hm s).
  destruct (m s) as [a s1|s1|e1 s1]; try discriminate.
  intro H. inversion H; subst. eapply Hm. reflexivity.
Qed.

Lemma calm_when b m : calm m -> calm (when b m).
Proof. intros Hm. destruct b; [exact Hm | apply calm_ret]. Qed.

Lemma calm_for_from body :
  (forall i, calm (body i)) -> forall n i, calm (for_from i n body).
Proof.
  intros Hb n. induction n as [|n IH]; intro i; simpl.
  - apply calm_ret.
  - apply calm_bind; [apply Hb | intros _; apply IH].
Qed.

Lemma calm_perform w e : faults w e = false -> calm (perform w e).
Proof.
  intros Hf s e' s'. unfold perform, bind, emit, modify. rewrite Hf. discriminate.
Qed.

Ltac calm_down Hfaults :=
  repeat first
    [ progress intros
    | apply calm_ret | apply calm_get | apply calm_return | apply calm_modify
    | match goal with
      | |- calm (match ?x with _ => _ end) => destruct x
      | |- calm (if ?b then _ else _) => destruct b
      | |- calm skip => apply calm_ret
      | |- calm (log _) => apply calm_modify
      | |- calm (warn _) => apply calm_modify
      | |- calm (emit _) => apply calm_modify
      | |- calm (setFillStyle _) => apply calm_modify
      | |- calm (perform _ _) => apply calm_perform; apply Hfaults
      | |- calm (drawRoundedRect _ _ _ _ _ _) => unfold drawRoundedRect
      | |- calm (bind _ _) => apply calm_bind
      | |- calm (call _) => apply calm_call
      | |- calm (when _ _) => apply calm_when
      | |- calm (for_from _ _ _) => apply calm_for_from
      end ].

Lemma completes {A} (m : M A) s :
  straight m -> calm m -> exists a s', m s = Normal a s'.
Proof.
  intros Hs Hc. destruct (m s) as [a s1|s1|e s1] eqn:Hrun.
  - exists a, s1. reflexivity.
  - elim (Hs _ _ Hrun).
  - elim (Hc _ _ _ Hrun).
Qed.

Lemma drawBars_calm w : (forall e, faults w e = false) -> calm (drawBars w).
Proof. intro Hf. unfold drawBars. calm_down Hf. Qed.

Lemma drawScrollingWave_calm {math : JSMath} w :
  (forall e, faults w e = false) -> calm (drawScrollingWave w).
Proof. intro Hf. unfold drawScrollingWave. calm_down Hf. Qed.

Lemma animate_calm {math : JSMath} w :
  (forall e, faults w e = false) -> calm (animate w).
Proof.
  intro Hf. unfold animate, renderFrame.
  change config.visualizerType with Bars. cbv iota.
  pose proof (drawBars_calm w Hf). pose proof (drawScrollingWave_calm w Hf).
  repeat first [ assumption | progress calm_down Hf ].
Qed.

Lemma drawBars_normal w s s' ctx arr cv :
  canvasContext s = Some ctx -> dataArray s = Some arr -> canvas s = Some cv ->
  drawBars w s = Normal tt s' ->
  exists evs,
    s' = set_events (events s ++ evs)
           (set_canvasContext
              (Some {| fillStyle := barColor (settings w);
                       strokeStyle := strokeStyle ctx |}) s) /\
    bars evs = map (barRect w arr cv) (seq 0 (Z.to_nat (barCount (settings w)))).
Proof.
  intros Hctx Harr Hcv H. unfold drawBars in H.
  apply call_normal in H.
  destruct H as [H|H]; unfold bind at 1, get in H; rewrite Hctx, Harr, Hcv in H;
    [|exfalso; revert H; apply straight_bind; straighten].
  apply bind_normal in H as [[] [s1 [H1 H2]]].
  unfold setFillStyle, modify in H1. rewrite Hctx in H1. inversion H1; subst s1; clear H1.
  apply for_from_paint in H2 as [evs [-> Hb]].
  exists evs. split; [reflexivity | exact Hb].
Qed.

Lemma drawScrollingWave_normal {math : JSMath} w s s' ctx cv :
  canvasContext s = Some ctx -> canvas s = Some cv ->
  drawScrollingWave w s = Normal tt s' ->
  exists evs,
    s' = set_events (events s ++ evs)
           (set_canvasContext
              (Some {| fillStyle := barColor (settings w);
                       strokeStyle := strokeStyle ctx |})
              (set_waveTime (waveTime s + 0.05) s)) /\
    bars evs = map (waveRect w cv (waveTime s + 0.05))
                   (seq 0 (Z.to_nat (barCount (settings w)))).
Proof.
  intros Hctx Hcv H. unfold drawScrollingWave in H.
  apply call_normal in H.
  destruct H as [H|H]; unfold bind at 1, get in H; rewrite Hctx, Hcv in H;
    [|exfalso; revert H; apply straight_bind; straighten].
  apply bind_normal in H as [[] [s1 [H1 H]]].
  inversion H1; subst s1; clear H1.
  apply bind_normal in H as [[] [s2 [H2 H]]].
  unfold setFillStyle, modify in H2. simpl in H2. rewrite Hctx in H2.
  inversion H2; subst s2; clear H2.
  apply bind_normal in H as [s3 [s4 [H3 H]]].
  inversion H3; subst s3 s4; clear H3.
  apply for_from_paint in H as [evs [-> Hb]].
  exists evs. split; [reflexivity | exact Hb].
Qed.

(** ** Bars mode *)

Lemma inject_Z_pos (n : Z) : (0 < n)%Z -> 0 < inject_Z n.
Proof. intro H. unfold Qlt. simpl. lia. Qed.

Lemma Qnat_nonneg (i : nat) : 0 <= Qnat i.
Proof. unfold Qnat, Qle. simpl. lia. Qed.

Lemma num_nonneg (n : N) : 0 <= num n.
Proof. unfold num, Qle. simpl. lia. Qed.

Lemma byteQ_nonneg (b : byte) : 0 <= byteQ b.
Proof. apply num_nonneg. Qed.

(** *** Rounding to a double

    The rounded number is within half a unit in the last place of the exact
    one. *)

Lemma nearestEven_close (x : Q) :
  x - (1 # 2) <= inject_Z (nearestEven x) <= x + (1 # 2).
Proof.
  unfold nearestEven.
  pose proof (Qfloor_le x) as Hlo. pose proof (Qlt_floor x) as Hhi.
  rewrite inject_Z_plus in Hhi. change (inject_Z 1) with 1 in Hhi.
  destruct (Qcompare_spec (x - inject_Z (Qfloor x)) (1 # 2)) as [He|Hl|Hg].
  - destruct (Z.even (Qfloor x)).
    + split; lra.
    + rewrite inject_Z_plus. change (inject_Z 1) with 1. split; lra.
  - split; lra.
  - rewrite inject_Z_plus. change (inject_Z 1) with 1. split; lra.
Qed.

Lemma two_pow_pos (e : Z) : 0 < 2 ^ e.
Proof. apply Qpower_0_lt. reflexivity. Qed.

Lemma two_pow_Z (e : Z) : (0 <= e)%Z -> 2 ^ e == inject_Z (2 ^ e).
Proof. intro H. rewrite Zpower_Qpower by exact H. reflexivity. Qed.

(** The binade of a positive number holds it. *)
Lemma binade_spec (q : Q) : 0 < q -> 2 ^ binade q <= q < 2 ^ (binade q + 1).
Proof.
  intro Hq. unfold binade.
  destruct q as [a b]. simpl Qnum. simpl Qden.
  assert (Ha : (0 < a)%Z) by (unfold Qlt in Hq; simpl in Hq; lia).
  destruct (Z.log2_spec a Ha) as [La Ua].
  destruct (Z.log2_spec (Zpos b) (Pos2Z.is_pos b)) as [Lb Ub].
  pose proof (Z.log2_nonneg a) as Na. pose proof (Z.log2_nonneg (Zpos b)) as Nb.
  set (la := Z.log2 a) in *. set (lb := Z.log2 (Zpos b)) in *.
  assert (Hpa : (0 < 2 ^ la)%Z) by (apply Z.pow_pos_nonneg; lia).
  assert (Hpb : (0 < 2 ^ lb)%Z) by (apply Z.pow_pos_nonneg; lia).
  assert (P : forall x y : Z, (0 <= x)%Z -> (0 <= y)%Z ->
              2 ^ (x - y) == inject_Z (2 ^ x) / inject_Z (2 ^ y)).
  { intros x y Hx Hy. rewrite Qpower_minus by (intro E; discriminate E).
    rewrite !two_pow_Z by assumption. reflexivity. }
  assert (Hlow : 2 ^ (la - lb - 1) <= a # b).
  { replace (la - lb - 1)%Z with (la - (lb + 1))%Z by lia.
    rewrite P by lia.
    apply Qle_shift_div_r.
    - unfold Qlt. simpl. rewrite Z.mul_1_r. apply Z.pow_pos_nonneg; lia.
    - unfold Qle, Qmult, inject_Z. simpl. rewrite !Z.mul_1_r.
      unfold Z.succ in *. rewrite Pos.mul_1_r.
      assert (Hpb1 : (0 < 2 ^ (lb + 1))%Z) by (apply Z.pow_pos_nonneg; lia).
      nia. }
  assert (Hhigh : a # b < 2 ^ (la - lb + 1)).
  { replace (la - lb + 1)%Z with ((la + 1) - lb)%Z by lia.
    rewrite P by lia.
    apply Qlt_shift_div_l.
    - unfold Qlt. simpl. rewrite Z.mul_1_r. exact Hpb.
    - unfold Qlt, Qmult, inject_Z. simpl. rewrite !Z.mul_1_r.
      unfold Z.succ in *. rewrite ?Pos.mul_1_r.
      assert (Hpa1 : (0 < 2 ^ (la + 1))%Z) by (apply Z.pow_pos_nonneg; lia).
      nia. }
  destruct (Qle_bool (2 ^ (la - lb)) (a # b)) eqn:Ht.
  - apply Qle_bool_iff in Ht. split; assumption.
  - assert (Hn : ~ 2 ^ (la - lb) <= a # b).
    { intro H. apply Qle_bool_iff in H. congruence. }
    apply Qnot_le_lt in Hn. split; [exact Hlow|].
    replace (la - lb - 1 + 1)%Z with (la - lb)%Z by lia. exact Hn.
Qed.

Lemma roundPositive_close (q : Q) :
  0 < q -> q * (1 - halfUlp) <= roundPositive q <= q * (1 + halfUlp).
Proof.
  intro Hq. unfold roundPositive.
  destruct (binade_spec q Hq) as [Hlow _].
  set (e := binade q) in *.
  assert (Hu : 2 ^ (e - 52) == 2 ^ e * (1 # 4503599627370496)).
  { replace (e - 52)%Z with (e + (-52))%Z by lia.
    rewrite Qpower_plus by (intro E; discriminate E). reflexivity. }
  pose proof (two_pow_pos (e - 52)) as Hpos.
  set (u := 2 ^ (e - 52)) in *.
  pose proof (nearestEven_close (q / u)) as [Rl Rh].
  set (R := inject_Z (nearestEven (q / u))) in *.
  assert (Hx : q / u * u == q) by (field; intro E; rewrite E in Hpos; discriminate Hpos).
  set (x := q / u) in *.
  assert (H1 : (x - (1 # 2)) * u <= R * u) by (apply Qmult_le_compat_r; lra).
  assert (H2 : R * u <= (x + (1 # 2)) * u) by (apply Qmult_le_compat_r; lra).
  assert (Hub : u <= q * (1 # 4503599627370496)).
  { rewrite Hu. apply Qmult_le_compat_r; [exact Hlow | discriminate]. }
  unfold halfUlp.
  clearbody x R u. clear - Hx H1 H2 Hub.
  split; lra.
Qed.

Lemma roundDouble_close (q : Q) :
  0 < q -> q * (1 - halfUlp) <= roundDouble q <= q * (1 + halfUlp).
Proof.
  intro Hq. unfold roundDouble.
  destruct q as [[|a|a] b]; try (unfold Qlt in Hq; simpl in Hq; lia).
  simpl Qnum. cbv iota. apply roundPositive_close. exact Hq.
Qed.

Lemma roundDouble_nonneg (q : Q) : 0 <= q -> 0 <= roundDouble q.
Proof.
  intro Hq. destruct q as [[|a|a] b].
  - unfold roundDouble. simpl. apply Qle_refl.
  - assert (H : 0 < Z.pos a # b) by reflexivity.
    destruct (roundDouble_close _ H) as [L _].
    eapply Qle_trans; [|exact L].
    apply Qmult_le_0_compat; [exact Hq | unfold halfUlp; lra].
  - unfold Qle in Hq. simpl in Hq. lia.
Qed.

(** The index the code computes against the floor of the exact quotient. *)
Lemma dataIndex_exact (arr : list byte) (n : Z) (i : nat) :
  (1 <= n)%Z -> (i < Z.to_nat n)%nat -> arr <> [] ->
  (n * Z.of_nat (List.length arr) <= 2 ^ 50)%Z ->
  let exact := Qfloor (Qnat i * (Qnat (List.length arr) / inject_Z n)) in
  (exact - 1 <= dataIndex arr n i <= exact)%Z /\
  ((Z.of_nat i * Z.of_nat (List.length arr)) mod n <> 0 -> dataIndex arr n i = exact)%Z /\
  (0 <= dataIndex arr n i < Z.of_nat (List.length arr))%Z.
Proof.
  intros Hn Hi Harr Hsmall exact.
  assert (HL : (1 <= Z.of_nat (List.length arr))%Z).
  { destruct arr; [contradiction | simpl List.length; lia]. }
  set (L := Z.of_nat (List.length arr)) in *.
  set (I := Z.of_nat i).
  assert (HI : (0 <= I < n)%Z) by (unfold I; lia).
  (* the exact quotient, in whole numbers *)
  pose proof (Z.div_mod (I * L) n ltac:(lia)) as Hdm.
  pose proof (Z.mod_pos_bound (I * L) n ltac:(lia)) as Hr.
  set (k := (I * L / n)%Z) in *. set (r := ((I * L) mod n)%Z) in *.
  assert (Hexact : exact = k).
  { unfold exact, k. rewrite Zdiv_Qdiv. apply Qfloor_comp.
    unfold Qnat. fold L. fold I. rewrite inject_Z_mult. field.
    intro E. assert (0 < inject_Z n) by (apply inject_Z_pos; lia).
    rewrite E in H. discriminate H. }
  assert (Hk : (0 <= k < L)%Z).
  { unfold k. split; [apply Z.div_pos; nia|].
    apply Z.div_lt_upper_bound; nia. }
  (* the same in Q *)
  assert (HN : 0 < inject_Z n) by (apply inject_Z_pos; lia).
  assert (HN0 : ~ inject_Z n == 0) by (intro E; rewrite E in HN; discriminate HN).
  set (c := Qnat (List.length arr) / inject_Z n).
  set (q := Qnat i * c).
  assert (Hq : q == inject_Z k + inject_Z r / inject_Z n).
  { unfold q, c, Qnat. fold L. fold I.
    assert (E : inject_Z I * inject_Z L == inject_Z n * inject_Z k + inject_Z r).
    { rewrite <- !inject_Z_mult, <- inject_Z_plus. rewrite <- Hdm. reflexivity. }
    field_simplify_eq; [|exact HN0]. rewrite E. ring. }
  assert (Hinv : 0 < / inject_Z n) by (apply Qinv_lt_0_compat; exact HN).
  assert (Hrho : 0 <= inject_Z r / inject_Z n <= 1 - / inject_Z n).
  { split.
    - apply Qle_shift_div_l; [exact HN|]. rewrite Qmult_0_l.
      unfold Qle; simpl; lia.
    - apply Qle_shift_div_r; [exact HN|].
      assert (E : (1 - / inject_Z n) * inject_Z n == inject_Z n - 1) by (field; exact HN0).
      rewrite E. unfold Qle; simpl; lia. }
  assert (Hrho1 : (r <> 0)%Z -> / inject_Z n <= inject_Z r / inject_Z n).
  { intro Hr0. apply Qle_shift_div_l; [exact HN|].
    assert (E : / inject_Z n * inject_Z n == 1) by (field; exact HN0).
    rewrite E. unfold Qle; simpl; lia. }
  (* the accumulated rounding error is below 1/n *)
  set (delta := Qnat (List.length arr) * (3 * halfUlp)).
  assert (Hdelta : delta < / inject_Z n).
  { unfold delta.
    assert (E : / inject_Z n == 1 / inject_Z n) by (field; exact HN0).
    rewrite E. apply Qlt_shift_div_l; [exact HN|].
    assert (Hb : inject_Z n * Qnat (List.length arr) <= inject_Z (2 ^ 50)).
    { unfold Qnat. fold L. rewrite <- inject_Z_mult, <- Zle_Qle. exact Hsmall. }
    change (inject_Z (2 ^ 50)) with 1125899906842624 in Hb.
    unfold halfUlp.
    set (X := inject_Z n * Qnat (List.length arr)) in *.
    assert (EX : Qnat (List.length arr) * (3 * (1 # 9007199254740992)) * inject_Z n
                 == X * (3 # 9007199254740992)) by (unfold X; ring).
    rewrite EX. clearbody X. lra. }
  assert (HLq : q <= Qnat (List.length arr)).
  { rewrite Hq. unfold Qnat. fold L.
    apply Qle_trans with (inject_Z k + 1); [lra|].
    unfold Qle; simpl; lia. }
  assert (Hq0 : 0 <= q).
  { rewrite Hq. assert (0 <= inject_Z k) by (unfold Qle; simpl; lia). lra. }
  (* the double computation *)
  assert (Hc : 0 < c).
  { unfold c. apply Qlt_shift_div_l; [exact HN|]. rewrite Qmult_0_l.
    apply inject_Z_pos. fold L. lia. }
  pose proof (roundDouble_close c Hc) as [Dl Dh]. fold (fdiv (Qnat (List.length arr)) (inject_Z n)) in Dl, Dh.
  set (d := fdiv (Qnat (List.length arr)) (inject_Z n)) in *.
  assert (Hf : q - delta <= fmul (Qnat i) d <= q + delta /\ 0 <= fmul (Qnat i) d).
  { destruct (Z.eq_dec I 0) as [E0|E0].
    - assert (i = 0%nat) by (unfold I in E0; lia). subst i.
      assert (Ez : fmul (Qnat 0) d = 0).
      { unfold fmul, roundDouble. destruct d as [dn dd]. reflexivity. }
      rewrite Ez.
      assert (Hq00 : q == 0) by (unfold q, Qnat; simpl; ring).
      assert (Hd0 : 0 <= delta).
      { unfold delta. apply Qmult_le_0_compat; [|unfold halfUlp; lra].
        unfold Qnat. fold L. unfold Qle; simpl; lia. }
      clearbody q delta. clear - Hq00 Hd0.
      split; [split|]; lra.
    - assert (Hi0 : 0 < Qnat i) by (apply inject_Z_pos; fold I; lia).
      assert (Pl : Qnat i * (c * (1 - halfUlp)) <= Qnat i * d).
      { rewrite !(Qmult_comm (Qnat i)).
        apply Qmult_le_compat_r; [exact Dl | apply Qlt_le_weak; exact Hi0]. }
      assert (Ph : Qnat i * d <= Qnat i * (c * (1 + halfUlp))).
      { rewrite !(Qmult_comm (Qnat i)).
        apply Qmult_le_compat_r; [exact Dh | apply Qlt_le_weak; exact Hi0]. }
      assert (Hp : 0 < Qnat i * d).
      { eapply Qlt_le_trans; [|exact Pl].
        apply Qmult_lt_0_compat; [exact Hi0|].
        apply Qmult_lt_0_compat; [exact Hc | unfold halfUlp; reflexivity]. }
      pose proof (roundDouble_close _ Hp) as [Fl Fh].
      fold (fmul (Qnat i) d) in Fl, Fh.
      assert (Eq1 : Qnat i * (c * (1 - halfUlp)) == q * (1 - halfUlp)) by (unfold q; ring).
      assert (Eq2 : Qnat i * (c * (1 + halfUlp)) == q * (1 + halfUlp)) by (unfold q; ring).
      rewrite Eq1 in Pl. rewrite Eq2 in Ph.
      unfold delta, halfUlp in *.
      set (f := fmul (Qnat i) d) in *. set (p := Qnat i * d) in *.
      set (Lq := Qnat (List.length arr)) in *.
      clearbody f p q Lq. clear - Pl Ph Fl Fh HLq Hq0.
      split; [split|]; lra. }
  destruct Hf as [[Fl Fh] F0].
  set (f := fmul (Qnat i) d) in *.
  assert (Hup : (Qfloor f <= k)%Z).
  { assert (f < inject_Z (k + 1)).
    { rewrite inject_Z_plus. change (inject_Z 1) with 1. lra. }
    pose proof (Qfloor_le f) as Hfl.
    assert (Hlt : inject_Z (Qfloor f) < inject_Z (k + 1)) by (eapply Qle_lt_trans; eassumption).
    rewrite <- Zlt_Qlt in Hlt. lia. }
  assert (Hdn : (k - 1 <= Qfloor f)%Z).
  { assert (Hle : inject_Z (k - 1) <= f).
    { assert (Ek : inject_Z (k - 1) == inject_Z k - 1) by (unfold Qeq; simpl; lia).
      rewrite Ek.
      assert (/ inject_Z n <= 1).
      { assert (E : / inject_Z n == 1 / inject_Z n) by (field; exact HN0).
        rewrite E. apply Qle_shift_div_r; [exact HN|]. rewrite Qmult_1_l.
        unfold Qle; simpl; lia. }
      lra. }
    apply Qfloor_resp_le in Hle. rewrite Qfloor_Z in Hle. exact Hle. }
  unfold dataIndex. fold d. fold f. rewrite Hexact.
  split; [lia|]. split.
  - intro Hr0. fold r in Hr0. specialize (Hrho1 Hr0).
    assert (Hle : inject_Z k <= f) by lra.
    apply Qfloor_resp_le in Hle. rewrite Qfloor_Z in Hle. lia.
  - split; [|lia].
    apply Qfloor_resp_le in F0. change (Qfloor 0) with 0%Z in F0. exact F0.
Qed.

(** Every bar reads a bin that exists. *)
Lemma dataIndex_in_range (arr : list byte) (n : Z) (i : nat) :
  (1 <= n)%Z -> (i < Z.to_nat n)%nat -> arr <> [] ->
  (n * Z.of_nat (List.length arr) <= 2 ^ 50)%Z ->
  (0 <= dataIndex arr n i)%Z /\ (Z.to_nat (dataIndex arr n i) < List.length arr)%nat.
Proof.
  intros Hn Hi Harr Hsmall.
  destruct (dataIndex_exact arr n i Hn Hi Harr Hsmall) as [_ [_ [H0 H1]]].
  split; [exact H0 | lia].
Qed.

(** C5, as the code has it.  In bars mode bar [i] has height
    [snapshot[k] * sensitivity * (height / 255)], painted width
    [width / barCount - 1] and starts at [i * (width / barCount)], where [k]
    is the floor of the product [i * (bins / barCount)] as the doubles
    compute it.  That [k] is [floor(i * bins / barCount)] whenever the exact
    quotient is not a whole number; when it is, [k] is that number or one
    less (98 bars, [i = 49]: 127, not 128).  With 50 bars and 256 bins [k] is
    the exact floor for every bar; with 50 bars on a 200 pixel surface every
    painted bar is 3 pixels wide, bar [i] starts at [4 i], the first at 0 and
    the slot of the last ends at 200.  The call completes whenever the
    canvas does not throw. *)
Theorem bars_geometry (w : World) (s : State) ctx arr cv :
  canvasContext s = Some ctx -> dataArray s = Some arr -> canvas s = Some cv ->
  let n := barCount (settings w) in
  let slot := num (cwidth cv) / inject_Z n in
  let exactFloor := fun i : nat =>
    Qfloor (Qnat i * (Qnat (List.length arr) / inject_Z n)) in
  ((forall e, faults w e = false) -> exists s', drawBars w s = Normal tt s') /\
  (forall s',
     drawBars w s = Normal tt s' ->
     exists evs,
       events s' = events s ++ evs /\
       List.length (bars evs) = Z.to_nat n /\
       (forall i, (i < Z.to_nat n)%nat ->
          exists r, nth_error (bars evs) i = Some r /\
            rectHeight r
            = byteQ (nth (Z.to_nat (dataIndex arr n i)) arr x00)
              * config.sensitivity * (num (cheight cv) / 255) /\
            rectWidth r = slot - 1 /\
            rectX r = Qnat i * slot /\
            (n = 50%Z -> cwidth cv = 200%N ->
               rectWidth r == 3 /\ rectX r == 4 * Qnat i /\
               (i = 49%nat -> rectX r + rectWidth r + 1 == num (cwidth cv))))) /\
  (forall i,
     (1 <= n)%Z -> (i < Z.to_nat n)%nat -> arr <> [] ->
     (n * Z.of_nat (List.length arr) <= 2 ^ 50)%Z ->
     (exactFloor i - 1 <= dataIndex arr n i <= exactFloor i)%Z /\
     ((Z.of_nat i * Z.of_nat (List.length arr)) mod n <> 0 ->
      dataIndex arr n i = exactFloor i)%Z /\
     (0 <= dataIndex arr n i < Z.of_nat (List.length arr))%Z) /\
  (n = 50%Z -> List.length arr = 256%nat ->
   forall i, (i < 50)%nat -> dataIndex arr n i = exactFloor i).
Proof.
  intros Hctx Harr Hcv n slot exactFloor. subst n slot exactFloor.
  split; [|split; [|split]].
  - intro Hf.
    destruct (completes (drawBars w) s) as [[] [s' Hrun]];
      [unfold drawBars; apply straight_call | apply drawBars_calm, Hf |].
    exists s'. exact Hrun.
  - intros s' Hrun.
    destruct (drawBars_normal w s s' ctx arr cv Hctx Harr Hcv Hrun) as [evs [-> Hb]].
    exists evs. split; [reflexivity|]. split.
    + rewrite Hb, length_map, length_seq. reflexivity.
    + intros i Hi. exists (barRect w arr cv i). split.
      * rewrite Hb. rewrite nth_error_map, nth_error_seq.
        destruct (Nat.ltb_spec i (Z.to_nat (barCount (settings w)))); [reflexivity | lia].
      * split; [reflexivity|]. split; [reflexivity|]. split; [reflexivity|].
        intros Hn Hw. unfold barRect, rectWidth, rectX; simpl. rewrite Hn, Hw.
        assert (Hslot : num 200 / inject_Z 50 == 4) by reflexivity.
        split; [rewrite Hslot; reflexivity|].
        split; [rewrite Hslot; ring|].
        intros ->. reflexivity.
  - intros i Hn Hi Hne Hsmall. exact (dataIndex_exact arr _ i Hn Hi Hne Hsmall).
  - intros Hn Hlen i Hi. unfold dataIndex. rewrite Hn, Hlen.
    assert (Hall : forallb (fun k =>
                     Z.eqb (Qfloor (fmul (Qnat k) (fdiv (Qnat 256) (inject_Z 50))))
                           (Qfloor (Qnat k * (Qnat 256 / inject_Z 50))))
                     (seq 0 50) = true) by (vm_compute; reflexivity).
    rewrite forallb_forall in Hall.
    apply Z.eqb_eq, Hall, in_seq. lia.
Qed.

Lemma bars_geometry_witness :
  exists evs,
    events (final (drawBars loudWorld liveState)) = events liveState ++ evs /\
    List.length (bars evs) = 50%nat.
Proof.
  assert (H1 : canvasContext liveState
               = Some {| fillStyle := "#ffffff"; strokeStyle := "#ffffff" |})
    by (vm_compute; reflexivity).
  assert (H2 : dataArray liveState = Some (repeat xff 256)) by (vm_compute; reflexivity).
  assert (H3 : canvas liveState = Some {| cwidth := 200; cheight := 40 |})
    by (vm_compute; reflexivity).
  destruct (bars_geometry loudWorld liveState _ _ _ H1 H2 H3) as [Hdone [Hgeo _]].
  destruct (Hdone (fun e => eq_refl)) as [s' Hrun].
  destruct (Hgeo s' Hrun) as [evs [Ht [Hl _]]].
  exists evs. rewrite Hrun. split; [exact Ht | exact Hl].
Defined.

(** C5, as the spec has it, fails: with 98 bars the exact quotient of bar 49
    is [49 * 256 / 98 = 128], but the doubles give [256 / 98 =
    2.6122448979591835] and [49 * 2.6122448979591835 = 127.99999999999999],
    so the bar reads bin 127.  On bins that step from 0 to 255 at bin 128
    the bar is painted with height 0 where the spec's formula gives 60. *)
Lemma bar_reads_bin_below_floor :
  dataIndex steppedBins 98 49 = 127%Z /\
  Qfloor (Qnat 49 * (Qnat (List.length steppedBins) / inject_Z 98)) = 128%Z /\
  dataArray steppedState = Some steppedBins /\
  exists r,
    nth_error
      (bars (skipn (List.length (events steppedState))
                   (events (final (drawBars steppedWorld steppedState))))) 49
    = Some r /\
    rectHeight r == 0 /\
    byteQ (nth (Z.to_nat (Qfloor (Qnat 49 * (Qnat (List.length steppedBins)
                                             / inject_Z 98))))
               steppedBins x00)
    * config.sensitivity * (num 40 / 255) == 60.
Proof.
  split; [vm_compute; reflexivity|].
  split; [vm_compute; reflexivity|].
  split; [vm_compute; reflexivity|].
  eexists. split; [vm_compute; reflexivity|].
  split; vm_compute; reflexivity.
Qed.

(** ** One frame *)

Ltac step H :=
  let a := fresh "a" in
  let s := fresh "s" in
  let Hm := fresh "Hm" in
  apply bind_normal in H as [a [s [Hm H]]];
  match type of a with
  | unit => destruct a
  | _ => idtac
  end.

Lemma straight_drawBars w : straight (drawBars w).
Proof. unfold drawBars. apply straight_call. Qed.

Lemma straight_drawScrollingWave {math : JSMath} w : straight (drawScrollingWave w).
Proof. unfold drawScrollingWave. apply straight_call. Qed.

Lemma straight_renderFrame {math : JSMath} w cv : straight (renderFrame w cv).
Proof.
  unfold renderFrame, drawWaveform, drawCircular.
  repeat first [ apply straight_drawBars | apply straight_drawScrollingWave
               | progress straighten ].
Qed.

Lemma renderFrame_normal {math : JSMath} w cv ctx s s' :
  canvasContext s = Some ctx -> canvas s = Some cv ->
  renderFrame w cv s = Normal tt s' ->
  exists evs,
    events s' = events s ++ evs /\
    bars evs
    = map (if audibleNow w s
           then barRect w (snapshotNow w s) cv
           else waveRect w cv (waveTime s + 0.05))
          (seq 0 (Z.to_nat (barCount (settings w)))).
Proof.
  intros Hctx Hcv H. unfold renderFrame in H.
  step H. inversion Hm; subst; clear Hm.
  step H. inversion Hm; subst; clear Hm.
  step H. simpl in Hm. unfold audibleNow, snapshotNow.
  destruct (analyser s) as [an|] eqn:Han; [destruct (dataArray s) as [arr|] eqn:Harr|].
  - step Hm. apply perform_normal in Hm0 as [_ ->].
    step Hm. inversion Hm0; subst; clear Hm0.
    inversion Hm; subst; clear Hm.
    step H. apply perform_normal in Hm as [_ ->].
    step H. inversion Hm; subst; clear Hm.
    simpl in H. rewrite Han in H. simpl in H. rewrite andb_true_r in H.
    destruct (hasRealAudio (overwrite (frequencyData w) arr)) eqn:Haud; simpl in H.
    + eapply drawBars_normal in H as [evs [-> Hb]]; [|reflexivity|reflexivity|exact Hcv].
      exists ([GetByteFrequencyData; ClearRect 0 0 (num (cwidth cv)) (num (cheight cv))] ++ evs).
      split; [simpl; rewrite <- !app_assoc; reflexivity | exact Hb].
    + eapply drawScrollingWave_normal in H as [evs [-> Hb]]; [|reflexivity|exact Hcv].
      exists ([GetByteFrequencyData; ClearRect 0 0 (num (cwidth cv)) (num (cheight cv))] ++ evs).
      split; [simpl; rewrite <- !app_assoc; reflexivity | exact Hb].
  - inversion Hm; subst; clear Hm.
    step H. apply perform_normal in Hm as [_ ->].
    step H. inversion Hm; subst; clear Hm.
    simpl in H.
    eapply drawScrollingWave_normal in H as [evs [-> Hb]]; [|reflexivity|exact Hcv].
    exists ([ClearRect 0 0 (num (cwidth cv)) (num (cheight cv))] ++ evs).
    split; [simpl; rewrite <- !app_assoc; reflexivity | exact Hb].
  - inversion Hm; subst; clear Hm.
    step H. apply perform_normal in Hm as [_ ->].
    step H. inversion Hm; subst; clear Hm.
    simpl in H.
    eapply drawScrollingWave_normal in H as [evs [-> Hb]]; [|reflexivity|exact Hcv].
    exists ([ClearRect 0 0 (num (cwidth cv)) (num (cheight cv))] ++ evs).
    split; [simpl; rewrite <- !app_assoc; reflexivity | exact Hb].
Qed.

Lemma animate_normal {math : JSMath} w s s' ctx cv :
  canvasContext s = Some ctx -> canvas s = Some cv ->
  animate w s = Normal tt s' ->
  exists evs,
    events s' = events s ++ evs ++ [RequestAnimationFrame] /\
    animationId s' = Some (nextFrame w) /\
    count isSchedule evs = 0%nat /\
    bars evs
    = map (if audibleNow w s
           then barRect w (snapshotNow w s) cv
           else waveRect w cv (waveTime s + 0.05))
          (seq 0 (Z.to_nat (barCount (settings w)))).
Proof.
  intros Hctx Hcv H. unfold animate in H. apply call_normal in H.
  destruct H as [H|H]; unfold bind at 1, get in H; rewrite Hctx, Hcv in H.
  - step H. pose proof (renderFrame_painting w cv s) as [_ [evs' [Htr' Hall]]].
    rewrite Hm in Htr'. simpl in Htr'.
    apply (renderFrame_normal w cv ctx) in Hm as [evs [Htr Hb]]; [|assumption..].
    assert (evs' = evs) as -> by (apply (app_inv_head (events s)); congruence).
    step H. apply perform_normal in Hm as [_ ->].
    inversion H; subst; clear H. simpl.
    exists evs. rewrite Htr, <- app_assoc. repeat split; [|exact Hb].
    apply (count_none isSchedule paintEvent); [|exact Hall].
    intros e He. unfold paintEvent in He. destruct (isSchedule e); [discriminate|reflexivity].
  - exfalso. revert H. apply straight_bind; [apply straight_renderFrame|].
    straighten.
Qed.

(** ** Heights *)

Lemma barHeight_nonneg arr n cv i : 0 <= barHeight arr n cv i.
Proof.
  unfold barHeight. apply Qmult_le_0_compat.
  - apply Qmult_le_0_compat; [apply byteQ_nonneg | unfold config.sensitivity; lra].
  - apply Qle_shift_div_l; [reflexivity | rewrite Qmult_0_l; apply num_nonneg].
Qed.

Lemma waveBarHeight_min {math : JSMath} cv n t i : 2 <= waveBarHeight cv n t i.
Proof.
  unfold waveBarHeight.
  set (x := Qnat i / inject_Z n).
  pose proof (Math_sin_range (x * Math_PI * 2 + t)) as [L1 U1].
  pose proof (Math_sin_range (x * Math_PI * 4 + t * 1.3)) as [L2 U2].
  pose proof (Math_sin_range (x * Math_PI * 6 + t * 0.7)) as [L3 U3].
  pose proof (Math_sin_range (x * Math_PI * 3 - t * 2)) as [L4 U4].
  set (a1 := Math_sin (x * Math_PI * 2 + t)) in *.
  set (a2 := Math_sin (x * Math_PI * 4 + t * 1.3)) in *.
  set (a3 := Math_sin (x * Math_PI * 6 + t * 0.7)) in *.
  set (a4 := Math_sin (x * Math_PI * 3 - t * 2)) in *.
  assert (Hc : 0 <= (a1 * 0.3 + a2 * 0.2 + a3 * 0.1 + 1) / 2).
  { apply Qle_shift_div_l; [reflexivity | lra]. }
  assert (Ht : 0 <= a4 * 0.5 + 0.5) by lra.
  assert (Hm : 0 <= num (cheight cv) * 0.6).
  { apply Qmult_le_0_compat; [apply num_nonneg | lra]. }
  assert (Hp : 0 <= num (cheight cv) * 0.6 * ((a1 * 0.3 + a2 * 0.2 + a3 * 0.1 + 1) / 2)
                    * (a4 * 0.5 + 0.5) * 0.8).
  { apply Qmult_le_0_compat; [|lra].
    apply Qmult_le_0_compat; [|exact Ht].
    apply Qmult_le_0_compat; [exact Hm | exact Hc]. }
  lra.
Qed.

(** C6. With at least one bar configured, a frame that is rendered - real
    audio in bars mode or the idle wave - paints exactly [barCount] bars, none
    of negative height; in the idle wave every bar is at least 2 pixels
    high.  The frame is rendered to its end whenever no call into the browser
    throws. *)
Theorem frame_paints_barCount {math : JSMath} (w : World) (s : State) ctx cv :
  (1 <= barCount (settings w))%Z ->
  canvasContext s = Some ctx -> canvas s = Some cv ->
  ((forall e, faults w e = false) -> exists s', animate w s = Normal tt s') /\
  (forall s',
     animate w s = Normal tt s' ->
     exists evs,
       events s' = events s ++ evs /\
       Z.of_nat (List.length (bars evs)) = barCount (settings w) /\
       Forall (fun r => 0 <= rectHeight r) (bars evs) /\
       (audibleNow w s = false -> Forall (fun r => 2 <= rectHeight r) (bars evs))).
Proof.
  intros Hn Hctx Hcv. split.
  - intro Hf.
    destruct (completes (animate w) s) as [[] [s' Hrun]];
      [unfold animate; apply straight_call | apply animate_calm, Hf |].
    exists s'. exact Hrun.
  - intros s' H.
    destruct (animate_normal w s s' ctx cv Hctx Hcv H) as [evs [Htr [_ [_ Hb]]]].
    exists (evs ++ [RequestAnimationFrame]). split; [exact Htr|].
    rewrite bars_app, app_nil_r, Hb. split; [|split].
    + rewrite length_map, length_seq. lia.
    + apply Forall_forall. intros r Hr. apply in_map_iff in Hr as [i [<- _]].
      destruct (audibleNow w s); unfold barRect, waveRect, rectHeight; simpl.
      * apply barHeight_nonneg.
      * apply Qle_trans with 2; [lra | apply waveBarHeight_min].
    + intros ->. apply Forall_forall. intros r Hr. apply in_map_iff in Hr as [i [<- _]].
      unfold waveRect, rectHeight; simpl. apply waveBarHeight_min.
Qed.

Lemma frame_paints_barCount_witness :
  exists evs,
    events (final (animate loudWorld liveState)) = events liveState ++ evs /\
    Z.of_nat (List.length (bars evs)) = 50%Z.
Proof.
  assert (H0 : (1 <= barCount (settings loudWorld))%Z) by (vm_compute; discriminate).
  assert (H1 : canvasContext liveState
               = Some {| fillStyle := "#ffffff"; strokeStyle := "#ffffff" |})
    by (vm_compute; reflexivity).
  assert (H2 : canvas liveState = Some {| cwidth := 200; cheight := 40 |})
    by (vm_compute; reflexivity).
  destruct (frame_paints_barCount loudWorld liveState _ _ H0 H1 H2) as [Hdone Hbars].
  destruct (Hdone (fun e => eq_refl)) as [s' Hrun].
  destruct (Hbars s' Hrun) as [evs [Ht [Hl _]]].
  exists evs. rewrite Hrun. split; [exact Ht | exact Hl].
Defined.

(** C10. Bars are not clamped to the surface: a bin above 170 gives a bar
    taller than the surface, with a negative top, and such a bar is painted
    when every bin is 255. *)
Theorem bars_exceed_surface :
  (forall arr n cv i,
     (0 < cheight cv)%N ->
     (170 < Byte.to_N (nth (Z.to_nat (dataIndex arr n i)) arr x00))%N ->
     num (cheight cv) < barHeight arr n cv i /\
     num (cheight cv) - barHeight arr n cv i < 0) /\
  (exists r,
     In r (bars (skipn (List.length (events liveState))
                       (events (final (drawBars loudWorld liveState))))) /\
     num config.height < rectHeight r /\ rectY r < 0).
Proof.
  split.
  - intros arr n cv i HH Hv. unfold barHeight.
    set (v := byteQ (nth (Z.to_nat (dataIndex arr n i)) arr x00)).
    assert (Hvq : 171 <= v).
    { unfold v, byteQ, num, Qle. simpl. lia. }
    assert (HHq : 0 < num (cheight cv)) by (apply inject_Z_pos; lia).
    assert (Heq : v * config.sensitivity * (num (cheight cv) / 255)
                  == num (cheight cv) * (v * (15 # 2550))).
    { unfold config.sensitivity. field. }
    assert (Hk : 1 < v * (15 # 2550)) by lra.
    assert (Hlt : num (cheight cv) * 1 < num (cheight cv) * (v * (15 # 2550))).
    { apply Qmult_lt_l; assumption. }
    rewrite Heq. lra.
  - exists (0 # 50, -51000 # 2550, 150 # 50, 153000 # 2550). split.
    + vm_compute. left. reflexivity.
    + split; reflexivity.
Qed.

Lemma bars_exceed_surface_witness :
  num 40 < barHeight (repeat xff 256) 50 {| cwidth := 200; cheight := 40 |} 0.
Proof.
  apply (proj1 bars_exceed_surface (repeat xff 256) 50%Z
           {| cwidth := 200; cheight := 40 |} 0%nat).
  - reflexivity.
  - vm_compute. reflexivity.
Defined.

(** ** The idle wave *)

Lemma skipn_length_app {A} (l l' : list A) : skipn (List.length l) (l ++ l') = l'.
Proof. induction l as [|a l IH]; simpl; auto. Qed.

Lemma idleFrames_heights {math : JSMath} (ws : list World) :
  forall s ctx cv hs,
    canvasContext s = Some ctx -> canvas s = Some cv ->
    idleFrames ws s = Some hs ->
    hs = idleHeights cv (waveTime s) (map (fun w => barCount (settings w)) ws).
Proof.
  induction ws as [|w ws IH]; intros s ctx cv hs Hctx Hcv H; simpl in H.
  - inversion H. reflexivity.
  - destruct (drawScrollingWave w s) as [[] s1|s1|e s1] eqn:Hrun; try discriminate.
    destruct (idleFrames ws s1) as [rest|] eqn:Hrest; try discriminate.
    inversion H; subst hs; clear H.
    destruct (drawScrollingWave_normal w s s1 ctx cv Hctx Hcv Hrun) as [evs [-> Hb]].
    simpl. rewrite skipn_length_app, Hb, map_map. f_equal.
    eapply (IH _ _ cv) in Hrest; [exact Hrest | reflexivity | exact Hcv].
Qed.

Lemma idleFrames_no_surface {math : JSMath} (ws : list World) :
  forall s hs,
    canvasContext s = None \/ canvas s = None ->
    idleFrames ws s = Some hs -> hs = map (fun _ => []) ws.
Proof.
  induction ws as [|w ws IH]; intros s hs Hno H; simpl in H.
  - inversion H. reflexivity.
  - assert (Hrun : drawScrollingWave w s = Normal tt s).
    { unfold drawScrollingWave, call, bind, get.
      destruct Hno as [-> | Hcv]; [reflexivity|].
      rewrite Hcv. destruct (canvasContext s); reflexivity. }
    rewrite Hrun in H.
    destruct (idleFrames ws s) as [rest|] eqn:Hrest; try discriminate.
    inversion H; subst hs; clear H.
    rewrite <- (app_nil_r (events s)) at 2. rewrite skipn_length_app. simpl.
    f_equal. apply (IH s); assumption.
Qed.

(** C7. The idle wave is deterministic: two runs that replay the same
    number of 0.05 steps with the same bar counts on the same surface paint
    the same heights, whatever else differs between them (colour, rounding,
    audio state, the rest of the page). *)
Theorem idle_wave_deterministic {math : JSMath}
    (ws1 ws2 : list World) (s1 s2 : State) (hs1 hs2 : list (list Q)) :
  Forall2 (fun a b => barCount (settings a) = barCount (settings b)) ws1 ws2 ->
  waveTime s1 = waveTime s2 ->
  canvas s1 = canvas s2 ->
  isSome (canvasContext s1) = isSome (canvasContext s2) ->
  idleFrames ws1 s1 = Some hs1 ->
  idleFrames ws2 s2 = Some hs2 ->
  hs1 = hs2.
Proof.
  intros Hws Ht Hcv Hctx H1 H2.
  assert (Hcounts : map (fun w => barCount (settings w)) ws1
                    = map (fun w => barCount (settings w)) ws2).
  { clear - Hws. induction Hws; simpl; congruence. }
  assert (Hlen : map (fun _ : World => @nil Q) ws1 = map (fun _ => []) ws2).
  { clear - Hws. induction Hws; simpl; congruence. }
  destruct (canvasContext s1) as [c1|] eqn:E1, (canvasContext s2) as [c2|] eqn:E2;
    try discriminate.
  - destruct (canvas s1) as [cv|] eqn:Ec1.
    + rewrite (idleFrames_heights ws1 s1 c1 cv hs1 E1 Ec1 H1).
      rewrite (idleFrames_heights ws2 s2 c2 cv hs2 E2 (eq_sym Hcv) H2).
      rewrite Ht, Hcounts. reflexivity.
    + rewrite (idleFrames_no_surface ws1 s1 hs1 (or_intror Ec1) H1).
      rewrite (idleFrames_no_surface ws2 s2 hs2 (or_intror (eq_sym Hcv)) H2).
      exact Hlen.
  - rewrite (idleFrames_no_surface ws1 s1 hs1 (or_introl E1) H1).
    rewrite (idleFrames_no_surface ws2 s2 hs2 (or_introl E2) H2).
    exact Hlen.
Qed.

Lemma idle_wave_deterministic_witness :
  idleFrames [quietWorld; quietWorld] surfaceState
  = idleFrames [roundedWorld; roundedWorld] liveState.
Proof.
  destruct (idleFrames [quietWorld; quietWorld] surfaceState) as [hs1|] eqn:H1;
    [|vm_compute in H1; discriminate].
  destruct (idleFrames [roundedWorld; roundedWorld] liveState) as [hs2|] eqn:H2;
    [|vm_compute in H2; discriminate].
  f_equal.
  apply (idle_wave_deterministic [quietWorld; quietWorld] [roundedWorld; roundedWorld]
           surfaceState liveState hs1 hs2); try assumption.
  - repeat constructor.
  - reflexivity.
  - vm_compute. reflexivity.
  - vm_compute. reflexivity.
Defined.

(** ** Exceptions in a frame *)

Lemma bind_throw {A B} (m : M A) (k : A -> M B) s e s' :
  bind m k s = Throw e s' ->
  m s = Throw e s' \/ exists a s1, m s = Normal a s1 /\ k a s1 = Throw e s'.
Proof.
  unfold bind. destruct (m s) as [a s1|s1|e1 s1]; intro H; try discriminate.
  - right. exists a, s1. auto.
  - left. inversion H. reflexivity.
Qed.

Lemma framesRequested_painting s s' :
  Painting s s' -> framesRequested s' = framesRequested s.
Proof.
  intros [_ Hg]. unfold framesRequested. apply (grows_count paintEvent); [|exact Hg].
  intros e He. unfold paintEvent in He. destruct (isSchedule e); [discriminate|reflexivity].
Qed.

(** *** No exception is swallowed *)

Lemma unswallowed_ret w {A} (a : A) : unswallowed w (ret a).
Proof. intro s. apply grows_refl. Qed.

Lemma unswallowed_get w : unswallowed w get.
Proof. intro s. apply grows_refl. Qed.

Lemma unswallowed_return w {A} : unswallowed w (@return_ A).
Proof. intro s. apply grows_refl. Qed.

Lemma unswallowed_throw w {A} err : unswallowed w (@throw A err).
Proof. intro s. exact I. Qed.

Lemma unswallowed_modify w f :
  (forall s, events (f s) = events s) -> unswallowed w (modify f).
Proof.
  intros Hf s. exists []. rewrite app_nil_r. split; [apply Hf | reflexivity].
Qed.

Lemma unswallowed_perform w e : unswallowed w (perform w e).
Proof.
  intro s. unfold perform, bind, emit, modify, throw, skip, ret.
  destruct (faults w e) eqn:Hf; [exact I|].
  exists [e]. split; [reflexivity|]. simpl. unfold returned. rewrite Hf. reflexivity.
Qed.

Lemma unswallowed_bind w {A B} (m : M A) (k : A -> M B) :
  unswallowed w m -> (forall a, unswallowed w (k a)) -> unswallowed w (bind m k).
Proof.
  intros Hm Hk s. unfold bind. specialize (Hm s).
  destruct (m s) as [a s1|s1|e s1]; try assumption.
  specialize (Hk a s1).
  destruct (k a s1) as [b s2|s2|e s2]; try exact I; eapply grows_trans; eassumption.
Qed.

Lemma unswallowed_call w m : unswallowed w m -> unswallowed w (call m).
Proof.
  intros Hm s. unfold call. specialize (Hm s).
  destruct (m s) as [[] s1|s1|e s1]; assumption.
Qed.

Lemma unswallowed_when w b m : unswallowed w m -> unswallowed w (when b m).
Proof. intro Hm. destruct b; simpl; [assumption | apply unswallowed_ret]. Qed.

Lemma unswallowed_for_from w body :
  (forall i, unswallowed w (body i)) -> forall n i, unswallowed w (for_from i n body).
Proof.
  intros Hb n. induction n as [|n IH]; intro i; simpl.
  - apply unswallowed_ret.
  - apply unswallowed_bind; [apply Hb | intros _; apply IH].
Qed.

Ltac unswallow :=
  repeat first
    [ progress intros
    | apply unswallowed_ret | apply unswallowed_get | apply unswallowed_return
    | apply unswallowed_throw | apply unswallowed_perform
    | match goal with
      | |- unswallowed _ (match ?x with _ => _ end) => destruct x
      | |- unswallowed _ (if ?b then _ else _) => destruct b
      | |- unswallowed _ skip => apply unswallowed_ret
      | |- unswallowed _ (drawRoundedRect _ _ _ _ _ _) => unfold drawRoundedRect
      | |- unswallowed _ (setFillStyle _) => unfold setFillStyle
      | |- unswallowed _ (modify _) =>
          apply unswallowed_modify; intro;
          repeat match goal with
                 | |- context [match ?x with _ => _ end] => destruct x
                 end; reflexivity
      | |- unswallowed _ (bind _ _) => apply unswallowed_bind
      | |- unswallowed _ (call _) => apply unswallowed_call
      | |- unswallowed _ (when _ _) => apply unswallowed_when
      | |- unswallowed _ (for_from _ _ _) => apply unswallowed_for_from
      end ].

Lemma animate_unswallowed {math : JSMath} w : unswallowed w (animate w).
Proof.
  unfold animate, renderFrame, drawBars, drawScrollingWave, drawWaveform, drawCircular.
  unswallow.
Qed.

(** C8, as the code has it.  [animate] and the drawing routines contain no
    handler.  An exception raised while a frame is rendered leaves
    [animate] as that exception, and that frame schedules nothing -
    [animationId] keeps its value and no call of requestAnimationFrame
    returns.  No exception is swallowed on the way: in a frame that
    completes, every call into the browser has returned.  A frame that has
    a surface and in which nothing throws schedules exactly one next frame,
    and a frame throws only when a call into the browser does. *)
Theorem frame_schedules_unless_thrown {math : JSMath} (w : World) (s : State) ctx cv :
  canvasContext s = Some ctx -> canvas s = Some cv ->
  match animate w s with
  | Normal _ s' =>
      framesRequested s' = S (framesRequested s) /\
      animationId s' = Some (nextFrame w)
  | Return _ => False
  | Throw _ s' =>
      ~ (forall e, faults w e = false) /\
      animationId s' = animationId s /\
      (faults w RequestAnimationFrame = false ->
       framesRequested s' = framesRequested s)
  end /\
  (forall err s1,
     renderFrame w cv s = Throw err s1 -> animate w s = Throw err s1) /\
  (forall s1,
     renderFrame w cv s = Normal tt s1 ->
     faults w RequestAnimationFrame = true ->
     exists err s2, animate w s = Throw err s2) /\
  (forall s',
     animate w s = Normal tt s' ->
     exists evs,
       events s' = events s ++ evs /\ forallb (returned w) evs = true).
Proof.
  intros Hctx Hcv. split; [|split; [|split]].
  { destruct (animate w s) as [[] s'|s'|e s'] eqn:Hrun.
      - destruct (animate_normal w s s' ctx cv Hctx Hcv Hrun) as [evs [Htr [Hid [Hc _]]]].
        split; [|exact Hid]. unfold framesRequested.
        rewrite Htr, !count_app, Hc.
        change (count isSchedule [RequestAnimationFrame]) with 1%nat. lia.
      - exact (straight_call _ _ _ Hrun).
      - split.
        { intro Hf. exact (animate_calm w Hf _ _ _ Hrun). }
        unfold animate, call in Hrun.
        match type of Hrun with
        | match ?body s with _ => _ end = _ => destruct (body s) as [[] s1|s1|e1 s1] eqn:Hbody
        end; try discriminate.
        inversion Hrun; subst e1 s1; clear Hrun.
        unfold bind at 1, get in Hbody. rewrite Hctx, Hcv in Hbody.
        apply bind_throw in Hbody as [Hr | [[] [s1 [Hr Hk]]]].
        + pose proof (renderFrame_painting w cv s) as HP. rewrite Hr in HP. simpl in HP.
          split; [apply HP | intros _; apply framesRequested_painting; exact HP].
        + pose proof (renderFrame_painting w cv s) as HP. rewrite Hr in HP. simpl in HP.
          apply bind_throw in Hk as [Hk | [[] [s2 [_ Hk]]]]; [|discriminate].
          unfold perform, bind, emit, modify in Hk.
          destruct (faults w RequestAnimationFrame) eqn:Hf; [|discriminate].
          inversion Hk; subst; clear Hk. simpl.
          split; [apply HP | discriminate]. }
  - intros err s1 Hr. unfold animate, call, bind at 1, get. rewrite Hctx, Hcv.
    unfold bind at 1. rewrite Hr. reflexivity.
  - intros s1 Hr Hf. unfold animate, call, bind at 1, get. rewrite Hctx, Hcv.
    unfold bind at 1. rewrite Hr.
    unfold bind, perform, emit, modify, throw. rewrite Hf.
    eexists. eexists. reflexivity.
  - intros s' Hrun. pose proof (animate_unswallowed w s) as H.
    rewrite Hrun in H. exact H.
Qed.

Lemma frame_schedules_unless_thrown_witness :
  framesRequested (final (animate quietWorld surfaceState))
  = S (framesRequested surfaceState).
Proof.
  assert (H1 : canvasContext surfaceState
               = Some {| fillStyle := "#000000"; strokeStyle := "#000000" |})
    by (vm_compute; reflexivity).
  assert (H2 : canvas surfaceState = Some {| cwidth := 200; cheight := 40 |})
    by (vm_compute; reflexivity).
  destruct (frame_schedules_unless_thrown quietWorld surfaceState _ _ H1 H2) as [H _].
  destruct (animate quietWorld surfaceState) as [[] s'|s'|e s'] eqn:Hrun.
  - exact (proj1 H).
  - destruct H.
  - vm_compute in Hrun. discriminate.
Defined.

(** C8, as the spec has it, fails: on a canvas without [roundRect] the
    frame ends with the exception and requests no next frame. *)
Lemma frame_exception_stops_loop :
  exists err s',
    animate legacyWorld surfaceState = Throw err s' /\
    framesRequested s' = framesRequested surfaceState /\
    animationId s' = animationId surfaceState.
Proof.
  eexists. eexists. split; [vm_compute; reflexivity|].
  split; vm_compute; reflexivity.
Qed.

(** ** Acquisition: the two taps *)

Lemma initializeAudioVisualizer_normal {math : JSMath} w s :
  exists s', initializeAudioVisualizer w s = Normal tt s'.
Proof.
  unfold initializeAudioVisualizer, call, try_catch.
  match goal with
  | |- context [match ?body s with _ => _ end] => destruct (body s) as [[] s1|s1|e s1]
  end; eexists; reflexivity.
Qed.

Lemma directTap_keepsRecord w el : respects KeepsRecord (directTap w el).
Proof. unfold directTap. respect. Qed.
#[export] Hint Resolve directTap_keepsRecord : respects.

Lemma streamTap_keepsRecord w el : respects KeepsRecord (streamTap w el).
Proof. unfold streamTap, captureAny. respect. Qed.
#[export] Hint Resolve streamTap_keepsRecord : respects.

Lemma attemptConnection_failing w el :
  (forall s0, exists err s1, directTap w el s0 = Throw err s1) ->
  (forall s0, exists err s1, streamTap w el s0 = Throw err s1) ->
  respects KeepsRecord (attemptConnection w el).
Proof.
  intros Hd Hs s. unfold attemptConnection.
  change (bind get ?k s) with (k s s). cbv beta.
  destruct (negb (isSourceConnected s)
            && negb (sameElement el (currentAudioElement s)));
    [|apply KeepsRecord_refl].
  unfold when, bind at 1, try_catch at 1.
  destruct (Hd s) as [err [s1 Hd1]].
  pose proof (directTap_keepsRecord w el s) as K1. rewrite Hd1 in *. simpl in K1.
  unfold bind at 1, log, emit, modify, try_catch.
  match goal with
  | |- context [streamTap w el ?st] =>
      destruct (Hs st) as [err2 [s3 Hs3]];
      pose proof (streamTap_keepsRecord w el st) as K2; rewrite Hs3 in *
  end.
  simpl in *. relax. simpl in *. destruct K1, K2. split; congruence.
Qed.

(** C2. When both the direct tap and the stream capture fail, the routine
    ends normally - nothing escapes it - with the path unconnected and the
    recorded element untouched. *)
Theorem both_taps_fail_stays_unconnected {math : JSMath}
    (w : World) (s : State) (el : Element) :
  findAudioElement w = Some el ->
  isSourceConnected s = false ->
  (forall s0, exists err s1, directTap w el s0 = Throw err s1) ->
  (forall s0, exists err s1, streamTap w el s0 = Throw err s1) ->
  exists s',
    initializeAudioVisualizer w s = Normal tt s' /\
    isSourceConnected s' = false /\
    currentAudioElement s' = currentAudioElement s.
Proof.
  intros Hfind Hnc Hd Hs.
  destruct (initializeAudioVisualizer_normal w s) as [s' Hrun].
  exists s'. split; [exact Hrun|].
  pose proof (attemptConnection_failing w el Hd Hs) as Hat.
  assert (HK : respects KeepsRecord (initializeAudioVisualizer w)).
  { unfold initializeAudioVisualizer. rewrite Hfind. respect. }
  specialize (HK s). rewrite Hrun in HK. destruct HK as [Hc Hcur].
  simpl in *. split; congruence.
Qed.

Lemma both_taps_fail_stays_unconnected_witness :
  exists s',
    initializeAudioVisualizer lockedWorld initialState = Normal tt s' /\
    isSourceConnected s' = false /\
    currentAudioElement s' = currentAudioElement initialState.
Proof.
  apply (both_taps_fail_stays_unconnected lockedWorld initialState player).
  - reflexivity.
  - reflexivity.
  - intro s0. eexists. eexists. reflexivity.
  - intro s0. eexists. eexists. reflexivity.
Defined.

Lemma streamTap_normal w el s s' :
  streamTap w el s = Normal tt s' ->
  exists st pre,
    events s' = events s ++ pre ++
               [CreateMediaStreamSource st; Connect StreamSource AnalyserOut;
                Connect AnalyserOut Destination;
                logged "Connected via captureStream"].
Proof.
  intro H. unfold streamTap in H. step H.
  destruct (captureAny_acquiring w el s) as [_ [pre [Hpre _]]].
  rewrite Hm in Hpre. simpl in Hpre.
  destruct a as [st|]; [|discriminate].
  step H. apply perform_normal in Hm0 as [_ ->].
  step H. apply perform_normal in Hm0 as [_ ->].
  step H. apply perform_normal in Hm0 as [_ ->].
  inversion H; subst; clear H.
  exists st, pre. simpl. rewrite Hpre, <- !app_assoc. reflexivity.
Qed.

Lemma grows_extends ok s s' : grows ok s s' -> exists evs, events s' = events s ++ evs.
Proof. intros [evs [H _]]. exists evs. exact H. Qed.

(** C1. An element is found, nothing is connected yet and the element is
    not the recorded one: when the direct tap throws and the stream capture
    goes through, the routine ends connected, with the element recorded, and
    its log shows the fallback. *)
Theorem fallback_reaches_connected {math : JSMath}
    (w : World) (s : State) (el : Element) :
  findAudioElement w = Some el ->
  isSourceConnected s = false ->
  sameElement el (currentAudioElement s) = false ->
  (forall s0, exists s1, ensureAudioGraph w s0 = Normal tt s1) ->
  (forall s0, exists err s1, directTap w el s0 = Throw err s1) ->
  (forall s0, exists s1, streamTap w el s0 = Normal tt s1) ->
  exists s' evs,
    initializeAudioVisualizer w s = Normal tt s' /\
    isSourceConnected s' = true /\
    currentAudioElement s' = Some el /\
    events s' = events s ++ evs /\
    In (logged "MediaElementSource failed, attempting captureStream fallback...") evs /\
    (exists st, In (CreateMediaStreamSource st) evs) /\
    In (Connect StreamSource AnalyserOut) evs /\
    In (logged "Connected via captureStream") evs.
Proof.
  intros Hfind Hnc Hdiff He Hd Hs.
  (* the graph is prepared *)
  destruct (He s) as [s1 He1].
  pose proof (ensureAudioGraph_quiet w s) as Q1. rewrite He1 in Q1. simpl in Q1.
  destruct Q1 as [[Q1c [Q1e _]] [_ Q1g]]. apply grows_extends in Q1g as [e1 T1].
  (* the direct tap throws *)
  destruct (Hd s1) as [err [s2 Hd2]].
  pose proof (directTap_acquiring w el s1) as A2. rewrite Hd2 in A2. simpl in A2.
  destruct A2 as [_ A2g]. apply grows_extends in A2g as [e2 T2].
  (* the capture succeeds *)
  set (s3 := set_events
               (events s2 ++ [logged
                  "MediaElementSource failed, attempting captureStream fallback..."]) s2).
  destruct (Hs s3) as [s4 Hs4].
  destruct (streamTap_normal w el s3 s4 Hs4) as [st [pre T4]].
  set (s5 := set_isSourceConnected true (set_currentAudioElement (Some el) s4)).
  assert (Hat : attemptConnection w el s1 = Normal tt s5).
  { unfold attemptConnection. change (bind get ?k s1) with (k s1 s1). cbv beta.
    rewrite Q1c, Q1e, Hnc, Hdiff. simpl.
    unfold bind at 1, try_catch at 1. rewrite Hd2.
    unfold bind at 1, log, emit, modify, try_catch. fold s3. rewrite Hs4.
    reflexivity. }
  (* the rest of the routine keeps the record *)
  pose proof (resumeAndShow_background w s5) as B6.
  destruct B6 as [_ [[B6c [B6e _]] [_ B6g]]]. apply grows_extends in B6g as [e6 T6].
  assert (Hbody : final ((ensureAudioGraph w ;; attemptConnection w el ;; resumeAndShow w) s)
                  = final (resumeAndShow w s5)).
  { unfold bind. rewrite He1, Hat. destruct (resumeAndShow w s5); reflexivity. }
  assert (Hwrap : exists s' tail,
             initializeAudioVisualizer w s = Normal tt s' /\
             isSourceConnected s' = isSourceConnected (final (resumeAndShow w s5)) /\
             currentAudioElement s' = currentAudioElement (final (resumeAndShow w s5)) /\
             events s' = events (final (resumeAndShow w s5)) ++ tail).
  { unfold initializeAudioVisualizer. rewrite Hfind. unfold call, try_catch.
    revert Hbody.
    destruct ((ensureAudioGraph w ;; attemptConnection w el ;; resumeAndShow w) s)
      as [[] sx|sx|ex sx]; simpl; intros <-.
    - exists sx, []. rewrite app_nil_r. auto.
    - exists sx, []. rewrite app_nil_r. auto.
    - eexists. exists [ConsoleError ex]. repeat split. }
  destruct Hwrap as [s' [tail [Hrun [Hc [Hcur Htr]]]]].
  exists s'.
  exists (e1 ++ e2
          ++ [logged "MediaElementSource failed, attempting captureStream fallback..."]
          ++ pre
          ++ [CreateMediaStreamSource st; Connect StreamSource AnalyserOut;
              Connect AnalyserOut Destination; logged "Connected via captureStream"]
          ++ e6 ++ tail).
  split; [exact Hrun|]. split; [rewrite Hc, B6c; reflexivity|].
  split; [rewrite Hcur, B6e; reflexivity|].
  split.
  - rewrite Htr, T6. change (events s5) with (events s4). rewrite T4.
    change (events s3) with (events s2 ++ [logged
      "MediaElementSource failed, attempting captureStream fallback..."]).
    rewrite T2, T1. rewrite <- !app_assoc. reflexivity.
  - split; [|split; [exists st|split]]; rewrite !in_app_iff; simpl; tauto.
Qed.

Lemma fallback_reaches_connected_witness :
  exists s' evs,
    initializeAudioVisualizer protectedWorld initialState = Normal tt s' /\
    isSourceConnected s' = true /\
    currentAudioElement s' = Some player /\
    events s' = events initialState ++ evs /\
    In (logged "MediaElementSource failed, attempting captureStream fallback...") evs /\
    (exists st, In (CreateMediaStreamSource st) evs) /\
    In (Connect StreamSource AnalyserOut) evs /\
    In (logged "Connected via captureStream") evs.
Proof.
  apply (fallback_reaches_connected protectedWorld initialState player).
  - reflexivity.
  - reflexivity.
  - reflexivity.
  - intro s0. unfold ensureAudioGraph, bind, get, when, perform, emit, modify, log, skip, ret.
    simpl. destruct (audioContext s0); simpl;
      match goal with
      | |- context [analyser ?st] => destruct (analyser st)
      end; simpl; eexists; reflexivity.
  - intro s0. eexists. eexists. reflexivity.
  - intro s0. eexists. reflexivity.
Defined.

(** ** Once connected *)

Lemma attemptConnection_whileConnected w el :
  respects WhileConnected (attemptConnection w el).
Proof.
  intros s Hc. unfold attemptConnection.
  change (bind get ?k s) with (k s s). cbv beta.
  rewrite Hc. simpl. apply Connected_refl.
Qed.
#[export] Hint Resolve attemptConnection_whileConnected : respects.

Lemma initializeAudioVisualizer_whileConnected {math : JSMath} w :
  respects WhileConnected (initializeAudioVisualizer w).
Proof. unfold initializeAudioVisualizer. respect. Qed.
#[export] Hint Resolve initializeAudioVisualizer_whileConnected : respects.

Lemma checkAndInitialize_whileConnected {math : JSMath} w :
  respects WhileConnected (checkAndInitialize w).
Proof. unfold checkAndInitialize. respect. Qed.

Lemma thenReaction_connected : respects Connected thenReaction.
Proof. unfold thenReaction. respect. Qed.

Lemma runThen_connected s : Connected s (runThen s).
Proof.
  unfold runThen. destruct (thenPending s); [|apply Connected_refl].
  apply Connected_trans with (set_thenPending false s).
  - relax. simpl. repeat split. exists []. simpl. rewrite app_nil_r. auto.
  - apply thenReaction_connected.
Qed.

Lemma pollTick_whileConnected {math : JSMath} w s : WhileConnected s (pollTick w s).
Proof.
  unfold pollTick. eapply WhileConnected_trans.
  - apply checkAndInitialize_whileConnected.
  - apply Connected_WhileConnected, runThen_connected.
Qed.

Lemma runOp_whileConnected {math : JSMath} op s : WhileConnected s (runOp op s).
Proof.
  destruct op as [w|w|w|w|w|w]; simpl.
  - apply initializeAudioVisualizer_whileConnected.
  - apply Connected_WhileConnected, Quiet_Connected, Background_Quiet, animate_background.
  - apply Connected_WhileConnected, Quiet_Connected, Background_Quiet,
      updateAudioVisualizer_background.
  - apply Connected_WhileConnected, Quiet_Connected, Background_Quiet,
      createVisualizerUI_background.
  - apply Connected_WhileConnected, Quiet_Connected, Background_Quiet,
      cleanupAudioVisualizer_background.
  - apply pollTick_whileConnected.
Qed.

Lemma runOps_whileConnected {math : JSMath} ops : forall s, WhileConnected s (runOps ops s).
Proof.
  induction ops as [|op ops IH]; intro s; simpl.
  - apply WhileConnected_refl.
  - eapply WhileConnected_trans; [apply runOp_whileConnected | apply IH].
Qed.

Lemma Connected_counts s s' :
  Connected s s' ->
  connectionAttempts s' = connectionAttempts s /\ teardowns s' = teardowns s.
Proof.
  intros [_ Hg]. unfold connectionAttempts, teardowns.
  split; apply (grows_count connQuiet); try exact Hg;
    intros e He; unfold connQuiet in He;
    destruct (isConnectionAttempt e), (isTeardown e); simpl in He;
    try discriminate; reflexivity.
Qed.

(** C3. Once a source is connected, a call of the acquisition routine
    creates no further source node; the cleanup that is not the shutdown
    leaves the connection alone; and no run of calls, frames and timer ticks
    short of [completeCleanup] unsets the flag, changes the recorded element
    or source, creates a source node or tears anything down.  The shutdown,
    when it runs to its end, resets the connection. *)
Theorem connection_made_once {math : JSMath} (s : State) :
  isSourceConnected s = true ->
  (forall w,
     connectionAttempts (final (initializeAudioVisualizer w s)) = connectionAttempts s /\
     isSourceConnected (final (initializeAudioVisualizer w s)) = true) /\
  (forall w,
     let s' := final (cleanupAudioVisualizer w s) in
     isSourceConnected s' = true /\ audioSource s' = audioSource s /\
     currentAudioElement s' = currentAudioElement s /\
     audioContext s' = audioContext s /\ teardowns s' = teardowns s) /\
  (forall ops,
     let s' := runOps ops s in
     isSourceConnected s' = true /\
     currentAudioElement s' = currentAudioElement s /\
     audioSource s' = audioSource s /\
     connectionAttempts s' = connectionAttempts s /\
     teardowns s' = teardowns s) /\
  (forall w s',
     completeCleanup w s = Normal tt s' ->
     isSourceConnected s' = false /\ currentAudioElement s' = None /\
     audioSource s' = None).
Proof.
  intro Hc. split; [|split; [|split]].
  - intro w. pose proof (initializeAudioVisualizer_whileConnected w s Hc) as HC.
    destruct (Connected_counts _ _ HC) as [Ha _]. destruct HC as [[Hs _] _].
    split; congruence.
  - intros w s'. subst s'.
    pose proof (cleanupAudioVisualizer_background w s) as [[Hg _] HQ].
    pose proof (Quiet_Connected _ _ HQ) as HC.
    destruct (Connected_counts _ _ HC) as [_ Ht].
    destruct HC as [[Hs [Hcur Hsrc]] _]. repeat split; congruence.
  - intros ops s'. subst s'.
    pose proof (runOps_whileConnected ops s Hc) as HC.
    destruct (Connected_counts _ _ HC) as [Ha Ht].
    destruct HC as [[Hs [Hcur Hsrc]] _]. repeat split; congruence.
  - intros w s' H. unfold completeCleanup in H.
    do 7 (step H; clear Hm).
    do 5 (step H; inversion Hm; subst; clear Hm).
    inversion H; subst; clear H. simpl. auto.
Qed.

Lemma connection_made_once_witness :
  connectionAttempts
    (runOps [Tick loudWorld; CallInitialize protectedWorld; CallCleanup quietWorld;
             Tick quietWorld; Tick loudWorld] liveState)
  = connectionAttempts liveState.
Proof.
  assert (Hc : isSourceConnected liveState = true) by (vm_compute; reflexivity).
  destruct (connection_made_once liveState Hc) as [_ [_ [Hops _]]].
  destruct (Hops [Tick loudWorld; CallInitialize protectedWorld; CallCleanup quietWorld;
                  Tick quietWorld; Tick loudWorld]) as [_ [_ [_ [Ha _]]]].
  exact Ha.
Defined.

(** ** The poller *)

Lemma final_bind_normal {A B} (m : M A) (k : A -> M B) s a s1 :
  m s = Normal a s1 -> final (bind m k s) = final (k a s1).
Proof. intro H. unfold bind. rewrite H. reflexivity. Qed.

Lemma acquisitions_acquiring s s' : Acquiring s s' -> acquisitions s' = acquisitions s.
Proof.
  intros [_ Hg]. unfold acquisitions. apply (grows_count initQuiet); [|exact Hg].
  intros e He. unfold initQuiet in He. destruct (isAcquisition e); [discriminate|reflexivity].
Qed.

Lemma acquisitions_background s s' : Background s s' -> acquisitions s' = acquisitions s.
Proof. intro H. apply acquisitions_acquiring, Quiet_Acquiring, Background_Quiet, H. Qed.

Lemma thenReaction_final s :
  let s' := final (thenReaction s) in
  audioContext s' = audioContext s /\ analyser s' = analyser s /\
  thenPending s' = thenPending s /\ acquisitions s' = acquisitions s /\
  hasTriedInitialization s'
  = hasTriedInitialization s && (audioContext s && isSome (analyser s)).
Proof.
  unfold thenReaction, bind, get.
  destruct (audioContext s && isSome (analyser s)) eqn:Hready; simpl.
  - repeat split.
    + unfold acquisitions. simpl. rewrite count_snoc.
      change (isAcquisition (logged "Audio visualizer ready!")) with false.
      apply Nat.add_0_r.
    + rewrite andb_true_r. reflexivity.
  - repeat split. rewrite andb_false_r. reflexivity.
Qed.

Lemma runThen_final s :
  thenPending (runThen s) = false /\
  audioContext (runThen s) = audioContext s /\
  analyser (runThen s) = analyser s /\
  acquisitions (runThen s) = acquisitions s /\
  hasTriedInitialization (runThen s)
  = hasTriedInitialization s
    && (negb (thenPending s) || (audioContext s && isSome (analyser s))).
Proof.
  unfold runThen. destruct (thenPending s) eqn:Hp.
  - destruct (thenReaction_final (set_thenPending false s)) as [H1 [H2 [H3 [H4 H5]]]].
    simpl in *. auto.
  - simpl. rewrite andb_true_r. auto.
Qed.

(** The synchronous part of a tick, in the three situations of the test on
    line 478. *)
Lemma check_attempts {math : JSMath} w s :
  playing w = true -> hasTriedInitialization s = false ->
  let s' := final (checkAndInitialize w s) in
  hasTriedInitialization s' = true /\ thenPending s' = true /\
  acquisitions s' = S (acquisitions s).
Proof.
  intros Hplay Htried. unfold checkAndInitialize.
  rewrite (final_bind_normal (modify _) _ s tt _ eq_refl). cbv beta.
  set (s0 := set_checkCount (checkCount s + 1)%Z s).
  rewrite (final_bind_normal get _ s0 s0 s0 eq_refl). cbv beta.
  change (hasTriedInitialization s0) with (hasTriedInitialization s).
  rewrite Hplay, Htried. simpl andb. cbv iota.
  set (s1 := set_hasTriedInitialization true s0).
  set (s2 := set_events (events s1 ++ [logged initLog]) s1).
  destruct (initializeAudioVisualizer_normal w s2) as [s3 Hinit].
  pose proof (initializeAudioVisualizer_acquiring w s2) as HA.
  rewrite Hinit in HA. simpl in HA.
  rewrite (final_bind_normal _ _ s0 tt (set_thenPending true s3)).
  2:{ change (match initializeAudioVisualizer w s2 with
              | Normal _ s' => Normal tt (set_thenPending true s')
              | Return s' => Return s'
              | Throw e s' => Throw e s'
              end = Normal tt (set_thenPending true s3)).
      rewrite Hinit. reflexivity. }
  cbv beta.
  rewrite (final_bind_normal get _ _ _ _ eq_refl). cbv beta.
  match goal with
  | |- context [final (when ?b ?m ?st)] =>
      pose proof (respects_when (R := Background) b m (animate_background w) st) as HB;
      set (s5 := final (when b m st)) in *
  end.
  pose proof (acquisitions_background _ _ HB) as Hacq.
  pose proof (acquisitions_acquiring _ _ HA) as Hacq3.
  destruct HB as [_ [_ [[Ht [Hp _]] _]]]. destruct HA as [[Ht3 _] _].
  simpl in Ht, Hp, Ht3.
  split; [congruence|]. split; [congruence|].
  rewrite Hacq. change (acquisitions (set_thenPending true s3)) with (acquisitions s3).
  rewrite Hacq3. unfold acquisitions. simpl. rewrite count_snoc.
  change (isAcquisition (logged initLog)) with true. cbv iota. lia.
Qed.

Lemma check_idles {math : JSMath} w s :
  playing w && negb (hasTriedInitialization s) = false ->
  let s' := final (checkAndInitialize w s) in
  hasTriedInitialization s' = playing w && hasTriedInitialization s /\
  thenPending s' = thenPending s /\
  acquisitions s' = acquisitions s.
Proof.
  intros Htest. unfold checkAndInitialize.
  rewrite (final_bind_normal (modify _) _ s tt _ eq_refl). cbv beta.
  set (s0 := set_checkCount (checkCount s + 1)%Z s).
  rewrite (final_bind_normal get _ s0 s0 s0 eq_refl). cbv beta.
  change (hasTriedInitialization s0) with (hasTriedInitialization s).
  rewrite Htest.
  set (s1 := if negb (playing w) && hasTriedInitialization s
             then set_hasTriedInitialization false s0 else s0).
  rewrite (final_bind_normal _ _ s0 tt s1).
  2:{ unfold s1. destruct (negb (playing w) && hasTriedInitialization s); reflexivity. }
  cbv beta.
  rewrite (final_bind_normal get _ _ _ _ eq_refl). cbv beta.
  match goal with
  | |- context [final (when ?b ?m ?st)] =>
      pose proof (respects_when (R := Background) b m (animate_background w) st) as HB;
      set (s5 := final (when b m st)) in *
  end.
  pose proof (acquisitions_background _ _ HB) as Hacq.
  destruct HB as [_ [_ [[Ht [Hp _]] _]]].
  rewrite Ht, Hp, Hacq. unfold s1.
  destruct (playing w) eqn:Hplay, (hasTriedInitialization s) eqn:Htried;
    simpl in *; try discriminate; rewrite ?Htried; auto.
Qed.

Lemma pollTick_cases {math : JSMath} (w : World) (s : State) :
  let s' := pollTick w s in
  thenPending s' = false /\
  (playing w = false ->
     acquisitions s' = acquisitions s /\ hasTriedInitialization s' = false) /\
  (playing w = true -> hasTriedInitialization s = false ->
     acquisitions s' = S (acquisitions s) /\
     hasTriedInitialization s' = audioContext s' && isSome (analyser s')) /\
  (playing w = true -> hasTriedInitialization s = true -> thenPending s = false ->
     acquisitions s' = acquisitions s /\ hasTriedInitialization s' = true).
Proof.
  unfold pollTick.
  destruct (runThen_final (final (checkAndInitialize w s))) as [Hp [Hctx [Han [Hacq Ht]]]].
  split; [exact Hp|]. split; [|split].
  - intros Hplay. destruct (check_idles w s) as [C1 [C2 C3]].
    { rewrite Hplay. reflexivity. }
    rewrite Hacq, Ht, C1, C3, Hplay. auto.
  - intros Hplay Htried. destruct (check_attempts w s Hplay Htried) as [C1 [C2 C3]].
    rewrite Hacq, Ht, Hctx, Han, C1, C2, C3. auto.
  - intros Hplay Htried Hpend. destruct (check_idles w s) as [C1 [C2 C3]].
    { rewrite Hplay, Htried. reflexivity. }
    rewrite Hacq, Ht, C1, C2, C3, Hplay, Htried, Hpend. auto.
Qed.




(** * Further properties of the code *)

(** ** The silence test on whole numbers *)

Lemma binTotal_bounds (arr : list byte) (lo hi : Z) :
  Forall (fun b => (lo <= Z.of_N (Byte.to_N b) <= hi)%Z) arr ->
  (lo * Z.of_nat (List.length arr) <= binTotal arr <= hi * Z.of_nat (List.length arr))%Z.
Proof.
  induction 1 as [|b arr Hb _ IH]; simpl binTotal; simpl List.length; lia.
Qed.

(** X1. A snapshot that is not empty is silent exactly when its bins sum
    to at most five times their number (1280 for the 256 bins of the
    analyser): bins that are all at most 5 are silent, bins that are all at
    least 6 are not. *)
Theorem silent_iff_total (arr : list byte) :
  arr <> [] ->
  (isSilent arr = true <-> (binTotal arr <= 5 * Z.of_nat (List.length arr))%Z) /\
  (List.length arr = 256%nat -> (isSilent arr = true <-> (binTotal arr <= 1280)%Z)) /\
  (Forall (fun b => (Byte.to_N b <= 5)%N) arr -> isSilent arr = true) /\
  (Forall (fun b => (6 <= Byte.to_N b)%N) arr -> isSilent arr = false).
Proof.
  intro Hne.
  assert (Hlen : (0 < Z.of_nat (List.length arr))%Z).
  { destruct arr; [contradiction | simpl; lia]. }
  assert (Hiff : isSilent arr = true <-> (binTotal arr <= 5 * Z.of_nat (List.length arr))%Z).
  { rewrite isSilent_iff. unfold arithmeticMean.
    destruct (Z.of_nat (List.length arr)) as [|p|p]; try lia.
    unfold Qle, Qdiv, Qmult, Qinv, inject_Z. simpl. lia. }
  split; [exact Hiff|]. split; [|split].
  - intro H256. rewrite Hiff, H256. reflexivity.
  - intro Hall. apply Hiff.
    apply (binTotal_bounds arr 0 5). eapply Forall_impl; [|exact Hall].
    intros b Hb. simpl in Hb. lia.
  - intro Hall. apply not_true_is_false. intro Hs. apply Hiff in Hs.
    pose proof (binTotal_bounds arr 6 255) as Hb.
    assert (Forall (fun b => (6 <= Z.of_N (Byte.to_N b) <= 255)%Z) arr) as Hr.
    { eapply Forall_impl; [|exact Hall]. intros b Hb6. simpl in Hb6.
      pose proof (Byte.to_N_bounded b). lia. }
    specialize (Hb Hr). lia.
Qed.

Lemma silent_iff_total_witness :
  isSilent (x05 :: repeat x04 255) = true.
Proof.
  assert (Hne : x05 :: repeat x04 255 <> []) by discriminate.
  apply (proj1 (proj2 (proj2 (silent_iff_total _ Hne)))).
  apply Forall_forall. intros b [<- | Hb]; [vm_compute; discriminate|].
  apply repeat_spec in Hb. subst b. vm_compute. discriminate.
Defined.

(** ** Where the bars lie on the surface *)

Lemma byteQ_max (b : byte) : byteQ b <= 255.
Proof.
  unfold byteQ, num, Qle. simpl. pose proof (Byte.to_N_bounded b). lia.
Qed.

Lemma barHeight_max arr n cv i : barHeight arr n cv i <= num (cheight cv) * 1.5.
Proof.
  unfold barHeight.
  set (v := byteQ (nth (Z.to_nat (dataIndex arr n i)) arr x00)).
  assert (Hv : v <= 255) by apply byteQ_max.
  assert (Hk : 0 <= num (cheight cv) * (15 # 2550)).
  { apply Qmult_le_0_compat; [apply num_nonneg | lra]. }
  assert (Heq : v * config.sensitivity * (num (cheight cv) / 255)
                == v * (num (cheight cv) * (15 # 2550))).
  { unfold config.sensitivity. field. }
  rewrite Heq.
  apply Qle_trans with (255 * (num (cheight cv) * (15 # 2550))).
  - apply Qmult_le_compat_r; assumption.
  - lra.
Qed.

(** The slot of bar [i]: it starts at or after the left edge, and the painted
    bar ends a pixel before the right edge at the latest. *)
Lemma slot_inside (W : N) (n : Z) (i : nat) :
  (1 <= n)%Z -> (i < Z.to_nat n)%nat ->
  0 <= Qnat i * (num W / inject_Z n) /\
  Qnat i * (num W / inject_Z n) + (num W / inject_Z n - 1) <= num W - 1.
Proof.
  intros Hn Hi.
  assert (HB : 0 < inject_Z n) by (apply inject_Z_pos; lia).
  assert (Hs : 0 <= num W / inject_Z n).
  { apply Qle_shift_div_l; [exact HB | rewrite Qmult_0_l; apply num_nonneg]. }
  split; [apply Qmult_le_0_compat; [apply Qnat_nonneg | exact Hs]|].
  assert (Hi1 : Qnat i + 1 <= inject_Z n).
  { unfold Qnat, Qle. simpl. lia. }
  assert (Hmul : (Qnat i + 1) * (num W / inject_Z n) <= inject_Z n * (num W / inject_Z n)).
  { apply Qmult_le_compat_r; assumption. }
  rewrite Qmult_div_r in Hmul.
  - lra.
  - intro E. rewrite E in HB. exact (Qlt_irrefl 0 HB).
Qed.

(** The painted width of a bar: not negative while there are at most as
    many bars as pixels, negative beyond. *)
Lemma painted_width (W : N) (n : Z) :
  (1 <= n)%Z ->
  ((n <= Z.of_N W)%Z -> 0 <= num W / inject_Z n - 1) /\
  ((Z.of_N W < n)%Z -> num W / inject_Z n - 1 < 0).
Proof.
  intro Hn.
  assert (HB : 0 < inject_Z n) by (apply inject_Z_pos; lia).
  split; intro H.
  - assert (1 <= num W / inject_Z n).
    { apply Qle_shift_div_l; [exact HB|]. rewrite Qmult_1_l.
      unfold num, Qle. simpl. lia. }
    lra.
  - assert (num W / inject_Z n < 1).
    { apply Qlt_shift_div_r; [exact HB|]. rewrite Qmult_1_l.
      unfold num, Qlt. simpl. lia. }
    lra.
Qed.

(** X2.  On the canvas the plugin builds, 200 by 40, with a buffer that is
    not empty and [barCount * bins <= 2 ^ 50]: every bar that drawBars paints
    has the height [b * 1.5 * (40 / 255)] of a bin [b] of the buffer, between
    0 and 60 pixels, and its top lies between 20 pixels above the canvas and
    its bottom edge.  With at most 200 bars the painted width is not
    negative and the bar lies between the left and the right edge; with more
    than 200 bars the painted width [200 / barCount - 1] is negative. *)
Theorem bars_mode_bounds (w : World) (s s' : State) ctx arr cv :
  cwidth cv = config.width -> cheight cv = config.height ->
  arr <> [] ->
  (barCount (settings w) * Z.of_nat (List.length arr) <= 2 ^ 50)%Z ->
  canvasContext s = Some ctx -> dataArray s = Some arr -> canvas s = Some cv ->
  drawBars w s = Normal tt s' ->
  Forall (fun r =>
            (exists b, In b arr /\
                       rectHeight r = byteQ b * config.sensitivity * (40 / 255)) /\
            0 <= rectHeight r <= 60 /\
            -20 <= rectY r <= 40 /\
            ((1 <= barCount (settings w) <= 200)%Z ->
             0 <= rectX r /\ 0 <= rectWidth r /\ rectX r + rectWidth r <= 200) /\
            ((200 < barCount (settings w))%Z -> rectWidth r < 0))
         (bars (skipn (List.length (events s)) (events s'))).
Proof.
  intros Hw Hh Hne Hsmall Hctx Harr Hcv Hrun.
  destruct (drawBars_normal w s s' ctx arr cv Hctx Harr Hcv Hrun) as [evs [-> Hb]].
  simpl events. rewrite skipn_length_app, Hb.
  apply Forall_forall. intros r Hr. apply in_map_iff in Hr as [i [<- Hi]].
  apply in_seq in Hi. destruct Hi as [_ Hi]. simpl in Hi.
  assert (Hn : (1 <= barCount (settings w))%Z) by lia.
  destruct (slot_inside (cwidth cv) (barCount (settings w)) i Hn Hi) as [Hx Hright].
  destruct (painted_width (cwidth cv) (barCount (settings w)) Hn) as [Hpos Hneg].
  destruct (dataIndex_in_range arr (barCount (settings w)) i Hn Hi Hne Hsmall)
    as [_ Hin].
  pose proof (barHeight_nonneg arr (barCount (settings w)) cv i) as H0.
  pose proof (barHeight_max arr (barCount (settings w)) cv i) as H1.
  split.
  { exists (nth (Z.to_nat (dataIndex arr (barCount (settings w)) i)) arr x00).
    split; [apply nth_In; exact Hin|].
    unfold barRect, rectHeight, barHeight; simpl. rewrite Hh. reflexivity. }
  unfold barRect, rectHeight, rectY, rectX, rectWidth; simpl.
  rewrite Hw, Hh in *. unfold config.width, config.height in *.
  change (num 40) with 40 in *. change (num 200) with 200 in *.
  change (Z.of_N 200) with 200%Z in *.
  set (h := barHeight arr (barCount (settings w)) cv i) in *.
  set (slot := 200 / inject_Z (barCount (settings w))) in *.
  set (x := Qnat i * slot) in *.
  split; [split; lra|]. split; [split; lra|]. split.
  - intros [_ Hle]. specialize (Hpos Hle). repeat split; lra.
  - intro Hgt. exact (Hneg Hgt).
Qed.

Lemma bars_mode_bounds_witness :
  Forall (fun r => 0 <= rectHeight r <= 60 /\ -20 <= rectY r <= 40)
         (bars (skipn (List.length (events liveState))
                      (events (final (drawBars loudWorld liveState))))).
Proof.
  assert (H1 : canvasContext liveState
               = Some {| fillStyle := "#ffffff"; strokeStyle := "#ffffff" |})
    by (vm_compute; reflexivity).
  assert (H2 : dataArray liveState = Some (repeat xff 256)) by (vm_compute; reflexivity).
  assert (H3 : canvas liveState = Some {| cwidth := 200; cheight := 40 |})
    by (vm_compute; reflexivity).
  assert (H4 : drawBars loudWorld liveState
               = Normal tt (final (drawBars loudWorld liveState)))
    by (vm_compute; reflexivity).
  assert (H5 : repeat xff 256 <> []) by discriminate.
  assert (H6 : (barCount (settings loudWorld)
                * Z.of_nat (List.length (repeat xff 256)) <= 2 ^ 50)%Z)
    by (vm_compute; discriminate).
  pose proof (bars_mode_bounds loudWorld liveState _ _ _ {| cwidth := 200; cheight := 40 |}
                eq_refl eq_refl H5 H6 H1 H2 H3 H4) as H.
  eapply Forall_impl; [|exact H]. intros r Hr. split; apply Hr.
Defined.

Lemma waveBarHeight_max {math : JSMath} cv n t i :
  waveBarHeight cv n t i <= num (cheight cv) * 0.384 + 2.
Proof.
  unfold waveBarHeight.
  set (x := Qnat i / inject_Z n).
  pose proof (Math_sin_range (x * Math_PI * 2 + t)) as [L1 U1].
  pose proof (Math_sin_range (x * Math_PI * 4 + t * 1.3)) as [L2 U2].
  pose proof (Math_sin_range (x * Math_PI * 6 + t * 0.7)) as [L3 U3].
  pose proof (Math_sin_range (x * Math_PI * 3 - t * 2)) as [L4 U4].
  set (a1 := Math_sin (x * Math_PI * 2 + t)) in *.
  set (a2 := Math_sin (x * Math_PI * 4 + t * 1.3)) in *.
  set (a3 := Math_sin (x * Math_PI * 6 + t * 0.7)) in *.
  set (a4 := Math_sin (x * Math_PI * 3 - t * 2)) in *.
  set (c := (a1 * 0.3 + a2 * 0.2 + a3 * 0.1 + 1) / 2).
  set (tr := a4 * 0.5 + 0.5).
  set (m := num (cheight cv) * 0.6).
  assert (Hc : 0 <= c <= 0.8).
  { unfold c. split.
    - apply Qle_shift_div_l; [reflexivity | lra].
    - apply Qle_shift_div_r; [reflexivity | lra]. }
  assert (Ht : 0 <= tr <= 1) by (unfold tr; lra).
  assert (Hm : 0 <= m) by (apply Qmult_le_0_compat; [apply num_nonneg | lra]).
  assert (H1 : m * c <= m * 0.8).
  { apply Qmult_le_compat_nonneg; split; try lra; apply Hc. }
  assert (H1' : 0 <= m * c) by (apply Qmult_le_0_compat; [exact Hm | apply Hc]).
  assert (H2 : m * c * tr <= m * 0.8 * 1).
  { apply Qmult_le_compat_nonneg; split; try assumption; apply Ht. }
  assert (Hmeq : m * 0.8 * 1 == num (cheight cv) * 0.48) by (unfold m; ring).
  clearbody c tr m. clear - H2 Hmeq. lra.
Qed.

(** X3.  On the canvas the plugin builds, 200 by 40, every bar of the idle
    wave is between 2 and 18 pixels high and lies between rows 11 and 29:
    inside the canvas from top to bottom, around its middle.  From left to
    right it is as in bars mode: inside the canvas with at most 200 bars, of
    negative painted width with more. *)
Theorem idle_wave_bounds {math : JSMath} (w : World) (s s' : State) ctx cv :
  cwidth cv = config.width -> cheight cv = config.height ->
  canvasContext s = Some ctx -> canvas s = Some cv ->
  drawScrollingWave w s = Normal tt s' ->
  Forall (fun r =>
            2 <= rectHeight r <= 18 /\
            11 <= rectY r /\ rectY r + rectHeight r <= 29 /\
            ((1 <= barCount (settings w) <= 200)%Z ->
             0 <= rectX r /\ 0 <= rectWidth r /\ rectX r + rectWidth r <= 200) /\
            ((200 < barCount (settings w))%Z -> rectWidth r < 0))
         (bars (skipn (List.length (events s)) (events s'))).
Proof.
  intros Hw Hh Hctx Hcv Hrun.
  destruct (drawScrollingWave_normal w s s' ctx cv Hctx Hcv Hrun) as [evs [-> Hb]].
  simpl events. rewrite skipn_length_app, Hb.
  apply Forall_forall. intros r Hr. apply in_map_iff in Hr as [i [<- Hi]].
  apply in_seq in Hi. destruct Hi as [_ Hi]. simpl in Hi.
  assert (Hn : (1 <= barCount (settings w))%Z) by lia.
  destruct (slot_inside (cwidth cv) (barCount (settings w)) i Hn Hi) as [Hx Hright].
  destruct (painted_width (cwidth cv) (barCount (settings w)) Hn) as [Hpos Hneg].
  pose proof (waveBarHeight_min cv (barCount (settings w)) (waveTime s + 0.05) i) as Hlo.
  pose proof (waveBarHeight_max cv (barCount (settings w)) (waveTime s + 0.05) i) as Hhi.
  unfold waveRect, rectHeight, rectY, rectX, rectWidth; simpl.
  rewrite Hw, Hh in *. unfold config.width, config.height in *.
  change (num 40) with 40 in *. change (num 200) with 200 in *.
  change (Z.of_N 200) with 200%Z in *.
  set (h := waveBarHeight cv (barCount (settings w)) (waveTime s + 0.05) i) in *.
  set (slot := 200 / inject_Z (barCount (settings w))) in *.
  set (x := Qnat i * slot) in *.
  assert (Hy : (40 - h) / 2 == (40 - h) * (1 # 2)) by field.
  rewrite Hy.
  split; [split; lra|]. split; [lra|]. split; [lra|]. split.
  - intros [_ Hle]. specialize (Hpos Hle). repeat split; lra.
  - intro Hgt. exact (Hneg Hgt).
Qed.

Lemma idle_wave_bounds_witness :
  Forall (fun r => 2 <= rectHeight r <= 18)
         (bars (skipn (List.length (events surfaceState))
                      (events (final (drawScrollingWave quietWorld surfaceState))))).
Proof.
  assert (H1 : canvasContext surfaceState
               = Some {| fillStyle := "#000000"; strokeStyle := "#000000" |})
    by (vm_compute; reflexivity).
  assert (H2 : canvas surfaceState = Some {| cwidth := 200; cheight := 40 |})
    by (vm_compute; reflexivity).
  assert (H3 : drawScrollingWave quietWorld surfaceState
               = Normal tt (final (drawScrollingWave quietWorld surfaceState)))
    by (vm_compute; reflexivity).
  pose proof (idle_wave_bounds quietWorld surfaceState _ _ {| cwidth := 200; cheight := 40 |}
                eq_refl eq_refl H1 H2 H3) as H.
  eapply Forall_impl; [|exact H]. intros r Hr. exact (proj1 Hr).
Defined.

(** ** Locating the media element *)

Lemma firstMatch_spec w (sels : list string) :
  match firstMatch w sels with
  | Some el =>
      exists before sel after,
        sels = before ++ sel :: after /\
        querySelector w sel = Some el /\ isMedia el = true /\
        (forall s0 e, In s0 before -> querySelector w s0 = Some e -> isMedia e = false)
  | None =>
      forall s0 e, In s0 sels -> querySelector w s0 = Some e -> isMedia e = false
  end.
Proof.
  induction sels as [|sel rest IH]; simpl.
  - intros s0 e [].
  - destruct (querySelector w sel) as [el|] eqn:Hq.
    + destruct (isMedia el) eqn:Hm.
      * exists [], sel, rest. simpl. repeat split; auto. intros s0 e [].
      * destruct (firstMatch w rest) as [found|].
        -- destruct IH as [before [s1 [after [-> [H1 [H2 H3]]]]]].
           exists (sel :: before), s1, after. simpl. repeat split; auto.
           intros s0 e [<- | Hin] Hs0; [congruence | eauto].
        -- intros s0 e [<- | Hin] Hs0; [congruence | eauto].
    + destruct (firstMatch w rest) as [found|].
      * destruct IH as [before [s1 [after [-> [H1 [H2 H3]]]]]].
        exists (sel :: before), s1, after. simpl. repeat split; auto.
        intros s0 e [<- | Hin] Hs0; [congruence | eauto].
      * intros s0 e [<- | Hin] Hs0; [congruence | eauto].
Qed.

Lemma find_first {A} (p : A -> bool) (l : list A) :
  match find p l with
  | Some a => exists l1 l2, l = l1 ++ a :: l2 /\ p a = true /\
                            forall b, In b l1 -> p b = false
  | None => forall b, In b l -> p b = false
  end.
Proof.
  induction l as [|a l IH]; simpl.
  - intros b [].
  - destruct (p a) eqn:Hp.
    + exists [], l. simpl. repeat split; auto. intros b [].
    + destruct (find p l) as [found|].
      * destruct IH as [l1 [l2 [-> [H1 H2]]]].
        exists (a :: l1), l2. simpl. repeat split; auto.
        intros b [<- | Hin]; auto.
      * intros b [<- | Hin]; auto.
Qed.

(** X4. findAudioElement answers with the element of the first selector, in
    the order audio, video, audio[data-test], [data-test="audio-player"]
    audio, whose match is an AUDIO or VIDEO element - whether or not it has a
    source; only when no selector gives one, with the first scanned element
    that has a [src] or a [currentSrc]; and with null exactly when there is
    neither. *)
Theorem findAudioElement_first (w : World) :
  let unmatched := fun sels =>
    forall sel e, In sel sels -> querySelector w sel = Some e -> isMedia e = false in
  let sourced := fun el => truthy (src el) || truthy (currentSrc el) in
  match findAudioElement w with
  | Some el =>
      (exists before sel after,
         selectors = before ++ sel :: after /\
         querySelector w sel = Some el /\ isMedia el = true /\ unmatched before)
      \/
      (unmatched selectors /\
       exists l1 l2,
         querySelectorAll w "audio, video" = l1 ++ el :: l2 /\
         sourced el = true /\ forall b, In b l1 -> sourced b = false)
  | None =>
      unmatched selectors /\
      forall b, In b (querySelectorAll w "audio, video") ->
                src b = ""%string /\ currentSrc b = ""%string
  end.
Proof.
  intros unmatched sourced. unfold findAudioElement.
  pose proof (firstMatch_spec w selectors) as Hsel.
  destruct (firstMatch w selectors) as [el|].
  - left. exact Hsel.
  - pose proof (find_first sourced (querySelectorAll w "audio, video")) as Hscan.
    fold sourced.
    destruct (find sourced (querySelectorAll w "audio, video")) as [el|].
    + right. split; [exact Hsel | exact Hscan].
    + split; [exact Hsel|]. intros b Hb. specialize (Hscan b Hb).
      unfold sourced in Hscan. apply orb_false_elim in Hscan as [H1 H2].
      destruct (src b), (currentSrc b); try discriminate. auto.
Qed.

(** ** Acquisition: the direct tap *)

Lemma directTap_normal w el s s' :
  directTap w el s = Normal tt s' ->
  s' = set_events
         (events s ++ [CreateMediaElementSource (elemId el);
                       Connect ElementSource AnalyserOut;
                       Connect AnalyserOut Destination;
                       logged "Connected via MediaElementSource"])
         (set_audioSource (Some (elemId el)) s).
Proof.
  intro H. unfold directTap in H.
  step H. apply perform_normal in Hm as [_ ->].
  step H. inversion Hm; subst; clear Hm.
  step H. apply perform_normal in Hm as [_ ->].
  step H. apply perform_normal in Hm as [_ ->].
  inversion H; subst; clear H.
  unfold set_events, set_audioSource; simpl. rewrite <- !app_assoc. reflexivity.
Qed.

Lemma quiet_no_fallback evs : forallb quietEvent evs = true -> count isFallbackCall evs = 0%nat.
Proof.
  apply count_none. intros e He. unfold quietEvent, connQuiet in He.
  destruct e; try reflexivity; discriminate.
Qed.

(** The wrapper of lines 91 and 169-172 around a body: the call ends
    normally in the state the body ended in, with the caught exception
    logged. *)
Lemma wrapped_final (body : M unit) s :
  exists s' tail,
    call (try_catch body (fun err => console_error err)) s = Normal tt s' /\
    s' = set_events (events (final (body s)) ++ tail) (final (body s)) /\
    count isFallbackCall tail = 0%nat /\ count isDisconnect tail = 0%nat.
Proof.
  unfold call, try_catch.
  destruct (body s) as [[] sx|sx|ex sx]; simpl.
  - exists sx, []. rewrite set_events_nil. auto.
  - exists sx, []. rewrite set_events_nil. auto.
  - eexists. exists [ConsoleError ex]. repeat split.
Qed.

(** X5. An element is found, nothing is connected and the element is not
    the recorded one: when the direct tap goes through, the routine ends
    connected with the element recorded and its source node kept in
    [audioSource], and it makes none of the fallback's calls. *)
Theorem direct_tap_connects {math : JSMath} (w : World) (s : State) (el : Element) :
  findAudioElement w = Some el ->
  isSourceConnected s = false ->
  sameElement el (currentAudioElement s) = false ->
  (forall s0, exists s1, ensureAudioGraph w s0 = Normal tt s1) ->
  (forall s0, exists s1, directTap w el s0 = Normal tt s1) ->
  exists s',
    initializeAudioVisualizer w s = Normal tt s' /\
    isSourceConnected s' = true /\
    currentAudioElement s' = Some el /\
    audioSource s' = Some (elemId el) /\
    In (logged "Connected via MediaElementSource")
       (skipn (List.length (events s)) (events s')) /\
    fallbackCalls s' = fallbackCalls s.
Proof.
  intros Hfind Hnc Hdiff He Hd.
  destruct (He s) as [s1 He1].
  pose proof (ensureAudioGraph_quiet w s) as Q1. rewrite He1 in Q1. simpl in Q1.
  destruct Q1 as [[Q1c [Q1e _]] [_ [e1 [T1 A1]]]].
  destruct (Hd s1) as [s2 Hd2].
  pose proof (directTap_normal w el s1 s2 Hd2) as E2.
  assert (Hsrc : audioSource s2 = Some (elemId el)) by (rewrite E2; reflexivity).
  assert (T2 : events s2
               = events s1 ++ [CreateMediaElementSource (elemId el);
                               Connect ElementSource AnalyserOut;
                               Connect AnalyserOut Destination;
                               logged "Connected via MediaElementSource"])
    by (rewrite E2; reflexivity).
  clear E2.
  set (s5 := set_isSourceConnected true (set_currentAudioElement (Some el) s2)).
  assert (Hat : attemptConnection w el s1 = Normal tt s5).
  { unfold attemptConnection. change (bind get ?k s1) with (k s1 s1). cbv beta.
    rewrite Q1c, Q1e, Hnc, Hdiff. simpl.
    unfold bind at 1, try_catch at 1. rewrite Hd2. reflexivity. }
  pose proof (resumeAndShow_background w s5) as B6.
  destruct B6 as [_ [[B6c [B6e B6s]] [_ [e6 [T6 A6]]]]].
  assert (Hbody : final ((ensureAudioGraph w ;; attemptConnection w el ;; resumeAndShow w) s)
                  = final (resumeAndShow w s5)).
  { unfold bind. rewrite He1, Hat. destruct (resumeAndShow w s5); reflexivity. }
  destruct (wrapped_final
              (ensureAudioGraph w ;; attemptConnection w el ;; resumeAndShow w) s)
    as [s' [tail [Hrun [Hs' [Htail _]]]]].
  rewrite Hbody in Hs'.
  set (s6 := final (resumeAndShow w s5)) in *.
  change (events s5) with (events s2) in T6.
  change (isSourceConnected s5) with true in B6c.
  change (currentAudioElement s5) with (Some el) in B6e.
  change (audioSource s5) with (audioSource s2) in B6s.
  assert (Hev : events s'
                = events s ++ e1
                  ++ [CreateMediaElementSource (elemId el);
                      Connect ElementSource AnalyserOut;
                      Connect AnalyserOut Destination;
                      logged "Connected via MediaElementSource"]
                  ++ e6 ++ tail).
  { rewrite Hs'. unfold set_events; simpl. rewrite T6, T2, T1, <- !app_assoc. reflexivity. }
  exists s'. split.
  { unfold initializeAudioVisualizer. rewrite Hfind. exact Hrun. }
  split; [rewrite Hs'; exact B6c|].
  split; [rewrite Hs'; exact B6e|].
  split; [rewrite Hs'; simpl; congruence|].
  split.
  - rewrite Hev, skipn_length_app. rewrite !in_app_iff. simpl. tauto.
  - unfold fallbackCalls. rewrite Hev.
    rewrite !count_app, (quiet_no_fallback e1 A1), (quiet_no_fallback e6 A6), Htail.
    unfold count. simpl. lia.
Qed.

Lemma direct_tap_connects_witness :
  exists s',
    initializeAudioVisualizer loudWorld initialState = Normal tt s' /\
    isSourceConnected s' = true /\
    currentAudioElement s' = Some player /\
    audioSource s' = Some (elemId player) /\
    In (logged "Connected via MediaElementSource")
       (skipn (List.length (events initialState)) (events s')) /\
    fallbackCalls s' = fallbackCalls initialState.
Proof.
  apply (direct_tap_connects loudWorld initialState player).
  - reflexivity.
  - reflexivity.
  - reflexivity.
  - intro s0. unfold ensureAudioGraph, bind, get, when, perform, emit, modify, log, skip, ret.
    simpl. destruct (audioContext s0); simpl;
      match goal with
      | |- context [analyser ?st] => destruct (analyser st)
      end; simpl; eexists; reflexivity.
  - intro s0. eexists. reflexivity.
Defined.

(** ** Guarded relations *)

#[export] Instance grows_PreOrder ok : RelationClasses.PreOrder (grows ok) :=
  {| RelationClasses.PreOrder_Reflexive := grows_refl ok;
     RelationClasses.PreOrder_Transitive := grows_trans ok |}.

Lemma Guarded_refl g (R : State -> State -> Prop) {PR : RelationClasses.PreOrder R} s :
  Guarded g R s s.
Proof. intro Hg. split; [exact Hg | reflexivity]. Qed.

Lemma Guarded_trans g (R : State -> State -> Prop) {PR : RelationClasses.PreOrder R}
    s1 s2 s3 :
  Guarded g R s1 s2 -> Guarded g R s2 s3 -> Guarded g R s1 s3.
Proof.
  intros H1 H2 Hg. destruct (H1 Hg) as [Hg2 R1]. destruct (H2 Hg2) as [Hg3 R2].
  split; [exact Hg3 | etransitivity; eassumption].
Qed.

#[export] Instance Guarded_PreOrder g (R : State -> State -> Prop)
    {PR : RelationClasses.PreOrder R} : RelationClasses.PreOrder (Guarded g R) :=
  {| RelationClasses.PreOrder_Reflexive := Guarded_refl g R;
     RelationClasses.PreOrder_Transitive := Guarded_trans g R |}.

Lemma grows_emit ok e s : ok e = true -> grows ok s (set_events (events s ++ [e]) s).
Proof. intro He. exists [e]. simpl. rewrite He. auto. Qed.

Lemma grows_same ok s s' : events s' = events s -> grows ok s s'.
Proof. intro H. exists []. rewrite app_nil_r. auto. Qed.

Lemma Guarded_weaken g (R0 R : State -> State -> Prop) {A} (m : M A) :
  (forall s s', R0 s s' -> g s -> g s' /\ R s s') ->
  respects R0 m -> respects (Guarded g R) m.
Proof. intros Himp Hm s Hg. exact (Himp _ _ (Hm s) Hg). Qed.

(** ** Shutdown and the source node *)

#[export] Instance SourceNull_PreOrder : RelationClasses.PreOrder SourceNull :=
  Guarded_PreOrder _ _.

Lemma SourceNull_emit e : notDisconnect e = true -> respects SourceNull (emit e).
Proof.
  intros He. apply respects_modify. intros s Hg.
  split; [exact Hg | apply grows_emit, He].
Qed.

Lemma Background_as_SourceNull {A} (m : M A) :
  respects Background m -> respects SourceNull m.
Proof.
  apply Guarded_weaken. intros s s' [_ [[_ [_ Hsrc]] [_ Hg]]] Hnull.
  split; [congruence|]. eapply grows_weaken; [|exact Hg].
  intros e He. unfold quietEvent, connQuiet in He. unfold notDisconnect.
  destruct e; try reflexivity; discriminate.
Qed.

#[export] Hint Extern 1 (respects SourceNull (emit _)) =>
  apply SourceNull_emit; reflexivity : respects.
#[export] Hint Extern 1 (respects SourceNull (modify _)) =>
  apply respects_modify; intros ? ?; split;
  [simpl; solve [assumption | reflexivity] | apply grows_same; reflexivity] : respects.
#[export] Hint Extern 4 (respects SourceNull _) =>
  apply Background_as_SourceNull : respects.

Lemma completeCleanup_sourceNull w : respects SourceNull (completeCleanup w).
Proof.
  unfold completeCleanup.
  apply respects_bind; [respect|]. intros _.
  apply respects_bind; [respect|]. intros _.
  apply respects_bind; [respect|]. intros _.
  intros s Hnull. change (bind get ?k s) with (k s s). cbv beta.
  rewrite Hnull. simpl isSome. unfold when at 1.
  revert s Hnull.
  change (respects SourceNull
            (skip ;;
             s0 <- get ;;
             when (audioContext s0
                   && negb (match contextState w with Closed => true | _ => false end))
               (perform w ContextClose ;; log "Closed AudioContext") ;;
             modify (set_audioContext false) ;;
             modify (set_analyser None) ;;
             modify (set_audioSource None) ;;
             modify (set_dataArray None) ;;
             modify (set_currentAudioElement None) ;;
             modify (set_isSourceConnected false))).
  respect.
Qed.

Lemma streamTap_keeps_source w el s :
  audioSource (final (streamTap w el s)) = audioSource s.
Proof.
  unfold streamTap, captureAny, bind, perform, emit, modify, throw, skip, ret, log.
  destruct (captureStream el) as [[st|]|]; destruct (mozCaptureStream el) as [[st'|]|];
    simpl;
    repeat match goal with
           | |- context [if ?b then _ else _] => destruct b; simpl
           end; reflexivity.
Qed.

Lemma disconnects_sourceNull s s' :
  audioSource s = None -> SourceNull s s' -> disconnects s' = disconnects s.
Proof.
  intros Hnull H. destruct (H Hnull) as [_ Hg]. unfold disconnects.
  apply (grows_count notDisconnect); [|exact Hg].
  intros e He. unfold notDisconnect in He. destruct (isDisconnect e); [discriminate|reflexivity].
Qed.

Lemma fallback_connected_source {math : JSMath} (w : World) (s : State) (el : Element) :
  findAudioElement w = Some el ->
  isSourceConnected s = false ->
  sameElement el (currentAudioElement s) = false ->
  audioSource s = None ->
  faults w (CreateMediaElementSource (elemId el)) = true ->
  (forall s0, exists s1, ensureAudioGraph w s0 = Normal tt s1) ->
  (forall s0, exists s1, streamTap w el s0 = Normal tt s1) ->
  isSourceConnected (final (initializeAudioVisualizer w s)) = true /\
  audioSource (final (initializeAudioVisualizer w s)) = None.
Proof.
  intros Hfind Hnc Hdiff Hnull Hfault He Hs.
  destruct (He s) as [s1 He1].
  pose proof (ensureAudioGraph_quiet w s) as Q1. rewrite He1 in Q1. simpl in Q1.
  destruct Q1 as [[Q1c [Q1e Q1s]] _].
  set (s2 := set_events (events s1 ++ [CreateMediaElementSource (elemId el)]) s1).
  set (s3 := set_events
               (events s2 ++ [logged
                  "MediaElementSource failed, attempting captureStream fallback..."]) s2).
  destruct (Hs s3) as [s4 Hs4].
  pose proof (streamTap_keeps_source w el s3) as K4. rewrite Hs4 in K4. simpl in K4.
  set (s5 := set_isSourceConnected true (set_currentAudioElement (Some el) s4)).
  assert (Hat : attemptConnection w el s1 = Normal tt s5).
  { unfold attemptConnection. change (bind get ?k s1) with (k s1 s1). cbv beta.
    rewrite Q1c, Q1e, Hnc, Hdiff. simpl.
    unfold bind at 1, try_catch at 1.
    assert (Hd : directTap w el s1 = Throw "exception thrown by the browser" s2).
    { unfold directTap, bind, perform, emit, modify, throw. rewrite Hfault. reflexivity. }
    rewrite Hd.
    unfold bind at 1, log, emit, modify, try_catch. fold s3. rewrite Hs4.
    reflexivity. }
  pose proof (resumeAndShow_background w s5) as B6.
  destruct B6 as [_ [[B6c [_ B6s]] _]].
  assert (Hbody : final ((ensureAudioGraph w ;; attemptConnection w el ;; resumeAndShow w) s)
                  = final (resumeAndShow w s5)).
  { unfold bind. rewrite He1, Hat. destruct (resumeAndShow w s5); reflexivity. }
  destruct (wrapped_final
              (ensureAudioGraph w ;; attemptConnection w el ;; resumeAndShow w) s)
    as [s' [tail [Hrun [Hs' _]]]].
  rewrite Hbody in Hs'.
  unfold initializeAudioVisualizer. rewrite Hfind, Hrun. simpl. rewrite Hs'. simpl.
  split; [exact B6c|]. rewrite B6s. simpl. rewrite K4. simpl. congruence.
Qed.

(** X6. The source node of the fallback is a local of the routine: when
    createMediaElementSource throws and the stream capture connects,
    [audioSource] stays null although the path is connected; and with
    [audioSource] null the shutdown makes no [disconnect] call at all, so
    that source is only released by closing the context. *)
Theorem fallback_source_not_disconnected {math : JSMath}
    (w : World) (s : State) (el : Element) :
  findAudioElement w = Some el ->
  isSourceConnected s = false ->
  sameElement el (currentAudioElement s) = false ->
  audioSource s = None ->
  faults w (CreateMediaElementSource (elemId el)) = true ->
  (forall s0, exists s1, ensureAudioGraph w s0 = Normal tt s1) ->
  (forall s0, exists s1, streamTap w el s0 = Normal tt s1) ->
  let s1 := final (initializeAudioVisualizer w s) in
  isSourceConnected s1 = true /\
  audioSource s1 = None /\
  forall w2, disconnects (final (completeCleanup w2 s1)) = disconnects s1.
Proof.
  intros Hfind Hnc Hdiff Hnull Hfault He Hs s1.
  destruct (fallback_connected_source w s el Hfind Hnc Hdiff Hnull Hfault He Hs)
    as [Hc Hsrc].
  split; [exact Hc|]. split; [exact Hsrc|].
  intro w2. apply disconnects_sourceNull; [exact Hsrc | apply completeCleanup_sourceNull].
Qed.

Lemma fallback_source_not_disconnected_witness :
  audioSource (final (initializeAudioVisualizer protectedWorld initialState)) = None /\
  disconnects (final (completeCleanup quietWorld
                        (final (initializeAudioVisualizer protectedWorld initialState))))
  = disconnects (final (initializeAudioVisualizer protectedWorld initialState)).
Proof.
  assert (He : forall s0, exists s1, ensureAudioGraph protectedWorld s0 = Normal tt s1).
  { intro s0. unfold ensureAudioGraph, bind, get, when, perform, emit, modify, log, skip, ret.
    simpl. destruct (audioContext s0); simpl;
      match goal with
      | |- context [analyser ?st] => destruct (analyser st)
      end; simpl; eexists; reflexivity. }
  assert (Hs : forall s0, exists s1, streamTap protectedWorld player s0 = Normal tt s1).
  { intro s0. eexists. reflexivity. }
  destruct (fallback_source_not_disconnected protectedWorld initialState player
              eq_refl eq_refl eq_refl eq_refl eq_refl He Hs) as [_ [Hsrc Hdis]].
  split; [exact Hsrc | exact (Hdis quietWorld)].
Defined.

(** X7. The shutdown resets all or nothing.  Run to its end it has reset the
    six audio variables, the frame id and the container; a [disconnect] that
    throws is absorbed and never ends it.  When it does end with an exception
    - from cancelAnimationFrame, from removing the container or from closing
    the context - the six audio variables are exactly as before, the
    connection flag included. *)
Theorem shutdown_all_or_nothing (w : World) (s : State) :
  match completeCleanup w s with
  | Normal _ s' =>
      audioContext s' = false /\ analyser s' = None /\ audioSource s' = None /\
      dataArray s' = None /\ currentAudioElement s' = None /\
      isSourceConnected s' = false /\
      animationId s' = None /\ visualizerContainer s' = false /\
      waveTime s' = waveTime s
  | Return _ => False
  | Throw _ s' =>
      (audioContext s' = audioContext s /\ analyser s' = analyser s /\
       audioSource s' = audioSource s /\ dataArray s' = dataArray s /\
       currentAudioElement s' = currentAudioElement s /\
       isSourceConnected s' = isSourceConnected s) /\
      ((exists id, animationId s = Some id /\ faults w (CancelAnimationFrame id) = true) \/
       faults w RemoveContainer = true \/ faults w ContextClose = true)
  end.
Proof.
  unfold completeCleanup, stopAnimation, removeVisualizerUI, when, try_catch,
    bind, get, perform, emit, modify, log, throw, skip, ret.
  repeat (simpl;
          match goal with
          | |- context [faults w ?e] => destruct (faults w e) eqn:?
          | |- context [match animationId s with _ => _ end] =>
              destruct (animationId s) eqn:?
          | |- context [if visualizerContainer s then _ else _] =>
              destruct (visualizerContainer s) eqn:?
          | |- context [isSome (audioSource s)] => destruct (audioSource s) eqn:?
          | |- context [if audioContext s && _ then _ else _] =>
              destruct (audioContext s) eqn:?
          | |- context [match contextState w with _ => _ end] =>
              destruct (contextState w) eqn:?
          end);
    simpl;
    first
      [ split;
        [ repeat split; auto
        | first [ left; eexists; split; [reflexivity | eassumption]
                | right; left; assumption
                | right; right; assumption ] ]
      | repeat split; auto ].
Qed.

(** ** What the surface procedures call *)

Lemma grows_emit_respects ok e : ok e = true -> respects (grows ok) (emit e).
Proof. intros He. apply respects_modify. intro s. apply grows_emit, He. Qed.

#[export] Hint Extern 1 (respects (grows _) (emit _)) =>
  apply grows_emit_respects; reflexivity : respects.
#[export] Hint Extern 1 (respects (grows _) (modify _)) =>
  apply respects_modify; intro; apply grows_same;
  repeat match goal with
         | |- context [match ?x with _ => _ end] => destruct x
         end; reflexivity : respects.

Lemma removeVisualizerUI_ui w : respects (grows uiEvent) (removeVisualizerUI w).
Proof. unfold removeVisualizerUI. respect. Qed.
#[export] Hint Resolve removeVisualizerUI_ui : respects.

Lemma createVisualizerUI_ui w : respects (grows uiEvent) (createVisualizerUI w).
Proof. unfold createVisualizerUI. respect. Qed.
#[export] Hint Resolve createVisualizerUI_ui : respects.

Lemma setFillStyle_ui c : respects (grows uiEvent) (setFillStyle c).
Proof. unfold setFillStyle. respect. Qed.
#[export] Hint Resolve setFillStyle_ui : respects.

Lemma drawRoundedRect_ui w x y wd h r :
  respects (grows uiEvent) (drawRoundedRect w x y wd h r).
Proof. unfold drawRoundedRect. respect. Qed.
#[export] Hint Resolve drawRoundedRect_ui : respects.

Lemma drawScrollingWave_ui {math : JSMath} w :
  respects (grows uiEvent) (drawScrollingWave w).
Proof. unfold drawScrollingWave. respect. Qed.
#[export] Hint Resolve drawScrollingWave_ui : respects.

Lemma drawBars_ui w : respects (grows uiEvent) (drawBars w).
Proof. unfold drawBars. respect. Qed.
#[export] Hint Resolve drawBars_ui : respects.

Lemma renderFrame_ui {math : JSMath} w cv : respects (grows uiEvent) (renderFrame w cv).
Proof. unfold renderFrame, drawWaveform, drawCircular. respect. Qed.
#[export] Hint Resolve renderFrame_ui : respects.

Lemma animate_ui {math : JSMath} w : respects (grows uiEvent) (animate w).
Proof. unfold animate. respect. Qed.
#[export] Hint Resolve animate_ui : respects.

Lemma stopAnimation_ui w : respects (grows uiEvent) (stopAnimation w).
Proof. unfold stopAnimation. respect. Qed.
#[export] Hint Resolve stopAnimation_ui : respects.

Lemma cleanupAudioVisualizer_ui w : respects (grows uiEvent) (cleanupAudioVisualizer w).
Proof. unfold cleanupAudioVisualizer. respect. Qed.
#[export] Hint Resolve cleanupAudioVisualizer_ui : respects.

Lemma updateAudioVisualizer_ui w : respects (grows uiEvent) (updateAudioVisualizer w).
Proof. unfold updateAudioVisualizer. respect. Qed.
#[export] Hint Resolve updateAudioVisualizer_ui : respects.

(** ** The context and the analyser are created once *)

#[export] Instance WithGraph_PreOrder : RelationClasses.PreOrder WithGraph :=
  Guarded_PreOrder _ _.

Lemma WithGraph_emit e : notGraphCreation e = true -> respects WithGraph (emit e).
Proof.
  intros He. apply respects_modify. intros s Hg.
  split; [exact Hg | apply grows_emit, He].
Qed.

Lemma Background_ui_as_WithGraph {A} (m : M A) :
  respects Background m -> respects (grows uiEvent) m -> respects WithGraph m.
Proof.
  intros Hb Hu s [Hc Ha]. destruct (Hb s) as [[Bc Ba] _]. split.
  - split; congruence.
  - eapply grows_weaken; [|apply Hu]. intros e He. destruct e; try reflexivity; discriminate.
Qed.

#[export] Hint Extern 1 (respects WithGraph (emit _)) =>
  apply WithGraph_emit; reflexivity : respects.
#[export] Hint Extern 1 (respects WithGraph (modify _)) =>
  apply respects_modify; intros ? [? ?]; split;
  [split; simpl; solve [assumption | reflexivity] | apply grows_same; reflexivity]
  : respects.
#[export] Hint Extern 4 (respects WithGraph _) =>
  apply Background_ui_as_WithGraph; solve [auto with respects] : respects.

Lemma ensureAudioGraph_withGraph w : respects WithGraph (ensureAudioGraph w).
Proof.
  intros s [Hc Ha].
  assert (E : ensureAudioGraph w s = Normal tt s).
  { unfold ensureAudioGraph, bind, get, when. rewrite Hc. simpl. rewrite Ha. reflexivity. }
  rewrite E. simpl. split; [split; assumption | apply grows_refl].
Qed.
#[export] Hint Resolve ensureAudioGraph_withGraph : respects.

Lemma attemptConnection_withGraph w el : respects WithGraph (attemptConnection w el).
Proof. unfold attemptConnection, directTap, streamTap, captureAny. respect. Qed.
#[export] Hint Resolve attemptConnection_withGraph : respects.

Lemma resumeAndShow_withGraph {math : JSMath} w : respects WithGraph (resumeAndShow w).
Proof. unfold resumeAndShow. respect. Qed.
#[export] Hint Resolve resumeAndShow_withGraph : respects.

Lemma initializeAudioVisualizer_withGraph {math : JSMath} w :
  respects WithGraph (initializeAudioVisualizer w).
Proof. unfold initializeAudioVisualizer. respect. Qed.
#[export] Hint Resolve initializeAudioVisualizer_withGraph : respects.

Lemma checkAndInitialize_withGraph {math : JSMath} w :
  respects WithGraph (checkAndInitialize w).
Proof. unfold checkAndInitialize. respect. Qed.

Lemma thenReaction_withGraph : respects WithGraph thenReaction.
Proof. unfold thenReaction. respect. Qed.

Lemma runThen_withGraph s : WithGraph s (runThen s).
Proof.
  unfold runThen. destruct (thenPending s); [|reflexivity].
  transitivity (set_thenPending false s).
  - intros Hg. split; [exact Hg | apply grows_same; reflexivity].
  - apply thenReaction_withGraph.
Qed.

Lemma pollTick_withGraph {math : JSMath} w s : WithGraph s (pollTick w s).
Proof.
  unfold pollTick. etransitivity.
  - apply checkAndInitialize_withGraph.
  - apply runThen_withGraph.
Qed.

Lemma runOp_withGraph {math : JSMath} op s : WithGraph s (runOp op s).
Proof.
  destruct op as [w|w|w|w|w|w]; simpl.
  - apply initializeAudioVisualizer_withGraph.
  - apply Background_ui_as_WithGraph; auto with respects.
  - apply Background_ui_as_WithGraph; auto with respects.
  - apply Background_ui_as_WithGraph; auto with respects.
  - apply Background_ui_as_WithGraph; auto with respects.
  - apply pollTick_withGraph.
Qed.

Lemma runOps_withGraph {math : JSMath} ops : forall s, WithGraph s (runOps ops s).
Proof.
  induction ops as [|op ops IH]; intro s; simpl.
  - reflexivity.
  - etransitivity; [apply runOp_withGraph | apply IH].
Qed.

(** X8.  Once the analysis context and the analyser exist, nothing short of
    unloading the plugin creates either again or drops them: after any run
    of calls of the acquisition routine, animation frames, setting updates,
    rebuilds and removals of the surface and timer ticks, both still exist
    and the number of [new AudioContext] and [createAnalyser] calls is the
    one before the run. *)
Theorem graph_created_once {math : JSMath} (s : State) (ops : list Op) :
  audioContext s = true ->
  isSome (analyser s) = true ->
  audioContext (runOps ops s) = true /\
  isSome (analyser (runOps ops s)) = true /\
  graphCreations (runOps ops s) = graphCreations s.
Proof.
  intros Hc Ha. destruct (runOps_withGraph ops s (conj Hc Ha)) as [[Hc' Ha'] Hg].
  repeat split; try assumption.
  unfold graphCreations. apply (grows_count notGraphCreation); [|exact Hg].
  intros e He. unfold notGraphCreation in He.
  destruct (isGraphCreation e); [discriminate|reflexivity].
Qed.

Lemma graph_created_once_witness :
  graphCreations
    (runOps [CallInitialize loudWorld; Tick quietWorld; CallUpdate loudWorld;
             Tick loudWorld; Frame loudWorld] liveState)
  = graphCreations liveState.
Proof.
  assert (Hc : audioContext liveState = true) by (vm_compute; reflexivity).
  assert (Ha : isSome (analyser liveState) = true) by (vm_compute; reflexivity).
  destruct (graph_created_once liveState
              [CallInitialize loudWorld; Tick quietWorld; CallUpdate loudWorld;
               Tick loudWorld; Frame loudWorld] Hc Ha) as [_ [_ Hn]].
  exact Hn.
Defined.

(** ** One animation loop *)

#[export] Instance WhilePending_PreOrder : RelationClasses.PreOrder WhilePending :=
  Guarded_PreOrder _ _.

Lemma Painting_as_WhilePending {A} (m : M A) :
  respects Painting m -> respects WhilePending m.
Proof.
  apply Guarded_weaken. intros s s' HP Hg. split; [|exact HP].
  destruct HP as [Hid _]. rewrite Hid. exact Hg.
Qed.

Lemma removeVisualizerUI_painting w : respects Painting (removeVisualizerUI w).
Proof. unfold removeVisualizerUI. respect. Qed.
#[export] Hint Resolve removeVisualizerUI_painting : respects.

Lemma createVisualizerUI_painting w : respects Painting (createVisualizerUI w).
Proof. unfold createVisualizerUI. respect. Qed.
#[export] Hint Resolve createVisualizerUI_painting : respects.

Lemma updateAudioVisualizer_painting w : respects Painting (updateAudioVisualizer w).
Proof. unfold updateAudioVisualizer. respect. Qed.
#[export] Hint Resolve updateAudioVisualizer_painting : respects.

Lemma ensureAudioGraph_painting w : respects Painting (ensureAudioGraph w).
Proof. unfold ensureAudioGraph. respect. Qed.
#[export] Hint Resolve ensureAudioGraph_painting : respects.

Lemma attemptConnection_painting w el : respects Painting (attemptConnection w el).
Proof. unfold attemptConnection, directTap, streamTap, captureAny. respect. Qed.
#[export] Hint Resolve attemptConnection_painting : respects.

Lemma thenReaction_painting : respects Painting thenReaction.
Proof. unfold thenReaction. respect. Qed.

#[export] Hint Extern 4 (respects WhilePending _) =>
  apply Painting_as_WhilePending : respects.
#[export] Hint Extern 1 (respects WhilePending (emit _)) =>
  apply Painting_as_WhilePending, Painting_emit; reflexivity : respects.
#[export] Hint Extern 1 (respects WhilePending (modify _)) =>
  apply Painting_as_WhilePending, respects_modify; solve [frame] : respects.

(** The guard [if (!animationId) animate()] of lines 166-168 and 494-497. *)
Lemma guarded_animate_pending {math : JSMath} w :
  respects WhilePending (s <- get ;; when (negb (isSome (animationId s))) (animate w)).
Proof.
  intros s Hg. unfold bind, get, when. rewrite Hg. simpl.
  split; [exact Hg | reflexivity].
Qed.
#[export] Hint Extern 1 (respects WhilePending _) =>
  cbv beta; apply guarded_animate_pending : respects.

Lemma resumeAndShow_pending {math : JSMath} w : respects WhilePending (resumeAndShow w).
Proof. unfold resumeAndShow. respect. Qed.
#[export] Hint Resolve resumeAndShow_pending : respects.

Lemma initializeAudioVisualizer_pending {math : JSMath} w :
  respects WhilePending (initializeAudioVisualizer w).
Proof. unfold initializeAudioVisualizer. respect. Qed.
#[export] Hint Resolve initializeAudioVisualizer_pending : respects.

Lemma checkAndInitialize_pending {math : JSMath} w :
  respects WhilePending (checkAndInitialize w).
Proof. unfold checkAndInitialize. respect. Qed.

Lemma runThen_painting s : Painting s (runThen s).
Proof.
  unfold runThen. destruct (thenPending s); [|reflexivity].
  transitivity (set_thenPending false s).
  - split; [reflexivity | apply grows_same; reflexivity].
  - apply thenReaction_painting.
Qed.

Lemma pollTick_pending {math : JSMath} w s : WhilePending s (pollTick w s).
Proof.
  unfold pollTick. etransitivity.
  - apply checkAndInitialize_pending.
  - apply (Painting_as_WhilePending (fun s0 => Normal tt (runThen s0))).
    intro s0. apply runThen_painting.
Qed.

Lemma runOp_pending {math : JSMath} op s :
  keepsLoop op = true -> WhilePending s (runOp op s).
Proof.
  destruct op as [w|w|w|w|w|w]; simpl; intro Hk; try discriminate.
  - apply initializeAudioVisualizer_pending.
  - apply Painting_as_WhilePending, updateAudioVisualizer_painting.
  - apply Painting_as_WhilePending, createVisualizerUI_painting.
  - apply pollTick_pending.
Qed.

Lemma runOps_pending {math : JSMath} ops :
  forallb keepsLoop ops = true -> forall s, WhilePending s (runOps ops s).
Proof.
  induction ops as [|op ops IH]; simpl; intros Hk s.
  - reflexivity.
  - apply andb_true_iff in Hk as [Hop Hops].
    etransitivity; [apply runOp_pending, Hop | apply IH, Hops].
Qed.

Lemma animate_throw_id {math : JSMath} w s e s' :
  animate w s = Throw e s' -> animationId s' = animationId s.
Proof.
  intro Hrun. unfold animate, call in Hrun.
  match type of Hrun with
  | match ?body s with _ => _ end = _ => destruct (body s) as [[] s1|s1|e1 s1] eqn:Hbody
  end; try discriminate.
  inversion Hrun; subst e1 s1; clear Hrun.
  unfold bind at 1, get in Hbody.
  destruct (canvasContext s) as [ctx|]; [destruct (canvas s) as [cv|]|];
    try (unfold bind, modify, return_ in Hbody; discriminate).
  apply bind_throw in Hbody as [Hr | [[] [s1 [Hr Hk]]]].
  - pose proof (renderFrame_painting w cv s) as HP. rewrite Hr in HP. apply HP.
  - pose proof (renderFrame_painting w cv s) as HP. rewrite Hr in HP. simpl in HP.
    apply bind_throw in Hk as [Hk | [[] [s2 [_ Hk]]]]; [|discriminate].
    unfold perform, bind, emit, modify in Hk.
    destruct (faults w RequestAnimationFrame); [|discriminate].
    inversion Hk; subst; clear Hk. simpl. apply HP.
Qed.

(** X9.  The guards [if (!animationId)] keep the animation loop single:
    while a frame is pending, no call of the acquisition routine, setting
    update, rebuild of the surface or timer tick requests another frame or
    touches the pending id. *)
Theorem single_animation_loop {math : JSMath} (s : State) (ops : list Op) :
  isSome (animationId s) = true ->
  forallb keepsLoop ops = true ->
  animationId (runOps ops s) = animationId s /\
  framesRequested (runOps ops s) = framesRequested s.
Proof.
  intros Hg Hk. destruct (runOps_pending ops Hk s Hg) as [_ HP].
  split; [apply HP | apply framesRequested_painting, HP].
Qed.

Lemma single_animation_loop_witness :
  framesRequested
    (runOps [Tick loudWorld; CallInitialize loudWorld; CallUpdate quietWorld;
             CallCreateUI loudWorld; Tick quietWorld] liveState)
  = framesRequested liveState.
Proof.
  assert (Hg : isSome (animationId liveState) = true) by (vm_compute; reflexivity).
  assert (Hk : forallb keepsLoop
                 [Tick loudWorld; CallInitialize loudWorld; CallUpdate quietWorld;
                  CallCreateUI loudWorld; Tick quietWorld] = true) by reflexivity.
  destruct (single_animation_loop liveState _ Hg Hk) as [_ Hn].
  exact Hn.
Defined.

(** X10.  A frame that ends with an exception leaves its own id in
    [animationId], so nothing restarts the loop: from the state such a frame
    leaves, no timer tick, call of the acquisition routine, setting update
    or rebuild of the surface requests a frame. *)
Theorem loop_not_restarted_after_exception {math : JSMath}
    (w : World) (s s1 : State) (e : string) (ops : list Op) :
  isSome (animationId s) = true ->
  animate w s = Throw e s1 ->
  forallb keepsLoop ops = true ->
  animationId (runOps ops s1) = animationId s /\
  framesRequested (runOps ops s1) = framesRequested s1.
Proof.
  intros Hg Hrun Hk. pose proof (animate_throw_id w s e s1 Hrun) as Hid.
  assert (Hg1 : isSome (animationId s1) = true) by (rewrite Hid; exact Hg).
  destruct (runOps_pending ops Hk s1 Hg1) as [_ HP].
  split; [rewrite <- Hid; apply HP | apply framesRequested_painting, HP].
Qed.

Lemma loop_not_restarted_after_exception_witness :
  match animate legacyWorld (final (animate quietWorld surfaceState)) with
  | Throw _ s1 =>
      framesRequested
        (runOps [Tick legacyWorld; Tick quietWorld; CallInitialize loudWorld] s1)
      = framesRequested s1
  | _ => False
  end.
Proof.
  assert (Hg : isSome (animationId (final (animate quietWorld surfaceState))) = true)
    by (vm_compute; reflexivity).
  assert (Hk : forallb keepsLoop
                 [Tick legacyWorld; Tick quietWorld; CallInitialize loudWorld] = true)
    by reflexivity.
  destruct (animate legacyWorld (final (animate quietWorld surfaceState)))
    as [[] s1|s1|e s1] eqn:Hrun.
  - vm_compute in Hrun. discriminate.
  - vm_compute in Hrun. discriminate.
  - destruct (loop_not_restarted_after_exception legacyWorld _ s1 e _ Hg Hrun Hk)
      as [_ Hn].
    exact Hn.
Defined.

(** ** A program logic for straight-line code *)

Section Sat.

Context {A : Type} (s : State) (Q : A -> State -> Prop) (Rt X : State -> Prop).

Lemma sat_ret a : Q a s -> sat (ret a) s Q Rt X.
Proof. exact (fun H => H). Qed.

Lemma sat_get (Q' : State -> State -> Prop) : Q' s s -> sat get s Q' Rt X.
Proof. exact (fun H => H). Qed.

Lemma sat_throw err : X s -> sat (@throw A err) s Q Rt X.
Proof. exact (fun H => H). Qed.

Lemma sat_return : Rt s -> sat (@return_ A) s Q Rt X.
Proof. exact (fun H => H). Qed.

Lemma sat_bind {B} (m : M B) (k : B -> M A) :
  sat m s (fun b s' => sat (k b) s' Q Rt X) Rt X -> sat (bind m k) s Q Rt X.
Proof. unfold sat, bind. destruct (m s); auto. Qed.

End Sat.

Section SatUnit.

Context (s : State) (Q : unit -> State -> Prop) (Rt X : State -> Prop).

Lemma sat_modify f : Q tt (f s) -> sat (modify f) s Q Rt X.
Proof. exact (fun H => H). Qed.

Lemma sat_emit e : Q tt (set_events (events s ++ [e]) s) -> sat (emit e) s Q Rt X.
Proof. exact (fun H => H). Qed.

Lemma sat_perform w e :
  Q tt (set_events (events s ++ [e]) s) ->
  X (set_events (events s ++ [e]) s) ->
  sat (perform w e) s Q Rt X.
Proof.
  intros HQ HX. unfold sat, perform, bind, emit, modify, throw, skip, ret.
  destruct (faults w e); assumption.
Qed.

Lemma sat_call m : sat m s Q (Q tt) X -> sat (call m) s Q Rt X.
Proof. unfold sat, call. destruct (m s) as [[] s'|s'|e s']; auto. Qed.

Lemma sat_try_catch m h :
  sat m s Q Rt (fun s' => forall err, sat (h err) s' Q Rt X) ->
  sat (try_catch m h) s Q Rt X.
Proof.
  unfold sat at 1, try_catch. intro H.
  destruct (m s) as [a s'|s'|e s'] eqn:E; unfold sat; rewrite E; auto.
  apply H.
Qed.

Lemma sat_skip : Q tt s -> sat skip s Q Rt X.
Proof. exact (fun H => H). Qed.

End SatUnit.

Lemma sat_respects {A} (R : State -> State -> Prop) (m : M A) s
    (Q : A -> State -> Prop) (Rt X : State -> Prop) :
  respects R m ->
  (forall s', R s s' -> (forall a, Q a s') /\ Rt s' /\ X s') ->
  sat m s Q Rt X.
Proof.
  intros Hm H. specialize (Hm s). unfold sat.
  destruct (m s) as [a s'|s'|e s']; simpl in Hm; destruct (H _ Hm) as [Ha [Hr Hx]]; auto.
Qed.

Lemma respects_by_sat {A} (Inv : State -> Prop) (m : M A) :
  (forall s, Inv s -> sat m s (fun _ => Inv) Inv Inv) -> respects (Invariant Inv) m.
Proof.
  intros H s Hs. specialize (H s Hs). unfold sat in H. split; [|exact I].
  destruct (m s); exact H.
Qed.

Lemma sat_invariant {A} (Inv : State -> Prop) (m : M A) s
    (Q : A -> State -> Prop) (Rt X : State -> Prop) :
  respects (Invariant Inv) m ->
  Inv s ->
  (forall s', Inv s' -> (forall a, Q a s') /\ Rt s' /\ X s') ->
  sat m s Q Rt X.
Proof.
  intros Hm Hs H. apply (sat_respects _ _ _ _ _ _ Hm).
  intros s' Hs'. apply H, (Hs' Hs).
Qed.

(** One statement of a straight-line block. *)
Ltac sat_step :=
  cbv beta;
  lazymatch goal with
  | |- sat (bind _ _) _ _ _ _ => apply sat_bind
  | |- sat get _ _ _ _ => apply sat_get
  | |- sat (ret _) _ _ _ _ => apply sat_ret
  | |- sat skip _ _ _ _ => apply sat_skip
  | |- sat (modify _) _ _ _ _ => apply sat_modify
  | |- sat (emit _) _ _ _ _ => apply sat_emit
  | |- sat (log _) _ _ _ _ => apply sat_emit
  | |- sat (warn _) _ _ _ _ => apply sat_emit
  | |- sat (error _) _ _ _ _ => apply sat_emit
  | |- sat (console_error _) _ _ _ _ => apply sat_emit
  | |- sat (perform _ _) _ _ _ _ => apply sat_perform
  | |- sat (throw _) _ _ _ _ => apply sat_throw
  | |- sat return_ _ _ _ _ => apply sat_return
  | |- sat (call _) _ _ _ _ => apply sat_call
  | |- sat (try_catch _ _) _ _ _ _ => apply sat_try_catch
  | |- sat (when _ _) _ _ _ _ => unfold when
  | |- sat (if ?b then _ else _) _ _ _ _ =>
      let E := fresh "E" in destruct b eqn:E; simpl in E
  | |- sat (match ?x with _ => _ end) _ _ _ _ =>
      let E := fresh "E" in destruct x eqn:E; simpl in E
  | |- forall _ : string, _ => intro
  end.

Lemma overwrite_length data arr : List.length (overwrite data arr) = List.length arr.
Proof.
  unfold overwrite. rewrite length_app, length_firstn, length_skipn. lia.
Qed.

Ltac sound_here :=
  cbv beta; unfold wellFormed in *; simpl in *; rewrite ?overwrite_length in *;
  repeat match goal with
         | H : negb _ = true |- _ => apply negb_true_iff in H
         | H : negb _ = false |- _ => apply negb_false_iff in H
         | H : _ && _ = true |- _ => apply andb_true_iff in H; destruct H
         end;
  repeat match goal with
         | H : context [match ?x with _ => _ end] |- _ => destruct x eqn:?
         end;
  simpl in *;
  repeat match goal with
         | |- context [match ?x with _ => _ end] => destruct x eqn:?; simpl in *
         end;
  intuition (try congruence).

Lemma always_PreOrder : RelationClasses.PreOrder (fun _ _ : State => True).
Proof. split; intro; intros; exact I. Qed.

#[export] Instance Invariant_PreOrder Inv : RelationClasses.PreOrder (Invariant Inv) :=
  @Guarded_PreOrder _ _ always_PreOrder.
#[export] Instance Sound_PreOrder : RelationClasses.PreOrder Sound :=
  Invariant_PreOrder _.

Lemma Sound_emit e : respects Sound (emit e).
Proof. apply respects_modify. intros s H. split; [exact H | exact I]. Qed.

#[export] Hint Resolve Sound_emit : respects.
#[export] Hint Extern 1 (respects Sound (modify _)) =>
  apply respects_modify; intros ? ?; (split; [|exact I]); solve [sound_here] : respects.

Lemma removeVisualizerUI_sound w : respects Sound (removeVisualizerUI w).
Proof.
  apply respects_by_sat. intros s H. unfold removeVisualizerUI.
  repeat sat_step; sound_here.
Qed.
#[export] Hint Resolve removeVisualizerUI_sound : respects.

Lemma createVisualizerUI_sound w : respects Sound (createVisualizerUI w).
Proof.
  apply respects_by_sat. intros s H. unfold createVisualizerUI, removeVisualizerUI.
  repeat sat_step; sound_here.
Qed.
#[export] Hint Resolve createVisualizerUI_sound : respects.

Lemma setFillStyle_sound c : respects Sound (setFillStyle c).
Proof. unfold setFillStyle. respect. Qed.
#[export] Hint Resolve setFillStyle_sound : respects.

Lemma drawRoundedRect_sound w x y wd h r : respects Sound (drawRoundedRect w x y wd h r).
Proof. unfold drawRoundedRect. respect. Qed.
#[export] Hint Resolve drawRoundedRect_sound : respects.

Lemma drawScrollingWave_sound {math : JSMath} w : respects Sound (drawScrollingWave w).
Proof. unfold drawScrollingWave. respect. Qed.
#[export] Hint Resolve drawScrollingWave_sound : respects.

Lemma drawBars_sound w : respects Sound (drawBars w).
Proof. unfold drawBars. respect. Qed.
#[export] Hint Resolve drawBars_sound : respects.


(** A call of a procedure that is known to keep the invariant. *)
Ltac sat_known :=
  cbv beta;
  lazymatch goal with
  | |- sat _ _ _ _ _ =>
      eapply (sat_invariant wellFormed);
      [ solve [auto with respects]
      | try solve [sound_here]
      | let s' := fresh "s" in
        let H' := fresh "H" in
        repeat match goal with
               | H : wellFormed _ |- _ => clear H
               end;
        intros s' H'; repeat split; intros ]
  end.

Lemma drawWaveform_sound : respects Sound drawWaveform.
Proof. apply respects_throw. Qed.

Lemma drawCircular_sound : respects Sound drawCircular.
Proof. apply respects_throw. Qed.
#[export] Hint Resolve drawWaveform_sound drawCircular_sound : respects.

Ltac sat_run :=
  repeat first [sat_step | sat_known]; try assumption; try solve [sound_here].

Lemma animate_sound {math : JSMath} w : respects Sound (animate w).
Proof.
  apply respects_by_sat. intros s H. unfold animate, renderFrame. sat_run.
Qed.
#[export] Hint Resolve animate_sound : respects.

Lemma stopAnimation_sound w : respects Sound (stopAnimation w).
Proof. unfold stopAnimation. respect. Qed.
#[export] Hint Resolve stopAnimation_sound : respects.

Lemma cleanupAudioVisualizer_sound w : respects Sound (cleanupAudioVisualizer w).
Proof. unfold cleanupAudioVisualizer. respect. Qed.
#[export] Hint Resolve cleanupAudioVisualizer_sound : respects.

Lemma updateAudioVisualizer_sound w : respects Sound (updateAudioVisualizer w).
Proof.
  apply respects_by_sat. intros s H. unfold updateAudioVisualizer. sat_run.
Qed.
#[export] Hint Resolve updateAudioVisualizer_sound : respects.

Lemma ensureAudioGraph_sound w : respects Sound (ensureAudioGraph w).
Proof.
  apply respects_by_sat. intros s H. unfold ensureAudioGraph. sat_run.
Qed.
#[export] Hint Resolve ensureAudioGraph_sound : respects.

(** ** The connection step *)

#[export] Instance Ready_PreOrder : RelationClasses.PreOrder Ready :=
  Invariant_PreOrder _.

Lemma Ready_emit e : respects Ready (emit e).
Proof. apply respects_modify. intros s H. split; [exact H | exact I]. Qed.
#[export] Hint Resolve Ready_emit : respects.

Ltac ready_here := unfold ready in *; sound_here.

#[export] Hint Extern 1 (respects Ready (modify _)) =>
  apply respects_modify; intros ? ?; (split; [|exact I]); solve [ready_here] : respects.

Lemma sat_conseq {A} (m : M A) s (Q Q' : A -> State -> Prop) (Rt Rt' X X' : State -> Prop) :
  sat m s Q Rt X ->
  (forall a s', Q a s' -> Q' a s') ->
  (forall s', Rt s' -> Rt' s') ->
  (forall s', X s' -> X' s') ->
  sat m s Q' Rt' X'.
Proof. unfold sat. destruct (m s); auto. Qed.

Lemma ensureAudioGraph_ready w s :
  wellFormed s -> sat (ensureAudioGraph w) s (fun _ => ready) wellFormed wellFormed.
Proof.
  intros H. unfold ensureAudioGraph.
  repeat sat_step; try solve [sound_here]; try solve [ready_here].
Qed.

Lemma directTap_ready w el : respects Ready (directTap w el).
Proof. unfold directTap. respect. Qed.

Lemma streamTap_ready w el : respects Ready (streamTap w el).
Proof. unfold streamTap, captureAny. respect. Qed.
#[export] Hint Resolve directTap_ready streamTap_ready : respects.

Lemma connection_block_ready w el :
  respects Ready
    (try_catch (directTap w el)
       (fun err =>
          log "MediaElementSource failed, attempting captureStream fallback..." ;;
          try_catch (streamTap w el)
            (fun streamErr =>
               error "Failed to hook audio for visualization on this platform" ;;
               console_error streamErr ;;
               return_))).
Proof. respect. Qed.
#[export] Hint Resolve connection_block_ready : respects.

Lemma attemptConnection_ready w el : respects Ready (attemptConnection w el).
Proof.
  apply respects_by_sat. intros s H. unfold attemptConnection.
  apply sat_bind, sat_get. cbv beta. unfold when.
  destruct (negb (isSourceConnected s)
            && negb (sameElement el (currentAudioElement s)));
    [|apply sat_skip; exact H].
  apply sat_bind.
  eapply (sat_invariant ready); [solve [auto with respects] | exact H |].
  clear s H. intros s H. split; [intros _ | split; assumption].
  repeat sat_step. ready_here.
Qed.
#[export] Hint Resolve attemptConnection_ready : respects.

Lemma resumeAndShow_sound {math : JSMath} w : respects Sound (resumeAndShow w).
Proof. unfold resumeAndShow. respect. Qed.
#[export] Hint Resolve resumeAndShow_sound : respects.

Lemma initializeAudioVisualizer_sound {math : JSMath} w :
  respects Sound (initializeAudioVisualizer w).
Proof.
  apply respects_by_sat. intros s H. unfold initializeAudioVisualizer.
  repeat sat_step; try assumption.
  - eapply sat_conseq; [apply ensureAudioGraph_ready, H | | |]; cbv beta.
    + clear s H. intros _ s H. apply sat_bind.
      eapply (sat_invariant ready); [solve [auto with respects] | exact H |].
      clear s H. intros s H.
      split; [intros _ | split; [apply H | intro err; apply sat_emit, H]].
      eapply (sat_invariant wellFormed); [solve [auto with respects] | apply H |].
      clear s H. intros s H. split; [intros _; exact H | split; [exact H|]].
      intro err. apply sat_emit. exact H.
    + auto.
    + intros s' H' err. apply sat_emit. exact H'.
Qed.
#[export] Hint Resolve initializeAudioVisualizer_sound : respects.

Lemma checkAndInitialize_sound {math : JSMath} w : respects Sound (checkAndInitialize w).
Proof. unfold checkAndInitialize. respect. Qed.

Lemma thenReaction_sound : respects Sound thenReaction.
Proof. unfold thenReaction. respect. Qed.

Lemma completeCleanup_sound w : respects Sound (completeCleanup w).
Proof.
  apply respects_by_sat. intros s H. unfold completeCleanup. sat_run.
Qed.

Lemma runThen_sound s : wellFormed s -> wellFormed (runThen s).
Proof.
  intro H. unfold runThen. destruct (thenPending s); [|exact H].
  apply thenReaction_sound. sound_here.
Qed.

Lemma pollTick_sound {math : JSMath} w s : wellFormed s -> wellFormed (pollTick w s).
Proof. intro H. apply runThen_sound, checkAndInitialize_sound, H. Qed.

Lemma runOp_sound {math : JSMath} op s : wellFormed s -> wellFormed (runOp op s).
Proof.
  intro H. destruct op as [w|w|w|w|w|w]; simpl.
  - apply initializeAudioVisualizer_sound, H.
  - apply animate_sound, H.
  - apply updateAudioVisualizer_sound, H.
  - apply createVisualizerUI_sound, H.
  - apply cleanupAudioVisualizer_sound, H.
  - apply pollTick_sound, H.
Qed.

Lemma runAction_sound {math : JSMath} a s : wellFormed s -> wellFormed (runAction a s).
Proof.
  intro H. destruct a as [op|w]; simpl.
  - apply runOp_sound, H.
  - apply completeCleanup_sound, H.
Qed.

Lemma runActions_sound {math : JSMath} acts :
  forall s, wellFormed s -> wellFormed (runActions acts s).
Proof.
  induction acts as [|a acts IH]; simpl; intros s H; [exact H|].
  apply IH, runAction_sound, H.
Qed.

Lemma initialState_sound : wellFormed initialState.
Proof. unfold wellFormed. simpl. intuition discriminate. Qed.


(** X11.  Whatever entry points have run since the plugin was loaded, in
    whatever order and with whatever exceptions, the module variables fit
    together: the analyser and the frequency buffer exist together, the
    analyser has FFT size 512 and the buffer 256 bins; a canvas exists only
    with its container and is 200 by 40, and there is no drawing context
    without a canvas; the connected flag is set exactly when an element is
    recorded, and then the context and the analyser exist. *)
Theorem reachable_wellFormed {math : JSMath} (acts : list Action) :
  wellFormed (runActions acts initialState).
Proof. apply runActions_sound, initialState_sound. Qed.

Lemma silent_total (arr : list byte) :
  arr <> [] ->
  (isSilent arr = true <-> (binTotal arr <= 5 * Z.of_nat (List.length arr))%Z).
Proof.
  intro Hne.
  assert (Hlen : (0 < Z.of_nat (List.length arr))%Z).
  { destruct arr; [contradiction | simpl; lia]. }
  rewrite isSilent_iff. unfold arithmeticMean.
  destruct (Z.of_nat (List.length arr)) as [|p|p]; try lia.
  unfold Qle, Qdiv, Qmult, Qinv, inject_Z. simpl. lia.
Qed.

Lemma audible_total (snapshot : list byte) :
  List.length snapshot = 256%nat ->
  hasRealAudio snapshot = (1280 <? binTotal snapshot)%Z.
Proof.
  intro H256.
  assert (Hne : snapshot <> []) by (intro E; rewrite E in H256; discriminate).
  pose proof (silent_total snapshot Hne) as Hs. rewrite H256 in Hs.
  unfold isSilent in Hs.
  destruct (hasRealAudio snapshot); simpl in Hs; symmetry.
  - apply Z.ltb_lt.
    destruct (Z_le_gt_dec (binTotal snapshot) 1280) as [Hle|Hgt]; [|lia].
    assert (false = true) by (apply Hs; lia). discriminate.
  - apply Z.ltb_ge.
    assert (binTotal snapshot <= 5 * Z.of_nat 256)%Z by (apply Hs; reflexivity). lia.
Qed.

(** X12.  A frame of the running plugin.  In every state the plugin can
    reach, a frame that has a surface and completes takes a snapshot of 256
    bins and paints, before it requests the next frame, the audio bars of
    that snapshot exactly when the bins sum to more than 1280, and the idle
    wave otherwise (also when there is no buffer yet).  Every audio bar
    reads a bin that exists: for any bar count from 1 to 2^42 its index, as
    the doubles compute it, lies in 0..255. *)
Theorem frame_reads_256_bins {math : JSMath} (acts : list Action) (w : World)
    (s' : State) ctx cv :
  let s := runActions acts initialState in
  let n := barCount (settings w) in
  canvasContext s = Some ctx -> canvas s = Some cv ->
  animate w s = Normal tt s' ->
  exists evs,
    events s' = events s ++ evs ++ [RequestAnimationFrame] /\
    match dataArray s with
    | Some arr =>
        let snapshot := overwrite (frequencyData w) arr in
        List.length snapshot = 256%nat /\
        bars evs
        = map (if (1280 <? binTotal snapshot)%Z
               then barRect w snapshot cv
               else waveRect w cv (waveTime s + 0.05))
              (seq 0 (Z.to_nat n)) /\
        (forall i, (1 <= n <= 2 ^ 42)%Z -> (i < Z.to_nat n)%nat ->
                   (0 <= dataIndex snapshot n i < 256)%Z)
    | None =>
        bars evs = map (waveRect w cv (waveTime s + 0.05)) (seq 0 (Z.to_nat n))
    end.
Proof.
  intros s n Hctx Hcv Hrun.
  pose proof (runActions_sound acts initialState initialState_sound) as [Hg _].
  fold s in Hg.
  destruct (animate_normal w s s' ctx cv Hctx Hcv Hrun) as [evs [Hev [_ [_ Hb]]]].
  exists evs. split; [exact Hev|].
  unfold audibleNow, snapshotNow in Hb.
  destruct (dataArray s) as [arr|] eqn:Harr.
  - destruct (analyser s) as [an|]; [|contradiction].
    destruct Hg as [_ Hlen]. cbv zeta.
    assert (H256 : List.length (overwrite (frequencyData w) arr) = 256%nat)
      by (rewrite overwrite_length; exact Hlen).
    split; [exact H256|]. split.
    + rewrite <- (audible_total _ H256). exact Hb.
    + intros i Hn Hi.
      assert (Hne : overwrite (frequencyData w) arr <> [])
        by (intro E; rewrite E in H256; discriminate).
      assert (Hsmall : (n * Z.of_nat (List.length (overwrite (frequencyData w) arr))
                        <= 2 ^ 50)%Z).
      { rewrite H256. change (2 ^ 50)%Z with (2 ^ 42 * Z.of_nat 256)%Z.
        apply Z.mul_le_mono_nonneg_r; lia. }
      destruct (dataIndex_in_range (overwrite (frequencyData w) arr) n i
                  ltac:(lia) Hi Hne Hsmall) as [H0 H1].
      rewrite H256 in H1. lia.
  - destruct (analyser s); [contradiction|]. exact Hb.
Qed.

Lemma frame_reads_256_bins_witness :
  match animate loudWorld (runActions [Run (CallInitialize loudWorld)] initialState) with
  | Normal _ s' =>
      exists evs,
        events s'
        = events (runActions [Run (CallInitialize loudWorld)] initialState)
          ++ evs ++ [RequestAnimationFrame] /\
        bars evs
        = map (barRect loudWorld (repeat xff 256) {| cwidth := 200; cheight := 40 |})
              (seq 0 50)
  | _ => False
  end.
Proof.
  assert (H1 : canvasContext (runActions [Run (CallInitialize loudWorld)] initialState)
               = Some {| fillStyle := "#ffffff"; strokeStyle := "#ffffff" |})
    by (vm_compute; reflexivity).
  assert (H2 : canvas (runActions [Run (CallInitialize loudWorld)] initialState)
               = Some {| cwidth := 200; cheight := 40 |})
    by (vm_compute; reflexivity).
  assert (H3 : dataArray (runActions [Run (CallInitialize loudWorld)] initialState)
               = Some (repeat xff 256))
    by (vm_compute; reflexivity).
  destruct (animate loudWorld (runActions [Run (CallInitialize loudWorld)] initialState))
    as [[] s'|s'|e s'] eqn:E.
  - destruct (frame_reads_256_bins [Run (CallInitialize loudWorld)] loudWorld s' _ _
                H1 H2 E) as [evs [Hev Hd]].
    rewrite H3 in Hd. destruct Hd as [_ [Hb _]].
    exists evs. split; [exact Hev | exact Hb].
  - vm_compute in E. discriminate.
  - vm_compute in E. discriminate.
Defined.

(** X13.  In the states the plugin can reach, three of its tests are
    decided by one variable: the element comparison on line 114 never
    matters (no element is recorded while the flag is clear), the buffer
    exists exactly when the analyser does (lines 262 and 273), and a drawing
    context implies a canvas (line 251). *)
Theorem guards_decided_by_one_variable {math : JSMath}
    (acts : list Action) (el : Element) :
  let s := runActions acts initialState in
  negb (isSourceConnected s) && negb (sameElement el (currentAudioElement s))
  = negb (isSourceConnected s) /\
  isSome (analyser s) && isSome (dataArray s) = isSome (analyser s) /\
  negb (isSome (canvasContext s)) || negb (isSome (canvas s))
  = negb (isSome (canvasContext s)).
Proof.
  intro s.
  pose proof (runActions_sound acts initialState initialState_sound) as H.
  fold s in H. destruct H as [Hg [Hs [Hc _]]].
  split; [|split].
  - rewrite Hc. destruct (currentAudioElement s); reflexivity.
  - destruct (analyser s), (dataArray s); simpl; try reflexivity; contradiction.
  - destruct (canvas s); [rewrite orb_false_r; reflexivity|].
    rewrite Hs. reflexivity.
Qed.

(** ** The two timers *)

#[export] Instance SameCount_PreOrder : RelationClasses.PreOrder SameCount.
Proof.
  split; [intro s; reflexivity|].
  intros s1 s2 s3 H1 H2. unfold SameCount in *. congruence.
Qed.

Lemma Acquiring_as_SameCount {A} (m : M A) :
  respects Acquiring m -> respects SameCount m.
Proof. apply respects_weaken. intros s s' [[_ [_ H]] _]. exact H. Qed.

#[export] Hint Extern 1 (respects SameCount (emit _)) =>
  apply respects_modify; intro; reflexivity : respects.
#[export] Hint Extern 1 (respects SameCount (modify _)) =>
  apply respects_modify; intro; reflexivity : respects.
#[export] Hint Extern 4 (respects SameCount _) =>
  apply Acquiring_as_SameCount : respects.

Lemma checkAndInitialize_count {math : JSMath} w s :
  checkCount (final (checkAndInitialize w s)) = (checkCount s + 1)%Z.
Proof.
  unfold checkAndInitialize.
  rewrite (final_bind_normal (modify _) _ s tt _ eq_refl). cbv beta.
  match goal with
  | |- checkCount (final (?rest ?s0)) = _ =>
      assert (H : respects SameCount rest) by respect;
      rewrite (H s0)
  end.
  reflexivity.
Qed.

Lemma runThen_count s : checkCount (runThen s) = checkCount s.
Proof.
  unfold runThen. destruct (thenPending s); [|reflexivity].
  unfold thenReaction, bind, get.
  destruct (audioContext (set_thenPending false s)
            && isSome (analyser (set_thenPending false s))); reflexivity.
Qed.

Lemma initializeAudioVisualizer_calm {math : JSMath} w :
  calm (initializeAudioVisualizer w).
Proof.
  intros s e s' H. destruct (initializeAudioVisualizer_normal w s) as [s1 H1].
  congruence.
Qed.

Lemma checkAndInitialize_completes {math : JSMath} w s :
  (forall e, faults w e = false) ->
  exists s', checkAndInitialize w s = Normal tt s'.
Proof.
  intro Hf.
  destruct (completes (checkAndInitialize w) s) as [[] [s' H]].
  - unfold checkAndInitialize.
    pose proof (fun m => @straight_call m : straight (call m)).
    unfold initializeAudioVisualizer, animate. straighten.
  - unfold checkAndInitialize.
    pose proof (initializeAudioVisualizer_calm w).
    pose proof (animate_calm w Hf).
    repeat first [ assumption | progress calm_down Hf ].
  - exists s'. exact H.
Qed.

Lemma fastTick_cleared {math : JSMath} ws p :
  fastInterval p = false -> runTimers (map FastFires ws) p = p.
Proof.
  intro H. induction ws as [|w ws IH]; simpl; [reflexivity|].
  unfold fastTick at 1. rewrite H. exact IH.
Qed.

Lemma fast_phase {math : JSMath} ws :
  Forall (fun w => forall e, faults w e = false) ws ->
  forall p,
    fastInterval p = true -> slowIntervals p = 0%nat ->
    (1 <= checkCount (plugin p) <= 10)%Z ->
    let p' := runTimers (map FastFires ws) p in
    fastInterval p' = (checkCount (plugin p) + Z.of_nat (List.length ws) <? 11)%Z /\
    slowIntervals p' = (if fastInterval p' then 0 else 1)%nat /\
    checkCount (plugin p') = Z.min (checkCount (plugin p) + Z.of_nat (List.length ws)) 11.
Proof.
  induction 1 as [|w ws Hw _ IH]; intros p Hfast Hslow Hc.
  - simpl. rewrite Z.add_0_r, Hfast, Hslow.
    replace (checkCount (plugin p) <? 11)%Z with true by (symmetry; apply Z.ltb_lt; lia).
    repeat split. lia.
  - cbv zeta.
    change (runTimers (map FastFires (w :: ws)) p)
      with (runTimers (map FastFires ws) (fastTick w p)).
    destruct (checkAndInitialize_completes w (plugin p) Hw) as [s1 H1].
    pose proof (checkAndInitialize_count w (plugin p)) as Hn. rewrite H1 in Hn. simpl in Hn.
    assert (Hq : fastTick w p
                 = if (10 <? checkCount s1)%Z
                   then {| plugin := runThen s1; fastInterval := false;
                           slowIntervals := S (slowIntervals p) |}
                   else {| plugin := runThen s1; fastInterval := true;
                           slowIntervals := slowIntervals p |}).
    { unfold fastTick. rewrite Hfast, H1. reflexivity. }
    rewrite Hq. clear Hq.
    replace (Z.of_nat (List.length (w :: ws))) with (1 + Z.of_nat (List.length ws))%Z
      by (simpl List.length; lia).
    destruct (10 <? checkCount s1)%Z eqn:Hsw.
    + apply Z.ltb_lt in Hsw.
      rewrite fastTick_cleared by reflexivity. cbn [plugin fastInterval slowIntervals].
      rewrite runThen_count, Hslow.
      replace (checkCount (plugin p) + (1 + Z.of_nat (List.length ws)) <? 11)%Z
        with false by (symmetry; apply Z.ltb_ge; lia).
      repeat split. lia.
    + apply Z.ltb_ge in Hsw.
      specialize (IH {| plugin := runThen s1; fastInterval := true;
                        slowIntervals := slowIntervals p |}).
      cbn [plugin fastInterval slowIntervals] in IH. rewrite runThen_count in IH.
      specialize (IH eq_refl Hslow ltac:(lia)).
      rewrite Hn in IH.
      replace (checkCount (plugin p) + (1 + Z.of_nat (List.length ws)))%Z
        with (checkCount (plugin p) + 1 + Z.of_nat (List.length ws))%Z by lia.
      exact IH.
Qed.

Lemma runTimer_one_kind {math : JSMath} ev p :
  slowIntervals p = (if fastInterval p then 0 else 1)%nat ->
  slowIntervals (runTimer ev p) = (if fastInterval (runTimer ev p) then 0 else 1)%nat.
Proof.
  intro H. destruct ev as [w|w]; simpl; [|exact H].
  unfold fastTick. destruct (fastInterval p) eqn:Hf; [|rewrite Hf; exact H].
  destruct (checkAndInitialize w (plugin p)) as [[] s1|s1|e s1]; simpl; try exact H.
  destruct (10 <? checkCount s1)%Z; simpl; [rewrite H; reflexivity | exact H].
Qed.

Lemma runTimers_one_kind {math : JSMath} evs :
  forall p,
    slowIntervals p = (if fastInterval p then 0 else 1)%nat ->
    slowIntervals (runTimers evs p)
    = (if fastInterval (runTimers evs p) then 0 else 1)%nat.
Proof.
  induction evs as [|ev evs IH]; simpl; intros p H; [exact H|].
  apply IH, runTimer_one_kind, H.
Qed.

Lemma observePlayState_count {math : JSMath} w s :
  checkCount (plugin (observePlayState w s)) = 1%Z.
Proof.
  unfold observePlayState, pollTick. simpl.
  rewrite runThen_count, checkAndInitialize_count. reflexivity.
Qed.

(** X14.  The poller slows down once.  At any moment exactly one kind of
    timer is installed: the fast interval, or one slow interval - never two
    slow ones.  When no browser call throws, the switch happens at the tenth
    firing of the fast interval, when the counter, which the immediate first
    check has set to 1, reads 11; later firings of the cleared interval
    change nothing. *)
Theorem poller_slows_down_once {math : JSMath} (w0 : World) (s : State) :
  (forall evs,
     let p := runTimers evs (observePlayState w0 s) in
     slowIntervals p = (if fastInterval p then 0 else 1)%nat) /\
  (forall ws,
     Forall (fun w => forall e, faults w e = false) ws ->
     let p := runTimers (map FastFires ws) (observePlayState w0 s) in
     fastInterval p = (List.length ws <? 10)%nat /\
     checkCount (plugin p) = Z.of_nat (1 + Nat.min (List.length ws) 10)).
Proof.
  split.
  - intros evs. apply runTimers_one_kind. reflexivity.
  - intros ws Hws.
    destruct (fast_phase ws Hws (observePlayState w0 s) eq_refl eq_refl) as [Hf [_ Hc]].
    { rewrite observePlayState_count. lia. }
    rewrite observePlayState_count in Hf, Hc. cbv zeta. rewrite Hf, Hc. split.
    + destruct (List.length ws <? 10)%nat eqn:E.
      * apply Nat.ltb_lt in E. apply Z.ltb_lt. lia.
      * apply Nat.ltb_ge in E. apply Z.ltb_ge. lia.
    + lia.
Qed.

Lemma poller_slows_down_once_witness :
  fastInterval
    (runTimers (map FastFires (repeat quietWorld 10))
       (observePlayState quietWorld initialState))
  = false.
Proof.
  destruct (poller_slows_down_once quietWorld initialState) as [_ H].
  assert (HF : Forall (fun w => forall e, faults w e = false) (repeat quietWorld 10)).
  { apply Forall_forall. intros w Hin. apply repeat_spec in Hin. subst w.
    intro e. reflexivity. }
  destruct (H _ HF) as [Hf _].
  exact Hf.
Defined.

(** ** The start of the plugin *)

Lemma createVisualizerUI_calm w :
  (forall e, faults w e = false) -> calm (createVisualizerUI w).
Proof.
  intro Hf. unfold createVisualizerUI, removeVisualizerUI. calm_down Hf.
Qed.

Lemma startVisualizer_completes {math : JSMath} w s :
  (forall e, faults w e = false) ->
  exists s', startVisualizer w s = Normal tt s'.
Proof.
  intro Hf.
  destruct (completes (startVisualizer w) s) as [[] [s' H]].
  - unfold startVisualizer.
    pose proof (fun m => @straight_call m : straight (call m)).
    unfold createVisualizerUI, animate. straighten.
  - unfold startVisualizer.
    pose proof (createVisualizerUI_calm w Hf).
    pose proof (animate_calm w Hf).
    repeat first [ assumption | progress calm_down Hf ].
  - exists s'. exact H.
Qed.

Lemma startVisualizer_background {math : JSMath} w :
  respects Background (startVisualizer w).
Proof. unfold startVisualizer. respect. Qed.

Lemma unset_timers_inert {math : JSMath} evs s1 :
  runTimers evs {| plugin := s1; fastInterval := false; slowIntervals := 0 |}
  = {| plugin := s1; fastInterval := false; slowIntervals := 0 |}.
Proof. induction evs as [|[w|w] evs IH]; simpl; [reflexivity | exact IH | exact IH]. Qed.

(** X15.  The poller is installed only after the surface and the first
    frame.  When no browser call throws, [initialize] ends with the fast
    interval installed and the first check done.  When the first frame (or
    the creation of the surface) ends with an exception, observePlayState is
    never reached: no timer exists, so whatever time passes the plugin stays
    in the state of the exception and never attempts to acquire audio. *)
Theorem polling_needs_first_frame {math : JSMath} (w : World) (s : State) :
  ((forall e, faults w e = false) ->
   fastInterval (initialize w s) = true /\
   slowIntervals (initialize w s) = 0%nat /\
   checkCount (plugin (initialize w s)) = 1%Z) /\
  (forall err s1,
     startVisualizer w s = Throw err s1 ->
     forall evs,
       runTimers evs (initialize w s)
       = {| plugin := s1; fastInterval := false; slowIntervals := 0 |} /\
       acquisitions (plugin (runTimers evs (initialize w s))) = acquisitions s).
Proof.
  split.
  - intro Hf. unfold initialize.
    destruct (startVisualizer_completes w s Hf) as [s1 H1]. rewrite H1.
    split; [reflexivity|]. split; [reflexivity|]. apply observePlayState_count.
  - intros err s1 H evs. unfold initialize. rewrite H.
    rewrite unset_timers_inert. split; [reflexivity|]. simpl.
    pose proof (startVisualizer_background w s) as HB. rewrite H in HB. simpl in HB.
    apply acquisitions_background, HB.
Qed.

Lemma polling_needs_first_frame_witness :
  acquisitions
    (plugin (runTimers [FastFires loudWorld; SlowFires loudWorld; FastFires loudWorld]
               (initialize legacyWorld initialState)))
  = acquisitions initialState.
Proof.
  destruct (startVisualizer legacyWorld initialState) as [[] s1|s1|err s1] eqn:E.
  - vm_compute in E. discriminate.
  - vm_compute in E. discriminate.
  - destruct (polling_needs_first_frame legacyWorld initialState) as [_ H].
    destruct (H err s1 E [FastFires loudWorld; SlowFires loudWorld; FastFires loudWorld])
      as [_ Ha].
    exact Ha.
Defined.

(** ** What building the surface leaves *)

Lemma sat_perform_cases (s : State) (Q : unit -> State -> Prop) (Rt X : State -> Prop)
    w e :
  (faults w e = false -> Q tt (set_events (events s ++ [e]) s)) ->
  (faults w e = true -> X (set_events (events s ++ [e]) s)) ->
  sat (perform w e) s Q Rt X.
Proof.
  intros HQ HX. unfold sat, perform, bind, emit, modify, throw, skip, ret.
  destruct (faults w e); auto.
Qed.

(** One statement, with the outcome of each browser call recorded. *)
Ltac sat_case :=
  cbv beta;
  lazymatch goal with
  | |- sat (perform _ _) _ _ _ _ =>
      let F := fresh "F" in apply sat_perform_cases; intro F
  | _ => sat_step
  end.

Ltac faulty :=
  let Hall := fresh in
  intro Hall;
  match goal with
  | F : faults _ _ = true |- _ => rewrite Hall in F; discriminate F
  end.

(** X16.  createVisualizerUI is destroy-then-build.  From a state of the
    plugin it never returns early out of its caller and throws only when a
    browser call does; when it completes, the page has a surface exactly
    when the search field and its parent were found - then a container and
    a canvas of 200 by 40, with a drawing context when the canvas gives one
    - and otherwise no surface at all: a visualizer that was shown before
    the call is removed and not rebuilt. *)
Theorem createVisualizerUI_outcome (w : World) (s : State) :
  wellFormed s ->
  match createVisualizerUI w s with
  | Normal _ s' => surfaceBuilt w s'
  | Return _ => False
  | Throw _ _ => ~ (forall e, faults w e = false)
  end.
Proof.
  intro H.
  change (sat (createVisualizerUI w) s (fun _ s' => surfaceBuilt w s')
            (fun _ => False) (fun _ => ~ (forall e, faults w e = false))).
  unfold createVisualizerUI, removeVisualizerUI, surfaceBuilt.
  repeat sat_case; try faulty;
    cbv beta; unfold noSurface; simpl;
    try (destruct (context2D w); simpl);
    repeat split; try reflexivity; try assumption; try discriminate;
    destruct H as [_ [Hs _]]; destruct (canvas s); intuition congruence.
Qed.

Lemma createVisualizerUI_outcome_witness :
  noSurface (final (createVisualizerUI emptyPage surfaceState)).
Proof.
  assert (H : wellFormed surfaceState).
  { apply (createVisualizerUI_sound quietWorld initialState), initialState_sound. }
  pose proof (createVisualizerUI_outcome emptyPage surfaceState H) as O.
  destruct (createVisualizerUI emptyPage surfaceState) as [[] s'|s'|e s'] eqn:E.
  - exact O.
  - destruct O.
  - vm_compute in E. discriminate.
Defined.


(** ** The phase of the idle wave *)

#[export] Instance SameWave_PreOrder : RelationClasses.PreOrder SameWave.
Proof.
  split; [intro s; reflexivity|].
  intros s1 s2 s3 H1 H2. unfold SameWave in *. congruence.
Qed.

#[export] Hint Extern 1 (respects SameWave (emit _)) =>
  apply respects_modify; intro; reflexivity : respects.
#[export] Hint Extern 1 (respects SameWave (modify _)) =>
  apply respects_modify; intro; unfold SameWave;
  repeat match goal with
         | |- context [match ?x with _ => _ end] => destruct x
         end; reflexivity : respects.

Lemma removeVisualizerUI_wave w : respects SameWave (removeVisualizerUI w).
Proof. unfold removeVisualizerUI. respect. Qed.
#[export] Hint Resolve removeVisualizerUI_wave : respects.

Lemma createVisualizerUI_wave w : respects SameWave (createVisualizerUI w).
Proof. unfold createVisualizerUI. respect. Qed.
#[export] Hint Resolve createVisualizerUI_wave : respects.

Lemma drawBars_wave w : respects SameWave (drawBars w).
Proof. unfold drawBars, drawRoundedRect, setFillStyle. respect. Qed.
#[export] Hint Resolve drawBars_wave : respects.

Lemma updateAudioVisualizer_wave w : respects SameWave (updateAudioVisualizer w).
Proof. unfold updateAudioVisualizer. respect. Qed.

Lemma cleanupAudioVisualizer_wave w : respects SameWave (cleanupAudioVisualizer w).
Proof. unfold cleanupAudioVisualizer, stopAnimation. respect. Qed.

Lemma completeCleanup_wave w : respects SameWave (completeCleanup w).
Proof. unfold completeCleanup, stopAnimation. respect. Qed.

Lemma thenReaction_wave : respects SameWave thenReaction.
Proof. unfold thenReaction. respect. Qed.

Lemma runThen_wave s : waveTime (runThen s) = waveTime s.
Proof.
  unfold runThen. destruct (thenPending s); [|reflexivity].
  apply (thenReaction_wave (set_thenPending false s)).
Qed.

Ltac sat_wave :=
  cbv beta;
  lazymatch goal with
  | |- sat (for_from _ _ _) _ _ _ _ =>
      apply (sat_respects SameWave);
      [apply respects_for_from; intro; unfold drawRoundedRect; respect|]
  | |- sat (drawBars _) _ _ _ _ =>
      apply (sat_respects SameWave); [apply drawBars_wave|]
  end;
  let s' := fresh "s" in
  let Hs := fresh "Hs" in
  intros s' Hs; unfold SameWave in Hs; simpl in Hs; (split; [intros _ | split]).

Ltac wave_leaf :=
  cbv beta; simpl;
  repeat match goal with
         | Hs : waveTime _ = _ |- _ => rewrite Hs; clear Hs
         end;
  repeat match goal with
         | E : ?l = _ |- context [?l] => rewrite E
         end;
  simpl in *; try congruence;
  try match goal with
      | |- context [hasRealAudio ?x] => destruct (hasRealAudio x)
      end;
  repeat match goal with
         | E : ?l = _, E' : context [?l] |- _ => rewrite E in E'
         end;
  simpl in *; try congruence; auto.

Lemma animate_wave {math : JSMath} w s :
  sat (animate w) s
    (fun _ s' => waveTime s' = if idleNow w s then waveTime s + 0.05 else waveTime s)
    (fun _ => True)
    (fun s' => waveTime s' = waveTime s \/ waveTime s' = waveTime s + 0.05).
Proof.
  unfold animate, renderFrame, idleNow, audibleNow, drawWaveform, drawCircular,
    drawScrollingWave, setFillStyle.
  repeat first [sat_step | sat_wave]; wave_leaf.
Qed.

(** X17.  The phase of the idle wave moves only in frames.  A frame that
    completes advances [waveTime] by exactly 0.05 when it paints the idle
    wave and leaves it alone when it paints audio bars or has no surface; a
    frame cut short by an exception has advanced it by 0.05 or not at all.
    Setting updates, rebuilds and removals of the surface and the complete
    cleanup never change it: the phase is not reset, even on unload. *)
Theorem wave_phase {math : JSMath} :
  (forall w s s',
     animate w s = Normal tt s' ->
     waveTime s' = if idleNow w s then waveTime s + 0.05 else waveTime s) /\
  (forall w s,
     waveTime (final (animate w s)) = waveTime s \/
     waveTime (final (animate w s)) = waveTime s + 0.05) /\
  (forall a s, paintsNothing a = true -> waveTime (runAction a s) = waveTime s).
Proof.
  split; [|split].
  - intros w s s' H. pose proof (animate_wave w s) as HW. unfold sat in HW.
    rewrite H in HW. exact HW.
  - intros w s. pose proof (animate_wave w s) as HW. unfold sat in HW.
    destruct (animate w s) as [[] s'|s'|e s'] eqn:E; simpl.
    + rewrite HW. destruct (idleNow w s); auto.
    + exfalso. exact (straight_call _ _ _ E).
    + exact HW.
  - intros [[w|w|w|w|w|w]|w] s Hp; try discriminate Hp; simpl.
    + apply updateAudioVisualizer_wave.
    + apply createVisualizerUI_wave.
    + apply cleanupAudioVisualizer_wave.
    + apply completeCleanup_wave.
Qed.

Lemma wave_phase_witness :
  waveTime (final (animate quietWorld surfaceState)) = waveTime surfaceState + 0.05.
Proof.
  destruct (animate quietWorld surfaceState) as [[] s'|s'|e s'] eqn:E.
  - cbn [final]. rewrite (proj1 wave_phase quietWorld surfaceState s' E).
    reflexivity.
  - vm_compute in E. discriminate.
  - vm_compute in E. discriminate.
Defined.

(** ** Unloading twice *)

Lemma completeCleanup_resets (w : World) (s s1 : State) :
  completeCleanup w s = Normal tt s1 ->
  animationId s1 = None /\ visualizerContainer s1 = false /\
  audioContext s1 = false /\ analyser s1 = None /\ audioSource s1 = None /\
  dataArray s1 = None /\ currentAudioElement s1 = None /\
  isSourceConnected s1 = false.
Proof.
  unfold completeCleanup, stopAnimation, removeVisualizerUI, when, try_catch,
    bind, get, perform, emit, modify, log, throw, skip, ret.
  repeat (simpl;
          match goal with
          | |- context [faults w ?e] => destruct (faults w e) eqn:?
          | |- context [match animationId s with _ => _ end] =>
              destruct (animationId s) eqn:?
          | |- context [if visualizerContainer s then _ else _] =>
              destruct (visualizerContainer s) eqn:?
          | |- context [isSome (audioSource s)] => destruct (audioSource s) eqn:?
          | |- context [if audioContext s && _ then _ else _] =>
              destruct (audioContext s) eqn:?
          | |- context [match contextState w with _ => _ end] =>
              destruct (contextState w) eqn:?
          end);
    simpl; intro H; try discriminate H;
    inversion H; subst; simpl; repeat split; assumption.
Qed.

(** X18.  The complete cleanup is idempotent: after a cleanup that ran to
    its end, a second one - on whatever page - cancels nothing, removes
    nothing, disconnects and closes nothing; it only writes its first log
    line and leaves every module variable as the first one left it. *)
Theorem completeCleanup_idempotent (w w' : World) (s s1 : State) :
  completeCleanup w s = Normal tt s1 ->
  completeCleanup w' s1
  = Normal tt (set_events (events s1 ++ [logged "Complete cleanup - plugin unloading"]) s1).
Proof.
  intro H.
  destruct (completeCleanup_resets w s s1 H)
    as (Hid & Hvc & Hctx & Han & Hsrc & Hda & Hel & Hconn).
  unfold completeCleanup, stopAnimation, removeVisualizerUI, when, try_catch,
    bind, get, perform, emit, modify, log, throw, skip, ret.
  simpl. rewrite Hid. simpl. rewrite Hvc. simpl. rewrite Hsrc. simpl.
  rewrite Hctx. simpl.
  destruct s1. simpl in *. subst. reflexivity.
Qed.

Lemma completeCleanup_idempotent_witness :
  teardowns (final (completeCleanup loudWorld (final (completeCleanup loudWorld liveState))))
  = teardowns (final (completeCleanup loudWorld liveState)).
Proof.
  destruct (completeCleanup loudWorld liveState) as [[] s1|s1|e s1] eqn:E.
  - cbn [final].
    rewrite (completeCleanup_idempotent loudWorld loudWorld liveState s1 E).
    cbn [final]. unfold teardowns. cbn [events set_events].
    rewrite count_snoc. apply Nat.add_0_r.
  - vm_compute in E. discriminate.
  - vm_compute in E. discriminate.
Defined.

(** ** A removed visualizer stays removed while playback goes on *)

Lemma animate_without_surface {math : JSMath} w s :
  canvasContext s = None -> animate w s = Normal tt (set_animationId None s).
Proof.
  intro H. unfold animate, call, bind, get, modify, return_. rewrite H. reflexivity.
Qed.

Lemma checkAndInitialize_tried {math : JSMath} w s :
  playing w = true -> hasTriedInitialization s = true -> canvasContext s = None ->
  checkAndInitialize w s
  = Normal tt (if isSome (animationId s)
               then set_checkCount (checkCount s + 1)%Z s
               else set_animationId None (set_checkCount (checkCount s + 1)%Z s)).
Proof.
  intros Hp Ht Hc. unfold checkAndInitialize, bind, get, modify, when. simpl.
  rewrite Hp, Ht. simpl.
  destruct (animationId s); simpl; [reflexivity|].
  rewrite animate_without_surface by exact Hc. reflexivity.
Qed.

Lemma runOp_removed {math : JSMath} op s :
  stillPlaying op = true -> removedWhileTried s ->
  removedWhileTried (runOp op s) /\ visibleCalls (runOp op s) = visibleCalls s.
Proof.
  intros Hop [[Hvc [Hcv Hctx]] [Ht Hp]].
  destruct op as [w|w|w|w|w|w]; simpl in Hop; try discriminate Hop; simpl runOp.
  - rewrite animate_without_surface by exact Hctx.
    unfold removedWhileTried, noSurface. simpl. auto.
  - unfold cleanupAudioVisualizer, stopAnimation, removeVisualizerUI, bind, get,
      when, perform, emit, modify, throw, skip, ret.
    destruct (animationId s) as [id|]; simpl;
      [destruct (faults w (CancelAnimationFrame id)); simpl|];
      rewrite ?Hvc; simpl;
      unfold removedWhileTried, noSurface, visibleCalls; simpl;
      rewrite ?count_snoc; simpl; rewrite ?Nat.add_0_r; auto 10.
  - unfold pollTick. rewrite (checkAndInitialize_tried w s Hop Ht Hctx).
    unfold runThen.
    destruct (animationId s); simpl; rewrite Hp;
      unfold removedWhileTried, noSurface; simpl; auto 10.
Qed.

(** X19.  A removed visualizer stays removed while playback goes on.  After
    cleanupAudioVisualizer has taken the surface away, with the poller's
    have-tried flag set, no animation frame, further removal or timer tick
    that observes playback still going on builds a surface, paints or
    requests a frame: the poller does not initialise again before playback
    has stopped, and [animate] without a surface only clears [animationId]. *)
Theorem removed_stays_removed {math : JSMath} (s : State) (ops : list Op) :
  removedWhileTried s ->
  forallb stillPlaying ops = true ->
  removedWhileTried (runOps ops s) /\
  visibleCalls (runOps ops s) = visibleCalls s.
Proof.
  revert s. induction ops as [|op ops IH]; simpl; intros s Hs Hops; [auto|].
  apply andb_true_iff in Hops as [Hop Hops].
  destruct (runOp_removed op s Hop Hs) as [Hs1 Hv1].
  destruct (IH (runOp op s) Hs1 Hops) as [Hs2 Hv2].
  split; [exact Hs2 | congruence].
Qed.

Lemma removed_stays_removed_witness :
  visibleCalls
    (runOps [Tick loudWorld; Frame loudWorld; Tick loudWorld]
       (final (cleanupAudioVisualizer loudWorld (pollTick loudWorld initialState))))
  = visibleCalls (final (cleanupAudioVisualizer loudWorld (pollTick loudWorld initialState))).
Proof.
  assert (Hs : removedWhileTried (final (cleanupAudioVisualizer loudWorld (pollTick loudWorld initialState)))).
  { unfold removedWhileTried, noSurface. repeat split; vm_compute; reflexivity. }
  assert (Hops : forallb stillPlaying [Tick loudWorld; Frame loudWorld; Tick loudWorld]
                 = true) by reflexivity.
  destruct (removed_stays_removed _ _ Hs Hops) as [_ Hv].
  exact Hv.
Defined.

(** ** A hook-up that fails shows nothing *)

#[export] Instance Unseen_PreOrder : RelationClasses.PreOrder Unseen.
Proof.
  split.
  - intro s. unfold Unseen. repeat split. apply grows_refl.
  - intros s1 s2 s3 (A1 & B1 & C1 & G1) (A2 & B2 & C2 & G2). unfold Unseen.
    repeat split; try congruence. eapply grows_trans; eassumption.
Qed.

#[export] Hint Extern 1 (respects Unseen (emit _)) =>
  apply respects_modify; intro; unfold Unseen; simpl; repeat split;
  apply grows_emit; reflexivity : respects.
#[export] Hint Extern 1 (respects Unseen (modify _)) =>
  apply respects_modify; intro; unfold Unseen; simpl; repeat split;
  apply grows_same; reflexivity : respects.

Lemma ensureAudioGraph_unseen w : respects Unseen (ensureAudioGraph w).
Proof. unfold ensureAudioGraph. respect. Qed.

Lemma directTap_unseen w el : respects Unseen (directTap w el).
Proof. unfold directTap. respect. Qed.

Lemma streamTap_unseen w el : respects Unseen (streamTap w el).
Proof. unfold streamTap, captureAny. respect. Qed.

Lemma Unseen_emit s s' e :
  Unseen s s' -> notShowStep e = true -> Unseen s (set_events (events s' ++ [e]) s').
Proof.
  intros H He. etransitivity; [exact H|].
  unfold Unseen. simpl. repeat split. apply grows_emit, He.
Qed.

Lemma attemptConnection_gives_up w el s1 :
  isSourceConnected s1 = false ->
  sameElement el (currentAudioElement s1) = false ->
  (forall s0, exists err s', directTap w el s0 = Throw err s') ->
  (forall s0, exists err s', streamTap w el s0 = Throw err s') ->
  exists s6, attemptConnection w el s1 = Return s6 /\ Unseen s1 s6.
Proof.
  intros Hc Hsame Hd Hs.
  destruct (Hd s1) as [err [s2 Hd1]].
  pose proof (directTap_unseen w el s1) as U2. rewrite Hd1 in U2. simpl in U2.
  set (s3 := set_events
               (events s2 ++ [logged
                  "MediaElementSource failed, attempting captureStream fallback..."]) s2).
  destruct (Hs s3) as [err2 [s4 Hs4]].
  pose proof (streamTap_unseen w el s3) as U4. rewrite Hs4 in U4. simpl in U4.
  eexists. split.
  - unfold attemptConnection. change (bind get ?k s1) with (k s1 s1). cbv beta.
    rewrite Hc, Hsame. cbn [negb andb when].
    unfold bind at 1, try_catch at 1. rewrite Hd1.
    unfold bind at 1, log, emit, modify, try_catch. fold s3. rewrite Hs4.
    reflexivity.
  - apply Unseen_emit; [|reflexivity]. apply Unseen_emit; [|reflexivity].
    etransitivity; [|exact U4]. apply Unseen_emit; [exact U2 | reflexivity].
Qed.

(** X20.  When both the direct tap and the stream capture fail, the
    [return] of line 145 leaves the whole routine: the suspended context is
    not resumed, no surface is built and no frame is painted or requested
    by this call; the surface and the pending frame are the ones before the
    call. *)
Theorem failed_hookup_shows_nothing {math : JSMath}
    (w : World) (s : State) (el : Element) :
  findAudioElement w = Some el ->
  isSourceConnected s = false ->
  sameElement el (currentAudioElement s) = false ->
  (forall s0, exists err s1, directTap w el s0 = Throw err s1) ->
  (forall s0, exists err s1, streamTap w el s0 = Throw err s1) ->
  let s' := final (initializeAudioVisualizer w s) in
  visualizerContainer s' = visualizerContainer s /\
  canvas s' = canvas s /\
  animationId s' = animationId s /\
  showSteps s' = showSteps s.
Proof.
  intros Hfind Hc Hsame Hd Hs s'.
  assert (HU : Unseen s s').
  { unfold s', initializeAudioVisualizer. rewrite Hfind.
    pose proof (ensureAudioGraph_unseen w s) as U1.
    pose proof (ensureAudioGraph_quiet w s) as Q1.
    destruct (ensureAudioGraph w s) as [[] s1|s1|e s1] eqn:He; simpl in U1, Q1.
    - destruct Q1 as [[Qc [Qe _]] _].
      destruct (attemptConnection_gives_up w el s1) as [s6 [Hat U6]]; try assumption.
      { congruence. }
      { rewrite Qe. exact Hsame. }
      unfold call, try_catch, bind. rewrite He, Hat. simpl.
      etransitivity; eassumption.
    - unfold call, try_catch, bind. rewrite He. simpl. exact U1.
    - unfold call, try_catch, bind. rewrite He. simpl.
      apply Unseen_emit; [exact U1 | reflexivity]. }
  destruct HU as (A & B & C & G). repeat split; try assumption.
  unfold showSteps. apply (grows_count notShowStep); [|exact G].
  intros e He. unfold notShowStep in He. destruct (isShowStep e); [discriminate|reflexivity].
Qed.

Lemma failed_hookup_shows_nothing_witness :
  showSteps (final (initializeAudioVisualizer lockedWorld initialState))
  = showSteps initialState.
Proof.
  assert (H1 : findAudioElement lockedWorld = Some player) by reflexivity.
  assert (H2 : isSourceConnected initialState = false) by reflexivity.
  assert (H3 : sameElement player (currentAudioElement initialState) = false)
    by reflexivity.
  assert (H4 : forall s0, exists err s1, directTap lockedWorld player s0 = Throw err s1).
  { intro s0. eexists. eexists. reflexivity. }
  assert (H5 : forall s0, exists err s1, streamTap lockedWorld player s0 = Throw err s1).
  { intro s0. eexists. eexists. reflexivity. }
  destruct (failed_hookup_shows_nothing lockedWorld initialState player H1 H2 H3 H4 H5)
    as [_ [_ [_ Hn]]].
  exact Hn.
Defined.
